(** * smart-storage: the vault engine, its helpers and the transform chain

    A shallow embedding of the TypeScript sources

    - [vault/storage-vault.ts]  (class [StorageVault], the engine in use),
    - [vault/helpers.ts], [vault/constants.ts], [vault/types.ts],
    - [storage/*.ts]            (the [IStorage] adapters),
    - [transform/transform-handler.ts], [transform/transform-chain.ts],
    - [transforms/pipeline.ts]  (class [TransformPipeline]),
    - [core/vault.ts]           (the earlier engine, module [Legacy]),
    - [storage/storage-type.ts] and the static methods of [StorageVault]
      (the registry of engines, module [Registry]).

    Conventions of the embedding.

    - A method of the engine is a computation in the monad [M]: it takes the
      world (engine fields, storage adapter, object heap, timer table, clock)
      and gives back a result or a thrown error together with the new world.
      A thrown error keeps the effects made before the throw, as in
      JavaScript.
    - Record sets ([DataRecord]) are JavaScript objects: they live in a heap
      and are passed by reference ([ref]).  Their own properties are kept in
      enumeration order.  Property lookup is the lookup of own properties, as
      the declared type [Record<string, StoredData>] has it; the names that
      every object inherits from [Object.prototype] are told by [inherited],
      and what is stated of a key that is not stored is stated of keys that
      are not inherited.
    - [JSON.stringify] and [JSON.parse] are platform functions: the engine is
      stated over any implementation of them (class [JSON]).
    - Strings are sequences of code units below 256; numbers that the
      engine receives as arguments are [number]s (a finite integer, NaN or an
      infinity); timestamps and stored expiries are integers of milliseconds.
*)

From Stdlib Require Import Ascii String Sorted Permutation.
From stdpp Require Import prelude strings pretty gmap.

Open Scope string_scope.
Open Scope Z_scope.
Open Scope list_scope.

(** ** Errors and results *)

Inductive error_class :=
  | DOMException (name : string)
  | TypeError
  | RangeError
  | SyntaxError
  | PlainError.

Record js_error := mkError { err_class : error_class; err_message : string }.

Definition Error (message : string) : js_error := mkError PlainError message.

Inductive result (A : Type) :=
  | Ok (a : A)
  | Err (e : js_error).
Arguments Ok {A} a.
Arguments Err {A} e.

Definition is_ok {A} (r : result A) : bool :=
  match r with Ok _ => true | Err _ => false end.

(** ** Numbers received as arguments *)

Inductive number :=
  | Finite (z : Z)
  | NaN
  | PosInfinity
  | NegInfinity.

Definition Number_isFinite (n : number) : bool :=
  match n with Finite _ => true | _ => false end.

(** [a < 0], [a <= 0] and [a === 0] on numbers. *)
Definition number_ltb0 (n : number) : bool :=
  match n with Finite z => z <? 0 | NegInfinity => true | _ => false end.
Definition number_leb0 (n : number) : bool :=
  match n with Finite z => z <=? 0 | NegInfinity => true | _ => false end.
Definition number_eqb0 (n : number) : bool :=
  match n with Finite z => z =? 0 | _ => false end.

(** [a - b], with [Infinity - Infinity = NaN]. *)
Definition number_sub (a b : number) : number :=
  match a, b with
  | NaN, _ | _, NaN => NaN
  | Finite x, Finite y => Finite (x - y)
  | Finite _, PosInfinity => NegInfinity
  | Finite _, NegInfinity => PosInfinity
  | PosInfinity, PosInfinity => NaN
  | PosInfinity, _ => PosInfinity
  | NegInfinity, NegInfinity => NaN
  | NegInfinity, _ => NegInfinity
  end.

(** [Number.MAX_SAFE_INTEGER] and [Number.isSafeInteger], on integers: up to
    that bound every integer is a number, and a sum of safe integers that is
    safe is the sum the engine computes. *)
Definition Number_MAX_SAFE_INTEGER : Z := 9007199254740991.

Definition Number_isSafeInteger (z : Z) : bool :=
  (- Number_MAX_SAFE_INTEGER <=? z) && (z <=? Number_MAX_SAFE_INTEGER).

(** ** Strings *)

Definition is_whitespace (c : ascii) : bool :=
  let n := nat_of_ascii c in
  bool_decide (n ∈ [9; 10; 11; 12; 13; 32; 160]%nat).

Fixpoint trimStart (s : string) : string :=
  match s with
  | EmptyString => EmptyString
  | String c s' => if is_whitespace c then trimStart s' else s
  end.

Fixpoint trimEnd (s : string) : string :=
  match s with
  | EmptyString => EmptyString
  | String c s' =>
      let t := trimEnd s' in
      if is_whitespace c && String.eqb t "" then "" else String c t
  end.

(** [String.prototype.trim] *)
Definition trim (s : string) : string := trimEnd (trimStart s).

(** [String.prototype.includes] *)
Definition includes (needle s : string) : bool :=
  match String.index 0 needle s with Some _ => true | None => false end.

Definition dquote : string := String "034"%char EmptyString.

(** ** [vault/constants.ts] *)

Definition DEFAULT_STORAGE_KEY : string := "APP_DATA".
Definition DEFAULT_MAX_SIZE_BYTES : Z := 4000000.
Definition DEFAULT_MAX_ITEMS_IN_MEMORY : nat := 1000.
Definition DANGEROUS_KEYS : list string := ["__proto__"; "constructor"; "prototype"].
Definition DEFAULT_DEBOUNCE_MS : Z := 100.

(** ** [vault/types.ts] *)

Record StoredData (V : Type) := mkStoredData { value : V; expiry : option Z }.
Arguments mkStoredData {V} value expiry.
Arguments value {V} s.
Arguments expiry {V} s.

(** A record set: the own properties of the object, in enumeration order. *)
Abbreviation DataRecord V := (list (string * StoredData V)).

(** ** Plain objects

    The objects of the engine are plain ones: what [JSON.parse], an object
    literal and a spread give.  Such an object is the list of its own
    properties in the order JavaScript enumerates them (the array indices
    first, ascending, then the other names in the order of their creation),
    and its prototype is [Object.prototype]. *)

Definition digit_value (c : ascii) : option N :=
  let n := N_of_ascii c in
  if ((48 <=? n) && (n <=? 57))%N then Some (n - 48)%N else None.

Fixpoint digits_value (s : string) (acc : N) : option N :=
  match s with
  | EmptyString => Some acc
  | String c rest =>
      match digit_value c with
      | Some d => digits_value rest (10 * acc + d)%N
      | None => None
      end
  end.

(** The array index a name stands for, if any: the name is the canonical
    decimal text of an integer from 0 to 2^32 - 2. *)
Definition array_index (key : string) : option N :=
  match key with
  | EmptyString => None
  | String c rest =>
      if Ascii.eqb c "0" && negb (String.eqb rest "") then None
      else
        match digits_value key 0 with
        | Some n => if (n <? 4294967295)%N then Some n else None
        | None => None
        end
  end.

(** A property named [key] is enumerated before one named [other] that was
    created earlier. *)
Definition enumerated_before (key other : string) : bool :=
  match array_index key, array_index other with
  | Some n, Some m => (n <? m)%N
  | Some _, None => true
  | None, _ => false
  end.

(** The property names of [Object.prototype]. *)
Definition Object_prototype : list string :=
  ["constructor"; "__defineGetter__"; "__defineSetter__"; "hasOwnProperty";
   "__lookupGetter__"; "__lookupSetter__"; "isPrototypeOf"; "propertyIsEnumerable";
   "toString"; "valueOf"; "__proto__"; "toLocaleString"].

(** The name is found on the prototype of every plain object. *)
Definition inherited (key : string) : bool := bool_decide (key ∈ Object_prototype).

Section Properties.
Context {A : Type}.
Implicit Types (data : list (string * A)).

(** [data[key]], for a name the object owns or one that is not
    [inherited]: the own property, if there is one.  (For an inherited name
    that the object does not own, JavaScript goes on to the prototype and
    finds a function there; the facts about a key that is not stored
    assume that the key is not [inherited].) *)
Fixpoint get_prop (key : string) data : option A :=
  match data with
  | [] => None
  | (k, a) :: rest => if String.eqb k key then Some a else get_prop key rest
  end.

(** [Object.prototype.hasOwnProperty.call(data, key)] *)
Definition hasOwnProperty (key : string) data : bool :=
  match get_prop key data with Some _ => true | None => false end.

(** The value of an own property is replaced: the property keeps its place. *)
Fixpoint replace_prop (key : string) (a : A) data : list (string * A) :=
  match data with
  | [] => []
  | (k, old) :: rest =>
      if String.eqb k key then (k, a) :: rest
      else (k, old) :: replace_prop key a rest
  end.

(** A property the object does not own yet is created: an array index goes
    before the first greater index and before every other name, another
    name goes last. *)
Fixpoint add_prop (key : string) (a : A) data : list (string * A) :=
  match data with
  | [] => [(key, a)]
  | (k, old) :: rest =>
      if enumerated_before key k then (key, a) :: data
      else (k, old) :: add_prop key a rest
  end.

(** An own data property is defined, as [JSON.parse] and an object literal
    do it for each member. *)
Definition define_prop (key : string) (a : A) data : list (string * A) :=
  if hasOwnProperty key data then replace_prop key a data else add_prop key a data.

(** [data[key] = a].  The name [__proto__] is an accessor of
    [Object.prototype]: unless the object owns a property of that name, the
    assignment is handed to its setter and creates no property. *)
Definition set_prop (key : string) (a : A) data : list (string * A) :=
  if String.eqb key "__proto__" && negb (hasOwnProperty key data) then data
  else define_prop key a data.

(** [delete data[key]] *)
Fixpoint delete_prop (key : string) data : list (string * A) :=
  match data with
  | [] => []
  | (k, a) :: rest =>
      if String.eqb k key then delete_prop key rest
      else (k, a) :: delete_prop key rest
  end.

(** [key in data]: an own property, or a name of the prototype. *)
Definition has_prop (key : string) data : bool :=
  hasOwnProperty key data || inherited key.

(** [Object.keys(data)] *)
Definition Object_keys data : list string := map fst data.
End Properties.

(** What [JSON.parse] can give back, as far as [isValidDataRecord] tells the
    cases apart. *)
Inductive js_value (V : Type) :=
  | JsObject (data : DataRecord V)
  | JsArray
  | JsNull
  | JsString
  | JsNumber
  | JsBoolean.
Arguments JsObject {V} data.
Arguments JsArray {V}.
Arguments JsNull {V}.
Arguments JsString {V}.
Arguments JsNumber {V}.
Arguments JsBoolean {V}.

Definition typeof {V} (v : js_value V) : string :=
  match v with
  | JsObject _ | JsArray | JsNull => "object"
  | JsString => "string"
  | JsNumber => "number"
  | JsBoolean => "boolean"
  end.

Definition Array_isArray {V} (v : js_value V) : bool :=
  match v with JsArray => true | _ => false end.

Definition is_null {V} (v : js_value V) : bool :=
  match v with JsNull => true | _ => false end.

(** The cast [parsed as DataRecord]. *)
Definition as_DataRecord {V} (v : js_value V) : DataRecord V :=
  match v with JsObject data => data | _ => [] end.

(** The platform's JSON functions.  [JSON_stringify] throws on a value that
    cannot be serialized, [JSON_parse] on text that is not JSON. *)
Class JSON (V : Type) := {
  JSON_stringify : DataRecord V → result string;
  JSON_parse : string → result (js_value V);
}.

(** ** [vault/helpers.ts] *)

Inductive RawStorage := WebStorage | MapStorage.

Definition validateKey (key : string) (storage : option RawStorage) : result unit :=
  match storage with
  | None => Err (Error "Storage is not available (unavailable environment).")
  | Some _ =>
      if String.eqb key "" || String.eqb (trim key) "" then
        Err (Error "Storage key cannot be empty or whitespace.")
      else if bool_decide (key ∈ DANGEROUS_KEYS) then
        Err (Error ("Storage key " +:+ dquote +:+ key +:+ dquote +:+
                    " is not allowed as it may cause prototype pollution."))
      else Ok tt
  end.

(** [isExpired(expiry)], at the clock reading [now]. *)
Definition isExpired (now : Z) (expiry : option Z) : bool :=
  match expiry with
  | None => false
  | Some e => e <? now
  end.

(** [new Blob([str]).size]: the UTF-8 length. *)
Fixpoint getByteSize (str : string) : nat :=
  match str with
  | EmptyString => 0%nat
  | String c s => ((if (nat_of_ascii c <? 128)%nat then 1 else 2) + getByteSize s)%nat
  end.

Definition isQuotaExceededError (error : js_error) : bool :=
  match err_class error with
  | DOMException name =>
      String.eqb name "QuotaExceededError" || String.eqb name "NS_ERROR_DOM_QUOTA_REACHED"
  | _ => false
  end.

Definition isCircularReferenceError (error : js_error) : bool :=
  match err_class error with
  | TypeError => includes "circular" (err_message error)
  | _ => false
  end.

Definition isValidDataRecord {V} (parsed : js_value V) : bool :=
  String.eqb (typeof parsed) "object" && negb (is_null parsed) && negb (Array_isArray parsed).

(** ** The storage adapters ([IStorage])

    [LocalStorage], [SessionStorage] and [InMemoryStorage] differ in the
    object [getStorage()] returns: a Web Storage, a [Map], or nothing.  A
    [Map] never refuses a write; [Storage.setItem] may throw, and
    [setItem_outcomes] lists what the coming calls will do ([None]: the call
    succeeds; past the end of the list every call succeeds).  [written] is
    the trace of the writes that reached the backend, latest first. *)

Record Storage := mkStorage {
  raw : option RawStorage;
  entries : gmap string string;
  setItem_outcomes : list (option js_error);
  written : list (string * string);
}.

Definition Storage_read (key : string) (st : Storage) : option string :=
  match raw st with
  | None => None
  | Some _ => entries st !! key
  end.

Definition Storage_write (key value : string) (st : Storage) : result unit * Storage :=
  match raw st with
  | None => (Ok tt, st)
  | Some MapStorage =>
      (Ok tt, mkStorage (raw st) (<[key := value]> (entries st))
                        (setItem_outcomes st) ((key, value) :: written st))
  | Some WebStorage =>
      match setItem_outcomes st with
      | Some e :: later =>
          (Err e, mkStorage (raw st) (entries st) later (written st))
      | None :: later =>
          (Ok tt, mkStorage (raw st) (<[key := value]> (entries st)) later
                            ((key, value) :: written st))
      | [] =>
          (Ok tt, mkStorage (raw st) (<[key := value]> (entries st)) []
                            ((key, value) :: written st))
      end
  end.

Definition Storage_remove (key : string) (st : Storage) : Storage :=
  match raw st with
  | None => st
  | Some _ => mkStorage (raw st) (delete key (entries st)) (setItem_outcomes st) (written st)
  end.

Definition Storage_isAvailable (st : Storage) : bool :=
  match raw st with Some _ => true | None => false end.

(** ** The transform chain, as the engine sees it *)

Record ITransformChain := mkChain {
  chain_apply : string → result string;
  chain_reverse : string → result string;
}.

(** ** The world of one engine *)

Definition ref := nat.
Definition timer := positive.

Record Config := mkConfig {
  storageKey : string;
  maxSizeBytes : Z;
  maxItemsInMemory : nat;
  debounceMs : Z;
  transformChain : ITransformChain;
}.

Record World (V : Type) := mkWorld {
  config : Config;
  (* private fields of the engine *)
  isCleaningUp : bool;
  pendingSave : option timer;
  dirtyData : option ref;
  storage : Storage;
  (* the host: objects, timers, clock *)
  heap : list (DataRecord V);
  timers : list timer;
  next_timer : timer;
  clock : Z;
}.
Arguments mkWorld {V}.
Arguments config {V} w.
Arguments isCleaningUp {V} w.
Arguments pendingSave {V} w.
Arguments dirtyData {V} w.
Arguments storage {V} w.
Arguments heap {V} w.
Arguments timers {V} w.
Arguments next_timer {V} w.
Arguments clock {V} w.

(** ** Computations: a state that persists through thrown errors *)

Definition Eff (S A : Type) : Type := S → result A * S.

Section Monad.
Context {S : Type}.
Local Abbreviation M := (Eff S).

Definition ret {A} (a : A) : M A := λ w, (Ok a, w).
Definition throw {A} (e : js_error) : M A := λ w, (Err e, w).
Definition bind {A B} (m : M A) (k : A → M B) : M B :=
  λ w, match m w with
       | (Ok a, w') => k a w'
       | (Err e, w') => (Err e, w')
       end.
Definition lift {A} (r : result A) : M A := λ w, (r, w).
Definition gets {A} (f : S → A) : M A := λ w, (Ok (f w), w).
Definition modify (f : S → S) : M unit := λ w, (Ok tt, f w).

(** [try { body } catch (e) { handler e }] *)
Definition try_catch {A} (body : M A) (handler : js_error → M A) : M A :=
  λ w, match body w with
       | (Ok a, w') => (Ok a, w')
       | (Err e, w') => handler e w'
       end.

(** [try { body } finally { final }] *)
Definition try_finally {A} (body : M A) (final : M unit) : M A :=
  λ w, match body w with
       | (r, w') =>
           match final w' with
           | (Ok _, w'') => (r, w'')
           | (Err e, w'') => (Err e, w'')
           end
       end.

(** Loops. *)
Fixpoint for_each {A} (l : list A) (body : A → M unit) : M unit :=
  match l with
  | [] => ret tt
  | a :: rest => bind (body a) (λ _, for_each rest body)
  end.

Fixpoint fold_each {A B} (l : list A) (acc : B) (body : A → B → M B) : M B :=
  match l with
  | [] => ret acc
  | a :: rest => bind (body a acc) (λ acc', fold_each rest acc' body)
  end.
End Monad.

Declare Scope vault_scope.
Delimit Scope vault_scope with vault.
Notation "x <- m ;; k" := (bind m (λ x, k))
  (at level 100, m at next level, right associativity) : vault_scope.
Notation "m ;; k" := (bind m (λ _, k))
  (at level 100, right associativity) : vault_scope.
Open Scope vault_scope.

(** The computations of an engine. *)
Definition M (V A : Type) : Type := Eff (World V) A.

Section Host.
Context {V : Type}.
Local Abbreviation M := (M V).

Definition set_isCleaningUp (b : bool) (w : World V) : World V :=
  mkWorld (config w) b (pendingSave w) (dirtyData w) (storage w)
          (heap w) (timers w) (next_timer w) (clock w).
Definition set_pendingSave (p : option timer) (w : World V) : World V :=
  mkWorld (config w) (isCleaningUp w) p (dirtyData w) (storage w)
          (heap w) (timers w) (next_timer w) (clock w).
Definition set_dirtyData (d : option ref) (w : World V) : World V :=
  mkWorld (config w) (isCleaningUp w) (pendingSave w) d (storage w)
          (heap w) (timers w) (next_timer w) (clock w).
Definition set_storage (st : Storage) (w : World V) : World V :=
  mkWorld (config w) (isCleaningUp w) (pendingSave w) (dirtyData w) st
          (heap w) (timers w) (next_timer w) (clock w).
Definition set_heap (h : list (DataRecord V)) (w : World V) : World V :=
  mkWorld (config w) (isCleaningUp w) (pendingSave w) (dirtyData w) (storage w)
          h (timers w) (next_timer w) (clock w).
Definition set_timers (ts : list timer) (n : timer) (w : World V) : World V :=
  mkWorld (config w) (isCleaningUp w) (pendingSave w) (dirtyData w) (storage w)
          (heap w) ts n (clock w).
Definition set_clock (t : Z) (w : World V) : World V :=
  mkWorld (config w) (isCleaningUp w) (pendingSave w) (dirtyData w) (storage w)
          (heap w) (timers w) (next_timer w) t.

(** Objects.  A new object gets the next free reference. *)
Definition new_object (data : DataRecord V) : M ref :=
  λ w, (Ok (length (heap w)), set_heap (heap w ++ [data]) w).

(** The own properties of the object behind a reference. *)
Definition deref (w : World V) (r : ref) : DataRecord V :=
  default [] (heap w !! r).

Definition read_object (r : ref) : M (DataRecord V) :=
  λ w, (Ok (deref w r), w).

Definition update_object (r : ref) (f : DataRecord V → DataRecord V) : M unit :=
  modify (λ w, set_heap (alter f r (heap w)) w).

(** [Date.now()] *)
Definition Date_now : M Z := gets clock.

(** [setTimeout(callback, ms)] and [clearTimeout(id)].  The callback of
    every timer of this world is the one [saveAllData] passes. *)
Definition setTimeout : M timer :=
  λ w, (Ok (next_timer w),
        set_timers (next_timer w :: timers w) (Pos.succ (next_timer w)) w).

Definition clearTimeout (t : timer) : M unit :=
  modify (λ w, set_timers (List.filter (λ t', negb (Pos.eqb t' t)) (timers w))
                          (next_timer w) w).

(** The adapter's methods. *)
Definition storage_getStorage : M (option RawStorage) := gets (λ w, raw (storage w)).
Definition storage_isAvailable : M bool := gets (λ w, Storage_isAvailable (storage w)).
Definition storage_read (key : string) : M (option string) :=
  gets (λ w, Storage_read key (storage w)).
Definition storage_write (key value : string) : M unit :=
  λ w, match Storage_write key value (storage w) with
       | (r, st) => (r, set_storage st w)
       end.
Definition storage_remove (key : string) : M unit :=
  modify (λ w, set_storage (Storage_remove key (storage w)) w).

End Host.

(** ** Sorting ([Array.prototype.sort] with a comparator)

    The sort is stable.  A comparator result that is negative or zero (NaN
    counts as zero) leaves the first argument in front. *)

Definition comparator_keeps_order (c : number) : bool :=
  match c with
  | Finite z => z <=? 0
  | NaN => true
  | PosInfinity => false
  | NegInfinity => true
  end.

Section Sort.
Context {A : Type} (compare : A → A → number).

Fixpoint sort_insert (x : A) (sorted : list A) : list A :=
  match sorted with
  | [] => [x]
  | y :: rest =>
      if comparator_keeps_order (compare x y) then x :: y :: rest
      else y :: sort_insert x rest
  end.

Definition Array_sort (l : list A) : list A := foldr sort_insert [] l.
End Sort.

(** ** [vault/storage-vault.ts]: class [StorageVault] *)

Section StorageVault.
Context {V : Type} `{!JSON V}.
Local Abbreviation M := (M V).

Definition this_storageKey : M string := gets (λ w, storageKey (config w)).
Definition this_transformChain : M ITransformChain := gets (λ w, transformChain (config w)).

(** *** Private helpers *)

(** [getAllData()] *)
Definition getAllData : M ref :=
  raw <- storage_getStorage ;;
  match raw with
  | None => new_object []
  | Some _ =>
      dirty <- gets dirtyData ;;
      match dirty with
      | Some d =>
          (* return { ...(this.dirtyData ?? {}) } *)
          props <- read_object d ;;
          new_object props
      | None =>
          key <- this_storageKey ;;
          chain <- this_transformChain ;;
          try_catch
            (dataStr <- storage_read key ;;
             match dataStr with
             | None => new_object []
             | Some str =>
                 if String.eqb str "" then new_object []
                 else
                   deserializedStr <- lift (chain_reverse chain str) ;;
                   parsed <- lift (JSON_parse deserializedStr) ;;
                   if negb (isValidDataRecord parsed) then
                     throw (Error "Invalid storage data structure")
                   else new_object (as_DataRecord parsed)
             end)
            (λ _,
               try_catch (storage_remove key) (λ _, ret tt) ;;
               new_object [])
      end
  end.

(** The comparator of [enforceItemLimit]:
    [(data[a]?.expiry ?? Infinity) - (data[b]?.expiry ?? Infinity)]. *)
Definition expiry_or_Infinity (data : DataRecord V) (key : string) : number :=
  match get_prop key data with
  | Some item => match expiry item with Some e => Finite e | None => PosInfinity end
  | None => PosInfinity
  end.

Definition compare_expiry (data : DataRecord V) (a b : string) : number :=
  number_sub (expiry_or_Infinity data a) (expiry_or_Infinity data b).

(** [enforceItemLimit(data)] *)
Definition enforceItemLimit (data : ref) : M unit :=
  props <- read_object data ;;
  maxItems <- gets (λ w, maxItemsInMemory (config w)) ;;
  let keys := Object_keys props in
  if (length keys <=? maxItems)%nat then ret tt
  else
    let sortedKeys := Array_sort (compare_expiry props) keys in
    let itemsToRemove := (length keys - maxItems)%nat in
    for_each (seq 0 itemsToRemove)
      (λ i, match sortedKeys !! i with
            | Some keyToDelete => update_object data (delete_prop keyToDelete)
            | None => ret tt
            end).

(** The bodies of [saveAllDataImmediate], [handleSaveError] and
    [cleanupExpiredItems], which call one another. *)

Definition saveAllDataImmediate_body (handleSaveError : js_error → M unit)
    (data : ref) : M unit :=
  raw <- storage_getStorage ;;
  match raw with
  | None => ret tt
  | Some kind =>
      (match kind with
       | MapStorage =>
           props <- read_object data ;;
           maxItems <- gets (λ w, maxItemsInMemory (config w)) ;;
           if (maxItems <? length (Object_keys props))%nat
           then enforceItemLimit data else ret tt
       | WebStorage => ret tt
       end) ;;
      key <- this_storageKey ;;
      chain <- this_transformChain ;;
      try_catch
        (props <- read_object data ;;
         dataStr <- lift (JSON_stringify props) ;;
         transformedStr <- lift (chain_apply chain dataStr) ;;
         let byteSize := getByteSize transformedStr in
         (* byteSize > this.maxSizeBytes: the data is written all the same *)
         storage_write key transformedStr)
        handleSaveError
  end.

Definition handleSaveError_body (cleanupExpiredItems : M nat) (error : js_error)
    : M unit :=
  if isQuotaExceededError error then
    cleaning <- gets isCleaningUp ;;
    if negb cleaning then
      modify (set_isCleaningUp true) ;;
      try_finally
        (try_catch
           (cleanupExpiredItems ;;
            (* retry after cleanup *)
            freshData <- getAllData ;;
            props <- read_object freshData ;;
            key <- this_storageKey ;;
            chain <- this_transformChain ;;
            dataStr <- lift (JSON_stringify props) ;;
            transformedStr <- lift (chain_apply chain dataStr) ;;
            storage_write key transformedStr)
           (λ _, throw (Error
              "Storage quota exceeded. Clear some data or use storage slices to reduce size.")))
        (modify (set_isCleaningUp false))
    else throw (Error "Storage quota exceeded during cleanup")
  else if isCircularReferenceError error then
    throw (Error
      "Cannot store data with circular references. Serialize manually before storing.")
  else
    throw (Error ("Failed to save to storage: " +:+ err_message error)).

Definition cleanupExpiredItems_body (saveAllDataImmediate : ref → M unit) : M nat :=
  available <- storage_isAvailable ;;
  if negb available then ret 0%nat
  else
    data <- getAllData ;;
    now <- Date_now ;;
    props <- read_object data ;;
    removedCount <-
      fold_each (Object_keys props) 0%nat
        (λ key removedCount,
           current <- read_object data ;;
           match get_prop key current with
           | Some item =>
               match expiry item with
               | Some e =>
                   if e <? now then
                     update_object data (delete_prop key) ;;
                     ret (S removedCount)
                   else ret removedCount
               | None => ret removedCount
               end
           | None => ret removedCount
           end) ;;
    (if (0 <? removedCount)%nat then saveAllDataImmediate data else ret tt) ;;
    ret removedCount.

(** The calls nest at most twice: [handleSaveError] starts a cleanup only
    when [isCleaningUp] is unset and sets it for the time of the cleanup
    (lemma [saveAllDataImmediate_depth]).  Past the given nesting the
    call stack counts as exhausted. *)
Fixpoint saveAllDataImmediate_at (depth : nat) (data : ref) : M unit :=
  match depth with
  | O => throw (mkError RangeError "Maximum call stack size exceeded")
  | S depth' =>
      saveAllDataImmediate_body
        (handleSaveError_body
           (cleanupExpiredItems_body (saveAllDataImmediate_at depth')))
        data
  end.

(** [saveAllDataImmediate(data)] *)
Definition saveAllDataImmediate : ref → M unit := saveAllDataImmediate_at 2.

(** [cleanupExpiredItems()] *)
Definition cleanupExpiredItems : M nat := cleanupExpiredItems_body saveAllDataImmediate.

(** [handleSaveError(error)] *)
Definition handleSaveError : js_error → M unit := handleSaveError_body cleanupExpiredItems.

(** The callback [saveAllData] hands to [setTimeout]. *)
Definition pendingSave_callback : M unit :=
  dirty <- gets dirtyData ;;
  (match dirty with
   | Some data =>
       try_catch
         (saveAllDataImmediate data ;;
          modify (set_dirtyData None))
         (λ _, ret tt (* keep dirtyData so next flush/save can retry *))
   | None => ret tt
   end) ;;
  modify (set_pendingSave None).

(** [saveAllData(data)] *)
Definition saveAllData (data : ref) : M unit :=
  debounce <- gets (λ w, debounceMs (config w)) ;;
  if 0 <? debounce then
    modify (set_dirtyData (Some data)) ;;
    pending <- gets pendingSave ;;
    (match pending with
     | Some t => clearTimeout t
     | None => ret tt
     end) ;;
    t <- setTimeout ;;
    modify (set_pendingSave (Some t))
  else saveAllDataImmediate data.

(** [removeIfExpired(key, item, data)] *)
Definition removeIfExpired (key : string) (item : option (StoredData V)) (data : ref)
    : M bool :=
  match item with
  | None => ret true
  | Some item =>
      now <- Date_now ;;
      if isExpired now (expiry item) then
        update_object data (delete_prop key) ;;
        ret true
      else ret false
  end.

(** [validateKey(key, this.storage.getStorage())] *)
Definition this_validateKey (key : string) : M unit :=
  raw <- storage_getStorage ;;
  lift (validateKey key raw).

(** *** Public API *)

(** [removeItem(key)] *)
Definition removeItem (key : string) : M bool :=
  this_validateKey key ;;
  data <- getAllData ;;
  props <- read_object data ;;
  if has_prop key props then
    update_object data (delete_prop key) ;;
    saveAllData data ;;
    ret true
  else ret false.

(** [Date.now() + ttl], for the finite [ttl] that passed the check: the sum
    of the integers, which is the sum of the numbers as long as it is a
    safe integer. *)
Definition expiry_after (now : Z) (ttl : number) : option Z :=
  match ttl with Finite z => Some (now + z) | _ => None end.

(** [setItem(key, value, ttl?)] *)
Definition setItem (key : string) (value : V) (ttl : option number) : M bool :=
  this_validateKey key ;;
  (match ttl with
   | Some t =>
       if negb (Number_isFinite t) || number_ltb0 t then
         throw (Error "TTL must be a non-negative finite number.")
       else ret tt
   | None => ret tt
   end) ;;
  if match ttl with Some t => number_eqb0 t | None => false end then
    removeItem key
  else
    data <- getAllData ;;
    now <- Date_now ;;
    let expiry := match ttl with Some t => expiry_after now t | None => None end in
    update_object data (set_prop key (mkStoredData value expiry)) ;;
    saveAllData data ;;
    ret true.

(** [getItem(key)] *)
Definition getItem (key : string) : M (option V) :=
  this_validateKey key ;;
  data <- getAllData ;;
  props <- read_object data ;;
  match get_prop key props with
  | None => ret None
  | Some item =>
      expired <- removeIfExpired key (Some item) data ;;
      if expired then
        saveAllData data ;;
        ret None
      else ret (Some (value item))
  end.

(** [updateItem(key, newValue)] *)
Definition updateItem (key : string) (newValue : V) : M bool :=
  this_validateKey key ;;
  data <- getAllData ;;
  props <- read_object data ;;
  match get_prop key props with
  | None => ret false
  | Some item =>
      expired <- removeIfExpired key (Some item) data ;;
      if expired then
        saveAllData data ;;
        ret false
      else
        (* item.value = newValue *)
        update_object data (set_prop key (mkStoredData newValue (expiry item))) ;;
        saveAllData data ;;
        ret true
  end.

(** [extendTTL(key, additionalTTL)] *)
Definition extendTTL (key : string) (additionalTTL : number) : M bool :=
  this_validateKey key ;;
  match additionalTTL with
  | Finite delta =>
      if number_leb0 additionalTTL then
        throw (Error "additionalTTL must be a positive finite number.")
      else
        data <- getAllData ;;
        props <- read_object data ;;
        match get_prop key props with
        | None => ret false
        | Some item =>
            expired <- removeIfExpired key (Some item) data ;;
            if expired then
              saveAllData data ;;
              ret false
            else
              now <- Date_now ;;
              let expiry' :=
                match expiry item with
                | Some e => e + delta
                | None => now + delta
                end in
              (* item.expiry = ... *)
              update_object data (set_prop key (mkStoredData (value item) (Some expiry'))) ;;
              saveAllData data ;;
              ret true
        end
  | _ => throw (Error "additionalTTL must be a positive finite number.")
  end.

(** [clear()] *)
Definition clear : M bool :=
  available <- storage_isAvailable ;;
  if negb available then
    throw (Error "Storage is not available (unavailable environment).")
  else
    pending <- gets pendingSave ;;
    (match pending with
     | Some t => clearTimeout t ;; modify (set_pendingSave None)
     | None => ret tt
     end) ;;
    modify (set_dirtyData None) ;;
    key <- this_storageKey ;;
    try_catch
      (storage_remove key ;; ret true)
      (λ error, throw (Error ("Failed to clear storage: " +:+ err_message error))).

(** [hasItem(key)] *)
Definition hasItem (key : string) : M bool :=
  this_validateKey key ;;
  data <- getAllData ;;
  props <- read_object data ;;
  match get_prop key props with
  | None => ret false
  | Some item =>
      expired <- removeIfExpired key (Some item) data ;;
      if expired then
        saveAllData data ;;
        ret false
      else ret true
  end.

(** [getRemainingTTL(key)] *)
Definition getRemainingTTL (key : string) : M (option Z) :=
  available <- storage_isAvailable ;;
  if negb available then ret None
  else
    data <- getAllData ;;
    props <- read_object data ;;
    match get_prop key props with
    | None => ret None
    | Some item =>
        match expiry item with
        | None => ret None
        | Some e =>
            now <- Date_now ;;
            let remainingTime := e - now in
            if remainingTime <=? 0 then
              update_object data (delete_prop key) ;;
              saveAllData data ;;
              ret None
            else ret (Some remainingTime)
        end
    end.

(** [flush()] *)
Definition flush : M unit :=
  pending <- gets pendingSave ;;
  (match pending with
   | Some t => clearTimeout t ;; modify (set_pendingSave None)
   | None => ret tt
   end) ;;
  dirty <- gets dirtyData ;;
  match dirty with
  | Some data =>
      saveAllDataImmediate data ;;
      modify (set_dirtyData None)
  | None => ret tt
  end.

(** The test of [getAllKeys] and [getAll] on one entry:
    [item && (item.expiry === null || now <= item.expiry)]. *)
Definition is_live (now : Z) (item : StoredData V) : bool :=
  match expiry item with
  | None => true
  | Some e => now <=? e
  end.

(** [getAllKeys()] *)
Definition getAllKeys : M (list string) :=
  available <- storage_isAvailable ;;
  if negb available then ret []
  else
    data <- getAllData ;;
    now <- Date_now ;;
    props <- read_object data ;;
    fold_each (Object_keys props) []
      (λ key validKeys,
         match get_prop key props with
         | Some item =>
             if is_live now item then ret (validKeys ++ [key])%list else ret validKeys
         | None => ret validKeys
         end).

(** [getAll()] *)
Definition getAll : M (list (string * V)) :=
  available <- storage_isAvailable ;;
  if negb available then ret []
  else
    data <- getAllData ;;
    now <- Date_now ;;
    props <- read_object data ;;
    fold_each (Object_keys props) []
      (λ key result,
         match get_prop key props with
         | Some item =>
             (* result[key] = item.value *)
             if is_live now item then ret (set_prop key (value item) result) else ret result
         | None => ret result
         end).

(** [getCurrentSize()] *)
Definition getCurrentSize : M nat :=
  available <- storage_isAvailable ;;
  if negb available then ret 0%nat
  else
    try_catch
      (data <- getAllData ;;
       props <- read_object data ;;
       dataStr <- lift (JSON_stringify props) ;;
       ret (getByteSize dataStr))
      (λ _, ret 0%nat).

(** *** The host's events *)

(** A scheduled timer comes due: the host drops it from its table and
    runs the callback.  A timer that was cleared does not run. *)
Definition timer_fires (t : timer) : M unit :=
  scheduled <- gets (λ w, bool_decide (t ∈ timers w)) ;;
  if scheduled then
    clearTimeout t ;;
    pendingSave_callback
  else ret tt.

(** The handler the constructor registers for the page's unload. *)
Definition unloadHandler : M unit :=
  dirty <- gets dirtyData ;;
  match dirty with
  | Some data =>
      saveAllDataImmediate data ;;
      modify (set_dirtyData None)
  | None => ret tt
  end.

(** Time passes. *)
Definition clock_advances (ms : Z) : M unit :=
  modify (λ w, set_clock (clock w + ms) w).
End StorageVault.

(** ** What a call of the engine will see and do

    The definitions of this section are not code of the engine: they name,
    as functions of the world, what [getAllData] reads and what a save
    needs in order to go through. *)

Section Views.
Context {V : Type} `{!JSON V}.

(** The text a record set is persisted as. *)
Definition encode (cfg : Config) (data : DataRecord V) : result string :=
  match JSON_stringify data with
  | Ok dataStr => chain_apply (transformChain cfg) dataStr
  | Err e => Err e
  end.

(** The record set a persisted text stands for; an error when it is corrupted. *)
Definition decode (cfg : Config) (text : string) : result (DataRecord V) :=
  match chain_reverse (transformChain cfg) text with
  | Ok deserializedStr =>
      match JSON_parse deserializedStr with
      | Ok parsed =>
          if isValidDataRecord parsed then Ok (as_DataRecord parsed)
          else Err (Error "Invalid storage data structure")
      | Err e => Err e
      end
  | Err e => Err e
  end.

(** The text under the engine's key. *)
Definition persisted_text (w : World V) : option string :=
  Storage_read (storageKey (config w)) (storage w).

(** The backend is read (no dirty buffer shadows it) and holds a text, not
    the empty one, that does not decode. *)
Definition is_corrupted (w : World V) : bool :=
  match raw (storage w), dirtyData w, persisted_text w with
  | Some _, None, Some text =>
      negb (String.eqb text "") && negb (is_ok (decode (config w) text))
  | _, _, _ => false
  end.

(** The record set the engine works on: the dirty buffer when there is one,
    else what the backend holds. *)
Definition current_data (w : World V) : DataRecord V :=
  match raw (storage w) with
  | None => []
  | Some _ =>
      match dirtyData w with
      | Some d => deref w d
      | None =>
          match persisted_text w with
          | None => []
          | Some text =>
              if String.eqb text "" then []
              else match decode (config w) text with
                   | Ok data => data
                   | Err _ => []
                   end
          end
      end
  end.

(** The world once a corrupted entry has been discarded. *)
Definition recovered (w : World V) : World V :=
  if is_corrupted w
  then set_storage (Storage_remove (storageKey (config w)) (storage w)) w
  else w.

(** The next write is not refused by the backend. *)
Definition accepts_write (st : Storage) : bool :=
  match raw st, setItem_outcomes st with
  | Some WebStorage, Some _ :: _ => false
  | _, _ => true
  end.

(** An immediate write of [data] evicts nothing. *)
Definition within_item_limit (w : World V) (data : DataRecord V) : bool :=
  match raw (storage w) with
  | Some MapStorage => (length (Object_keys data) <=? maxItemsInMemory (config w))%nat
  | _ => true
  end.

(** An immediate write of [data] reaches the backend as it is. *)
Definition write_goes_through (w : World V) (data : DataRecord V) : bool :=
  is_ok (encode (config w) data) && accepts_write (storage w) && within_item_limit w data.

(** [saveAllData] of [data] does not throw: it is debounced, or the
    immediate write goes through. *)
Definition save_goes_through (w : World V) (data : DataRecord V) : bool :=
  (0 <? debounceMs (config w)) || write_goes_through w data.

(** The timers of the host are those the engine holds. *)
Definition timers_of_engine (w : World V) : list timer :=
  match pendingSave w with Some t => [t] | None => [] end.

(** [e1] is not after [e2], an absent expiry lying after every timestamp. *)
Definition expiry_le (e1 e2 : option Z) : Prop :=
  match e1, e2 with
  | _, None => True
  | None, Some _ => False
  | Some a, Some b => a ≤ b
  end.
End Views.

(** ** [transform/types.ts] *)

Record StorageTransform := mkTransform {
  serialize : string → result string;
  deserialize : string → result string;
}.

(** A transform whose [deserialize] undoes its [serialize]. *)
Definition inverts (forward backward : string → result string) : Prop :=
  ∀ text, ∃ transformed, forward text = Ok transformed ∧ backward transformed = Ok text.

(** ** [transforms/pipeline.ts]: class [TransformPipeline] *)

Module TransformPipeline.
(** [Array.prototype.reduce] with a callback that may throw. *)
Fixpoint reduce {A} (l : list A) (callback : string → A → result string) (current : string)
  : result string :=
  match l with
  | [] => Ok current
  | a :: rest =>
      match callback current a with
      | Ok next => reduce rest callback next
      | Err e => Err e
      end
  end.

Definition reduceRight {A} (l : list A) (callback : string → A → result string)
    (current : string) : result string :=
  reduce (rev l) callback current.

Definition apply (transforms : list StorageTransform) (data : string) : result string :=
  reduce transforms
    (λ current transform,
       match serialize transform current with
       | Ok s => Ok s
       | Err e => Err (Error ("Transform pipeline failed: " +:+ err_message e))
       end)
    data.

Definition reverse (transforms : list StorageTransform) (data : string) : result string :=
  reduceRight transforms
    (λ current transform,
       match deserialize transform current with
       | Ok s => Ok s
       | Err e => Err (Error ("Transform pipeline reversal failed: " +:+ err_message e))
       end)
    data.

Definition hasTransforms (transforms : list StorageTransform) : bool :=
  (0 <? length transforms)%nat.
End TransformPipeline.

(** ** [transform/transform-handler.ts] and [transform/transform-chain.ts]

    Handlers are objects with mutable [nextHandler] and [prevHandler]
    fields; they live in a heap of their own ([Handlers]) and a chain holds
    references to its head and tail.  [serialize] and [deserialize] follow
    the pointers, so they take the number of nested calls the stack allows
    ([None]: the calls did not return within it). *)

Module TransformChain.
Record TransformHandler := mkHandler {
  process : string → result string;
  reverseProcess : string → result string;
  nextHandler : option ref;
  prevHandler : option ref;
}.

Definition Handlers := list TransformHandler.

Definition with_next (next : option ref) (n : TransformHandler) : TransformHandler :=
  mkHandler (process n) (reverseProcess n) next (prevHandler n).
Definition with_prev (prev : option ref) (n : TransformHandler) : TransformHandler :=
  mkHandler (process n) (reverseProcess n) (nextHandler n) prev.

(** [this.setNext(handler)] *)
Definition setNext (this handler : ref) (h : Handlers) : Handlers :=
  alter (with_prev (Some this)) handler (alter (with_next (Some handler)) this h).

Definition dangling : js_error := mkError TypeError "Cannot read properties of undefined".

(** [this.serialize(data)] *)
Fixpoint handler_serialize (stack : nat) (h : Handlers) (this : ref) (data : string)
  : option (result string) :=
  match stack with
  | O => None
  | S stack' =>
      match h !! this with
      | None => Some (Err dangling)
      | Some node =>
          match process node data with
          | Err e => Some (Err e)
          | Ok result =>
              match nextHandler node with
              | Some next => handler_serialize stack' h next result
              | None => Some (Ok result)
              end
          end
      end
  end.

(** [this.deserialize(data)] *)
Fixpoint handler_deserialize (stack : nat) (h : Handlers) (this : ref) (data : string)
  : option (result string) :=
  match stack with
  | O => None
  | S stack' =>
      match h !! this with
      | None => Some (Err dangling)
      | Some node =>
          match reverseProcess node data with
          | Err e => Some (Err e)
          | Ok result =>
              match prevHandler node with
              | Some prev => handler_deserialize stack' h prev result
              | None => Some (Ok result)
              end
          end
      end
  end.

(** [new InlineTransformHandler(transform)] *)
Definition InlineTransformHandler (transform : StorageTransform) : TransformHandler :=
  mkHandler (serialize transform) (deserialize transform) None None.

Record TransformChain := mkTransformChain {
  head : option ref;
  tail : option ref;
}.

(** An element of the array given to [from]: a handler object or a plain
    transform. *)
Inductive handler_arg :=
  | Handler (node : ref)
  | Transform (transform : StorageTransform).

(** [handlers.map(h => h instanceof TransformHandler ? h : new InlineTransformHandler(h))] *)
Fixpoint normalize (handlers : list handler_arg) (h : Handlers) : list ref * Handlers :=
  match handlers with
  | [] => ([], h)
  | Handler node :: rest =>
      let (nodes, h') := normalize rest h in (node :: nodes, h')
  | Transform transform :: rest =>
      let (nodes, h') := normalize rest (h ++ [InlineTransformHandler transform])%list in
      (length h :: nodes, h')
  end.

(** The loop that links [nodes[i]] to [nodes[i + 1]]. *)
Fixpoint link (nodes : list ref) (h : Handlers) : Handlers :=
  match nodes with
  | current :: rest =>
      match rest with
      | next :: _ => link rest (setNext current next h)
      | [] => h
      end
  | [] => h
  end.

(** [TransformChain.from(handlers)] *)
Definition from (handlers : list handler_arg) (h : Handlers) : TransformChain * Handlers :=
  match handlers with
  | [] => (mkTransformChain None None, h)
  | _ =>
      let (nodes, h') := normalize handlers h in
      (mkTransformChain (List.head nodes) (last nodes), link nodes h')
  end.

(** [chain.apply(data)] *)
Definition apply (stack : nat) (h : Handlers) (chain : TransformChain) (data : string)
  : option (result string) :=
  match head chain with
  | None => Some (Ok data)
  | Some first => handler_serialize stack h first data
  end.

(** [chain.reverse(data)] *)
Definition reverse (stack : nat) (h : Handlers) (chain : TransformChain) (data : string)
  : option (result string) :=
  match tail chain with
  | None => Some (Ok data)
  | Some final => handler_deserialize stack h final data
  end.

Definition hasTransforms (chain : TransformChain) : bool :=
  match head chain with Some _ => true | None => false end.
End TransformChain.

(** ** [core/vault.ts]: the earlier engine

    The earlier [StorageVault] reads through a [StorageBackend] and a
    [TransformPipeline], and its [getAllData] hands out the dirty buffer
    frozen.  Objects therefore carry a [frozen] flag here, and an assignment
    to a frozen object throws (class bodies are strict code). *)

Module Legacy.
Record Obj (V : Type) := mkObj { props : DataRecord V; frozen : bool }.
Arguments mkObj {V} props frozen.
Arguments props {V} o.
Arguments frozen {V} o.

Record World (V : Type) := mkWorld {
  storageKey : string;
  transformPipeline : list StorageTransform;
  dirtyData : option ref;
  backend : Storage;
  heap : list (Obj V);
}.
Arguments mkWorld {V}.
Arguments storageKey {V} w.
Arguments transformPipeline {V} w.
Arguments dirtyData {V} w.
Arguments backend {V} w.
Arguments heap {V} w.

Section Engine.
Context {V : Type} `{!JSON V}.
Local Abbreviation M := (Eff (World V)).

Definition set_heap (h : list (Obj V)) (w : World V) : World V :=
  mkWorld (storageKey w) (transformPipeline w) (dirtyData w) (backend w) h.
Definition set_backend (st : Storage) (w : World V) : World V :=
  mkWorld (storageKey w) (transformPipeline w) (dirtyData w) st (heap w).

Definition new_object (data : DataRecord V) : M ref :=
  λ w, (Ok (length (heap w)), set_heap (heap w ++ [mkObj data false]) w).

(** [Object.freeze(obj)] *)
Definition Object_freeze (obj : ref) : M ref :=
  modify (λ w, set_heap (alter (λ o, mkObj (props o) true) obj (heap w)) w) ;;
  ret obj.

(** [data[key] = item], which throws a [TypeError] on a frozen object (the
    wording of its message is the engine's own). *)
Definition assign (data : ref) (key : string) (item : StoredData V) : M unit :=
  λ w, match heap w !! data with
       | Some o =>
           if frozen o then
             (Err (mkError TypeError "Cannot add property, object is not extensible"), w)
           else
             (Ok tt, set_heap (<[data := mkObj (set_prop key item (props o)) false]> (heap w)) w)
       | None => (Ok tt, w)
       end.

(** [getAllData()] *)
Definition getAllData : M ref :=
  storage <- gets (λ w, raw (backend w)) ;;
  match storage with
  | None => new_object []
  | Some _ =>
      dirty <- gets dirtyData ;;
      match dirty with
      | Some d =>
          (* return Object.freeze(this.dirtyData ?? {}) *)
          Object_freeze d
      | None =>
          key <- gets storageKey ;;
          transforms <- gets transformPipeline ;;
          try_catch
            (dataStr <- gets (λ w, Storage_read key (backend w)) ;;
             match dataStr with
             | None => new_object []
             | Some str =>
                 if String.eqb str "" then new_object []
                 else
                   deserializedStr <- lift (TransformPipeline.reverse transforms str) ;;
                   parsed <- lift (JSON_parse deserializedStr) ;;
                   if negb (isValidDataRecord parsed) then
                     throw (Error "Invalid storage data structure")
                   else new_object (as_DataRecord parsed)
             end)
            (λ _,
               try_catch
                 (modify (λ w, set_backend (Storage_remove key (backend w)) w))
                 (λ _, ret tt) ;;
               new_object [])
      end
  end.

(** The first statements of [setItem] after its checks:
    [const data = this.getAllData(); data[key] = { value, expiry };] *)
Definition setItem_stores (key : string) (value : V) (expiry : option Z) : M ref :=
  data <- getAllData ;;
  assign data key (mkStoredData value expiry) ;;
  ret data.
End Engine.
End Legacy.

(** ** The registry of engines: the static side of [StorageVault] *)

Module Registry.
(** [storage/storage-type.ts] *)
Inductive StorageTypeValue := Local | Session | InMemory.

Definition StorageType_text (t : StorageTypeValue) : string :=
  match t with
  | Local => "local"
  | Session => "session"
  | InMemory => "in-memory"
  end.

Definition DEFAULT_STORAGE_TYPE : StorageTypeValue := Local.

Section Instances.
Context {Options Instance : Type}.

(** [new StorageVault({...})], and [instance.flush(); instance.cleanup()],
    which changes the instance and may throw. *)
Variable construct : StorageTypeValue → string → Options → Instance.
Variable release : Instance → result unit * Instance.

(** The options the registry looks at, and the rest. *)
Record StorageVaultOptions := mkOptions {
  storageType : option StorageTypeValue;
  storageKey : option string;
  others : Options;
}.

(** A [Map<string, StorageVault>]: the entries in insertion order. *)
Definition Instances : Type := list (string * Instance).

Fixpoint Map_get (key : string) (m : Instances) : option Instance :=
  match m with
  | [] => None
  | (k, instance) :: rest => if String.eqb k key then Some instance else Map_get key rest
  end.

Definition Map_has (key : string) (m : Instances) : bool :=
  match Map_get key m with Some _ => true | None => false end.

Fixpoint Map_set (key : string) (instance : Instance) (m : Instances) : Instances :=
  match m with
  | [] => [(key, instance)]
  | (k, old) :: rest =>
      if String.eqb k key then (k, instance) :: rest
      else (k, old) :: Map_set key instance rest
  end.

Fixpoint Map_delete (key : string) (m : Instances) : Instances :=
  match m with
  | [] => []
  | (k, instance) :: rest =>
      if String.eqb k key then Map_delete key rest
      else (k, instance) :: Map_delete key rest
  end.

(** [`${storageType}-${storageKey}`] *)
Definition instance_key (storageType : StorageTypeValue) (storageKey : string) : string :=
  StorageType_text storageType +:+ "-" +:+ storageKey.

Definition key_of (options : StorageVaultOptions) : string :=
  instance_key (default DEFAULT_STORAGE_TYPE (storageType options))
               (default DEFAULT_STORAGE_KEY (storageKey options)).

(** [StorageVault.getInstance(options)] *)
Definition getInstance (options : StorageVaultOptions) : Eff Instances Instance :=
  let storageType := default DEFAULT_STORAGE_TYPE (storageType options) in
  let storageKey := default DEFAULT_STORAGE_KEY (storageKey options) in
  let key := instance_key storageType storageKey in
  has <- gets (Map_has key) ;;
  (if negb has
   then modify (Map_set key (construct storageType storageKey (others options)))
   else ret tt) ;;
  instance <- gets (Map_get key) ;;
  match instance with
  | None => throw (Error ("Failed to create or retrieve StorageVault instance: " +:+ key))
  | Some instance => ret instance
  end.

(** [instance.flush(); instance.cleanup()] on the instance registered under [key]. *)
Definition released (key : string) (instance : Instance) : Eff Instances unit :=
  λ m, match release instance with
       | (r, instance') => (r, Map_set key instance' m)
       end.

(** [StorageVault.disposeInstance(options)] *)
Definition disposeInstance (options : StorageVaultOptions) : Eff Instances bool :=
  let key := key_of options in
  instance <- gets (Map_get key) ;;
  (match instance with
   | Some instance => released key instance
   | None => ret tt
   end) ;;
  existed <- gets (Map_has key) ;;
  modify (Map_delete key) ;;
  ret existed.

(** [StorageVault.clearAllInstances()] *)
Definition clearAllInstances : Eff Instances unit :=
  entries <- gets (λ m, m) ;;
  for_each entries (λ entry, released entry.1 entry.2) ;;
  modify (λ _, []).
End Instances.
End Registry.

(** ** A JSON implementation for integer values

    [IntJSON] serializes record sets whose values are integers, and whose
    keys need no escaping, the way [JSON.stringify] does, and reads that
    text back; like [JSON.parse] it refuses text that is not JSON, and tells
    arrays, [null] and primitives from objects.  It is the instance the
    examples run on; the facts are stated for every instance. *)

Module IntJSON.
Definition quoted (s : string) : string := dquote +:+ s +:+ dquote.

Definition stringify_expiry (e : option Z) : string :=
  match e with Some z => pretty z | None => "null" end.

Definition stringify_item (item : StoredData Z) : string :=
  "{" +:+ quoted "value" +:+ ":" +:+ pretty (value item) +:+ "," +:+
  quoted "expiry" +:+ ":" +:+ stringify_expiry (expiry item) +:+ "}".

Fixpoint stringify_entries (data : DataRecord Z) : string :=
  match data with
  | [] => ""
  | [(k, item)] => quoted k +:+ ":" +:+ stringify_item item
  | (k, item) :: rest =>
      quoted k +:+ ":" +:+ stringify_item item +:+ "," +:+ stringify_entries rest
  end.

Definition stringify (data : DataRecord Z) : result string :=
  Ok ("{" +:+ stringify_entries data +:+ "}").

(** Reading: each parser takes the text and gives the value read and the
    text that is left. *)
Definition expect (token s : string) : option string :=
  if String.prefix token s
  then Some (String.substring (String.length token) (String.length s - String.length token) s)
  else None.

Definition digit_of (c : ascii) : option Z :=
  let n := nat_of_ascii c in
  if ((48 <=? n) && (n <=? 57))%nat then Some (Z.of_nat (n - 48)) else None.

Fixpoint read_digits (s : string) (acc : Z) : Z * string :=
  match s with
  | String c s' =>
      match digit_of c with
      | Some d => read_digits s' (10 * acc + d)
      | None => (acc, s)
      end
  | EmptyString => (acc, s)
  end.

Definition read_natural (s : string) : option (Z * string) :=
  match s with
  | String c _ =>
      match digit_of c with
      | Some _ => Some (read_digits s 0)
      | None => None
      end
  | EmptyString => None
  end.

Definition read_integer (s : string) : option (Z * string) :=
  match s with
  | String "-" s' =>
      match read_natural s' with
      | Some (z, rest) => Some (- z, rest)
      | None => None
      end
  | _ => read_natural s
  end.

Fixpoint read_until_quote (s : string) : option (string * string) :=
  match s with
  | EmptyString => None
  | String c s' =>
      if Ascii.eqb c "034" then Some ("", s')
      else if Ascii.eqb c "\" then None
      else match read_until_quote s' with
           | Some (k, rest) => Some (String c k, rest)
           | None => None
           end
  end.

Definition read_string (s : string) : option (string * string) :=
  match expect dquote s with
  | Some s' => read_until_quote s'
  | None => None
  end.

Definition read_expiry (s : string) : option (option Z * string) :=
  match expect "null" s with
  | Some rest => Some (None, rest)
  | None =>
      match read_integer s with
      | Some (z, rest) => Some (Some z, rest)
      | None => None
      end
  end.

Definition read_item (s : string) : option (StoredData Z * string) :=
  s ← expect ("{" +:+ quoted "value" +:+ ":") s;
  '(v, s) ← read_integer s;
  s ← expect ("," +:+ quoted "expiry" +:+ ":") s;
  '(e, s) ← read_expiry s;
  s ← expect "}" s;
  Some (mkStoredData v e, s).

Definition read_entry (s : string) : option ((string * StoredData Z) * string) :=
  '(k, s) ← read_string s;
  s ← expect ":" s;
  '(item, s) ← read_item s;
  Some ((k, item), s).

(** The entries after the first, up to the closing brace. *)
Fixpoint read_more_entries (fuel : nat) (s : string) (data : DataRecord Z)
  : option (DataRecord Z) :=
  match fuel with
  | O => None
  | S fuel' =>
      if String.eqb s "}" then Some data
      else
        s ← expect "," s;
        '((k, item), s) ← read_entry s;
        read_more_entries fuel' s (define_prop k item data)
  end.

Definition read_object_text (s : string) : option (DataRecord Z) :=
  s ← expect "{" s;
  if String.eqb s "}" then Some []
  else
    '((k, item), s) ← read_entry s;
    read_more_entries (String.length s) s [(k, item)].

Definition syntax_error : js_error := mkError SyntaxError "Unexpected token in JSON".

Definition parse (s : string) : result (js_value Z) :=
  if String.eqb s "null" then Ok JsNull
  else if String.eqb s "true" || String.eqb s "false" then Ok JsBoolean
  else if String.eqb s "[]" then Ok JsArray
  else
    match read_integer s with
    | Some (_, "") => Ok JsNumber
    | _ =>
        match read_string s with
        | Some (_, "") => Ok JsString
        | _ =>
            match read_object_text s with
            | Some data => Ok (JsObject data)
            | None => Err syntax_error
            end
        end
    end.
End IntJSON.

#[export] Instance IntJSON_JSON : JSON Z :=
  {| JSON_stringify := IntJSON.stringify; JSON_parse := IntJSON.parse |}.

(** ** Worlds for the examples *)

Definition identity_chain : ITransformChain := mkChain Ok Ok.

Definition demo_config (debounce : Z) (maxItems : nat) : Config :=
  mkConfig DEFAULT_STORAGE_KEY DEFAULT_MAX_SIZE_BYTES maxItems debounce identity_chain.

(** An engine just constructed over a given backend. *)
Definition new_vault {V} (cfg : Config) (st : Storage) (now : Z) : World V :=
  mkWorld cfg false None None st [] [] 1%positive now.

Definition backend_holding (kind : RawStorage) (text : option string)
    (outcomes : list (option js_error)) : Storage :=
  mkStorage (Some kind)
            (match text with
             | Some s => {[ DEFAULT_STORAGE_KEY := s ]}
             | None => ∅
             end)
            outcomes [].

Definition QuotaExceededError : js_error :=
  mkError (DOMException "QuotaExceededError") "The quota has been exceeded.".

(** * What the statements speak of

    The definitions from here to the facts are not code of the library: they
    name the states, the views and the sample worlds that the lemmas and
    theorems are stated with. *)

Section Keeping.
Context {S : Type}.

(** A property of the state that a computation keeps. *)
Definition keeps {A} (P : S → Prop) (m : Eff S A) : Prop :=
  ∀ w, P w → P (m w).2.
End Keeping.

Section Order.
Context {A : Type} (compare : A → A → number).

(** The order the comparator stands for. *)
Definition before (x y : A) : Prop := comparator_keeps_order (compare x y) = true.
End Order.

Section Statements.
Context {V : Type} `{!JSON V}.
Implicit Types (w : World V) (props : DataRecord V) (data : ref) (key : string).

(** What [saveAllData] leaves when it is debounced. *)
Definition debounced (data : ref) (w : World V) : World V :=
  set_pendingSave (Some (next_timer w))
    (set_timers
       (next_timer w ::
          match pendingSave w with
          | Some t => List.filter (λ t', negb (Pos.eqb t' t)) (timers w)
          | None => timers w
          end)
       (Pos.succ (next_timer w))
       (set_dirtyData (Some data) w)).

(** The backend after a write it accepts. *)
Definition stored (key text : string) (st : Storage) : Storage :=
  (Storage_write key text st).2.

(** The world in which the copy that [getAllData] made has lost [key]. *)
Definition purged (key : string) (w : World V) : World V :=
  set_heap (heap w ++ [delete_prop key (current_data w)]) w.

(** The world after a save that goes through. *)
Definition after_save (data : ref) (w : World V) : World V :=
  if 0 <? debounceMs (config w) then debounced data w
  else
    match raw (storage w), encode (config w) (deref w data) with
    | Some _, Ok text => set_storage (stored (storageKey (config w)) text (storage w)) w
    | _, _ => w
    end.

(** The keys [getAllKeys] collects from a record set. *)
Definition live_keys (now : Z) (props : DataRecord V) : list string :=
  foldl (λ validKeys key,
           match get_prop key props with
           | Some item => if is_live now item then validKeys ++ [key] else validKeys
           | None => validKeys
           end) [] (Object_keys props).

(** The entries [getAll] collects from a record set. *)
Definition live_entries (now : Z) (props : DataRecord V) : list (string * V) :=
  foldl (λ result key,
           match get_prop key props with
           | Some item =>
               if is_live now item then set_prop key (value item) result else result
           | None => result
           end) [] (Object_keys props).

(** What is saved can be read back: the save is debounced (the dirty
    buffer is read), or no buffer shadows the backend and the persisted
    text decodes to the record set it was made from. *)
Definition reads_back (w : World V) (props : DataRecord V) : Prop :=
  0 < debounceMs (config w) ∨
  (dirtyData w = None ∧
   ∀ text, encode (config w) props = Ok text → decode (config w) text = Ok props).

(** The expiry [setItem] stores for a [ttl] argument. *)
Definition expiry_for (now : Z) (ttl : option number) : option Z :=
  match ttl with Some t => expiry_after now t | None => None end.

(** A [ttl] argument that makes [setItem] store: absent, or finite and positive. *)
Definition stores (ttl : option number) : Prop :=
  ttl = None ∨ ∃ z, ttl = Some (Finite z) ∧ 0 < z.

(** The world in which the copy that [getAllData] made has got [key]. *)
Definition assigned (key : string) (item : StoredData V) (w : World V) : World V :=
  set_heap (heap w ++ [set_prop key item (current_data w)]) (recovered w).

(** A persisted text that fails the reversal of the transforms, the JSON
    decoding, or the shape validation (an array, [null], a primitive). *)
Definition garbage (cfg : Config) (text : string) : Prop :=
  (∃ e, chain_reverse (transformChain cfg) text = Err e) ∨
  (∃ s e, chain_reverse (transformChain cfg) text = Ok s ∧ JSON_parse (V := V) s = Err e) ∨
  (∃ s parsed,
     chain_reverse (transformChain cfg) text = Ok s ∧ JSON_parse (V := V) s = Ok parsed ∧
     parsed ∈ [JsArray; JsNull; JsString; JsNumber; JsBoolean]).

(** The world after a read of a backend whose text is unusable. *)
Definition emptied (w : World V) : World V :=
  set_heap (heap w ++ [[]]) (recovered w).

(** The record set without the given keys. *)
Definition evict (keys : list string) (props : DataRecord V) : DataRecord V :=
  foldl (λ d k, delete_prop k d) props keys.

(** The expiry stored under a key, if any. *)
Definition stored_expiry (props : DataRecord V) (key : string) : option Z :=
  match get_prop key props with Some item => expiry item | None => None end.

(** What [enforceItemLimit] leaves of a record set. *)
Definition kept_after_limit (maxItems : nat) (props : DataRecord V) : DataRecord V :=
  let keys := Object_keys props in
  if (length keys <=? maxItems)%nat then props
  else evict (take (length keys - maxItems)
                (Array_sort (compare_expiry props) keys)) props.

(** What is saved is read back as it was: the save is debounced, or the
    backend is read and the text of [props] is not empty and decodes to
    [props]. *)
Definition reads_back_as_written (w : World V) (props : DataRecord V) : Prop :=
  0 < debounceMs (config w) ∨
  (dirtyData w = None ∧
   ∀ text, encode (config w) props = Ok text →
           text ≠ "" ∧ decode (config w) text = Ok props).

(** The expiry [extendTTL] gives an item: the old one moved by [delta], or
    [delta] from now when the item had none. *)
Definition extended_expiry (now : Z) (item : StoredData V) (delta : Z) : Z :=
  match expiry item with
  | Some e => e + delta
  | None => now + delta
  end.

(** The sum [extendTTL] computes is the sum of the integers: the amount,
    the timestamp it is added to and the sum are safe integers, where the
    addition of numbers does not round. *)
Definition extends_exactly (now : Z) (item : StoredData V) (delta : Z) : Prop :=
  Number_isSafeInteger delta = true ∧
  Number_isSafeInteger (default now (expiry item)) = true ∧
  Number_isSafeInteger (extended_expiry now item delta) = true.


(** A property of the engine that the objects and the backend have no part
    in, and one that the value of [isCleaningUp] has no part in. *)
Definition ignores_heap_storage (P : World V → Prop) : Prop :=
  ∀ w h st, P w → P (set_storage st (set_heap h w)).

Definition ignores_flag (P : World V → Prop) : Prop :=
  ∀ w b, P w → P (set_isCleaningUp b w).

(** The state an engine is in between two calls: the host holds no timer
    but the one in [pendingSave], [isCleaningUp] is unset, and an engine
    that does not debounce has no dirty buffer. *)
Definition settled (w : World V) : Prop :=
  timers w = timers_of_engine w ∧
  isCleaningUp w = false ∧
  (debounceMs (config w) ≤ 0 → dirtyData w = None).

(** The part of [settled] that [isCleaningUp] has no part in. *)
Definition scheduled_as_held (w : World V) : Prop :=
  timers w = timers_of_engine w ∧ (debounceMs (config w) ≤ 0 → dirtyData w = None).

(** The world once a pending save has been cancelled. *)
Definition cancelled (w : World V) : World V :=
  match pendingSave w with
  | Some t =>
      set_pendingSave None
        (set_timers (List.filter (λ t', negb (Pos.eqb t' t)) (timers w)) (next_timer w) w)
  | None => w
  end.

(** The item under [key] has expired: the test of the loop. *)
Definition is_expired_key (now : Z) (props : DataRecord V) (key : string) : bool :=
  match get_prop key props with
  | Some item => isExpired now (expiry item)
  | None => false
  end.

(** The keys whose item has expired, in enumeration order. *)
Definition expired_keys (now : Z) (props : DataRecord V) : list string :=
  List.filter (is_expired_key now props) (Object_keys props).

(** The record set without its expired items. *)
Definition without_expired (now : Z) (props : DataRecord V) : DataRecord V :=
  evict (expired_keys now props) props.

(** The body of the loop of [cleanupExpiredItems]. *)
Definition cleanup_step (now : Z) (data : ref) (key : string) (removedCount : nat)
    : M V nat :=
  current <- read_object data ;;
  match get_prop key current with
  | Some item =>
      match expiry item with
      | Some e =>
          if e <? now then
            update_object data (delete_prop key) ;;
            ret (S removedCount)
          else ret removedCount
      | None => ret removedCount
      end
  | None => ret removedCount
  end.

(** The world [cleanupExpiredItems] hands to the save: a copy of the
    record set, without its expired items. *)
Definition swept (w : World V) : World V :=
  set_heap (heap w ++ [without_expired (clock w) (current_data w)]) (recovered w).

(** The guarded part of [saveAllDataImmediate]: serialize, transform, write. *)
Definition write_attempt (key : string) (chain : ITransformChain) (data : ref)
    : M V unit :=
  props <- read_object data ;;
  dataStr <- lift (JSON_stringify props) ;;
  transformedStr <- lift (chain_apply chain dataStr) ;;
  storage_write key transformedStr.

(** The backend refuses the next write with [e]. *)
Definition refuses (e : js_error) (st : Storage) : Prop :=
  raw st = Some WebStorage ∧ ∃ later, setItem_outcomes st = Some e :: later.

(** The backend after a refused write. *)
Definition refused (st : Storage) : Storage :=
  mkStorage (raw st) (entries st) (tail (setItem_outcomes st)) (written st).

(** The message [handleSaveError] gives an error that is not a quota error. *)
Definition save_error_message (e : js_error) : string :=
  if isCircularReferenceError e
  then "Cannot store data with circular references. Serialize manually before storing."
  else "Failed to save to storage: " +:+ err_message e.

(** A cleanup is running and the backend will refuse the next write. *)
Definition blocked (trace : list (string * string)) (w : World V) : Prop :=
  isCleaningUp w = true ∧ (∃ e, refuses e (storage w)) ∧ written (storage w) = trace.

(** A cleanup is running and no write got through. *)
Definition spent (trace : list (string * string)) (w : World V) : Prop :=
  isCleaningUp w = true ∧ written (storage w) = trace.

(** The computation throws, or leaves the backend refusing. *)
Definition throws_or_blocked {A} (trace : list (string * string)) (m : M V A) : Prop :=
  ∀ w, blocked trace w →
       match m w with
       | (Ok _, w') => blocked trace w'
       | (Err _, w') => spent trace w'
       end.
End Statements.

Section PipelineViews.
Implicit Types (transforms : list StorageTransform) (text : string).

(** The transforms applied in turn, first to last, and undone last to
    first, with the errors as the transforms throw them. *)
Definition serialize_all transforms text : result string :=
  TransformPipeline.reduce transforms (λ current transform, serialize transform current) text.

Definition deserialize_all transforms text : result string :=
  TransformPipeline.reduceRight transforms
    (λ current transform, deserialize transform current) text.
End PipelineViews.

Section ChainViews.
Import TransformChain.
Implicit Types (h : Handlers) (transforms : list StorageTransform) (text : string).

(** The node at place [i] of [n] consecutive nodes from [first] on, once
    they are linked. *)
Definition linked_node (first n i : nat) (node : TransformHandler) : TransformHandler :=
  mkHandler (process node) (reverseProcess node)
    (if (S i <? n)%nat then Some (first + S i)%nat else nextHandler node)
    (if (0 <? i)%nat then Some (first + i - 1)%nat else prevHandler node).

(** The handlers of a chain built from plain transforms. *)
Definition chained (transforms : list StorageTransform) h : Handlers :=
  link (seq (length h) (length transforms)) (h ++ map InlineTransformHandler transforms).
End ChainViews.

(** Every character of the string is white space. *)
Fixpoint blank (s : string) : bool :=
  match s with
  | EmptyString => true
  | String c rest => is_whitespace c && blank rest
  end.

Section RegistryViews.
Context {Instance : Type} (release : Instance → result unit * Instance).

(** The entries once each engine has been flushed and cleaned up. *)
Definition all_released (m : Registry.Instances (Instance := Instance))
    : Registry.Instances (Instance := Instance) :=
  map (λ entry, (entry.1, (release entry.2).2)) m.
End RegistryViews.

(** ** More worlds for the examples *)

(** A backend in which ["a"] expired at 5 and ["b"] never expires, read at
    clock 10 by an engine that writes at once. *)
Definition stale_text : string :=
  "{" +:+ IntJSON.quoted "a" +:+ ":" +:+ IntJSON.stringify_item (mkStoredData 1 (Some 5)) +:+
  "," +:+ IntJSON.quoted "b" +:+ ":" +:+ IntJSON.stringify_item (mkStoredData 2 None) +:+ "}".

Definition stale_vault (debounce : Z) : World Z :=
  new_vault (demo_config debounce 1000) (backend_holding WebStorage (Some stale_text) []) 10.

(** An engine over an empty backend. *)
Definition empty_vault (debounce : Z) : World Z :=
  new_vault (demo_config debounce 1000) (backend_holding WebStorage None []) 10.

(** An engine over a backend that holds [text] under its key. *)
Definition vault_over (text : string) (debounce : Z) : World Z :=
  new_vault (demo_config debounce 1000) (backend_holding WebStorage (Some text) []) 10.

(** A backend that holds an expired item and refuses the next write with a
    quota error, once. *)
Definition full_vault (debounce : Z) : World Z :=
  new_vault (demo_config debounce 1000)
            (backend_holding WebStorage (Some stale_text) [Some QuotaExceededError]) 10.


(** The text [IntJSON] writes for a record set. *)
Definition text_of (data : DataRecord Z) : string :=
  "{" +:+ IntJSON.stringify_entries data +:+ "}".


(** An earlier engine with one buffered item. *)
Definition legacy_vault : Legacy.World Z :=
  Legacy.mkWorld DEFAULT_STORAGE_KEY []
    (Some 0%nat)
    (backend_holding WebStorage None [])
    [Legacy.mkObj [("k", mkStoredData 7 None)] false].

(** A backend whose one item, ["c"], expires at 10, read at clock 10. *)
Definition due_vault (debounce : Z) : World Z :=
  new_vault (demo_config debounce 1000)
    (backend_holding WebStorage
       (Some ("{" +:+ IntJSON.quoted "c" +:+ ":" +:+
              IntJSON.stringify_item (mkStoredData 3 (Some 10)) +:+ "}")) [])
    10.

(** Three items, of which ["c"] expires first and ["b"] never. *)
Definition three_items : DataRecord Z :=
  [("a", mkStoredData 1 (Some 5)); ("b", mkStoredData 2 None); ("c", mkStoredData 3 (Some 1))].

(** An engine over a [Map] that keeps one item, holding one object. *)
Definition map_vault : World Z :=
  set_heap [three_items]
    (new_vault (demo_config 0 1) (backend_holding MapStorage None []) 10).

(** An engine with a save of ["k"] pending. *)
Definition pending_vault : World Z := (setItem "k" 7 None (empty_vault 100)).2.

(** An engine with a save of ["k"] pending, over a backend that has been
    given an array as its text since. *)
Definition shadowed_vault : World Z :=
  set_storage (backend_holding WebStorage (Some "[]") []) pending_vault.

(** A transform that puts a character in front and takes it off again. *)
Definition tagged (tag : ascii) : StorageTransform :=
  mkTransform
    (λ s, Ok (String tag s))
    (λ s, match s with
          | String c rest =>
              if Ascii.eqb c tag then Ok rest else Err (Error "unexpected tag")
          | EmptyString => Err (Error "unexpected tag")
          end).

(** * Facts *)

(** ** Properties of objects *)

Section PropertyFacts.
Context {A : Type}.
Implicit Types (data : list (string * A)) (item : A) (key : string).

Lemma get_prop_replace_prop key item data :
  hasOwnProperty key data = true → get_prop key (replace_prop key item data) = Some item.
Proof.
  unfold hasOwnProperty. induction data as [|[k old] rest IH]; simpl; [done|].
  destruct (String.eqb k key) eqn:E; simpl; rewrite E; auto.
Qed.

Lemma get_prop_add_prop key item data :
  hasOwnProperty key data = false → get_prop key (add_prop key item data) = Some item.
Proof.
  unfold hasOwnProperty. induction data as [|[k old] rest IH]; simpl.
  - by rewrite String.eqb_refl.
  - destruct (String.eqb k key) eqn:E; [done|]. intros Hrest.
    destruct (enumerated_before key k); simpl.
    + by rewrite String.eqb_refl.
    + rewrite E. auto.
Qed.

Lemma get_prop_replace_prop_ne key key' item data :
  key ≠ key' → get_prop key' (replace_prop key item data) = get_prop key' data.
Proof.
  intros Hne. induction data as [|[k old] rest IH]; simpl; [done|].
  destruct (String.eqb k key) eqn:E; simpl.
  - apply String.eqb_eq in E. subst k.
    by rewrite (proj2 (String.eqb_neq _ _) Hne).
  - destruct (String.eqb k key'); auto.
Qed.

Lemma get_prop_add_prop_ne key key' item data :
  key ≠ key' → get_prop key' (add_prop key item data) = get_prop key' data.
Proof.
  intros Hne. induction data as [|[k old] rest IH]; simpl.
  - by rewrite (proj2 (String.eqb_neq _ _) Hne).
  - destruct (enumerated_before key k); simpl.
    + by rewrite (proj2 (String.eqb_neq _ _) Hne).
    + destruct (String.eqb k key'); auto.
Qed.

Lemma get_prop_define_prop key item data :
  get_prop key (define_prop key item data) = Some item.
Proof.
  unfold define_prop. destruct (hasOwnProperty key data) eqn:Hown.
  - by apply get_prop_replace_prop.
  - by apply get_prop_add_prop.
Qed.

Lemma get_prop_define_prop_ne key key' item data :
  key ≠ key' → get_prop key' (define_prop key item data) = get_prop key' data.
Proof.
  intros Hne. unfold define_prop. destruct (hasOwnProperty key data).
  - by apply get_prop_replace_prop_ne.
  - by apply get_prop_add_prop_ne.
Qed.

Lemma get_prop_set_prop key item data :
  key ≠ "__proto__" → get_prop key (set_prop key item data) = Some item.
Proof.
  intros Hne. unfold set_prop. rewrite (proj2 (String.eqb_neq _ _) Hne). simpl.
  apply get_prop_define_prop.
Qed.

Lemma get_prop_set_prop_ne key key' item data :
  key ≠ key' → get_prop key' (set_prop key item data) = get_prop key' data.
Proof.
  intros Hne. unfold set_prop.
  destruct (String.eqb key "__proto__" && negb (hasOwnProperty key data)); [done|].
  by apply get_prop_define_prop_ne.
Qed.

Lemma Object_keys_replace_prop key item data :
  Object_keys (replace_prop key item data) = Object_keys data.
Proof.
  unfold Object_keys. induction data as [|[k old] rest IH]; simpl; [done|].
  destruct (String.eqb k key); simpl; [done|]. by rewrite IH.
Qed.

(** Assigning to a property the object owns: the property holds the new
    value, at its place, and the other properties are as they were. *)
Lemma set_prop_owned key item old data :
  key ≠ "__proto__" →
  get_prop key data = Some old →
  get_prop key (set_prop key item data) = Some item ∧
  Object_keys (set_prop key item data) = Object_keys data ∧
  ∀ key', key' ≠ key → get_prop key' (set_prop key item data) = get_prop key' data.
Proof.
  intros Hne Hold. split; [by apply get_prop_set_prop|]. split.
  - unfold set_prop, define_prop, hasOwnProperty. rewrite Hold.
    rewrite (proj2 (String.eqb_neq _ _) Hne). simpl.
    apply Object_keys_replace_prop.
  - intros key' Hne'. by apply get_prop_set_prop_ne.
Qed.

Lemma set_prop_nil key item :
  key ≠ "__proto__" → set_prop key item [] = [(key, item)].
Proof. intros Hne. unfold set_prop. by rewrite (proj2 (String.eqb_neq _ _) Hne). Qed.

(** An assignment to [__proto__] never makes a property of that name. *)
Lemma set_prop_no_proto key item data :
  get_prop "__proto__" data = None → get_prop "__proto__" (set_prop key item data) = None.
Proof.
  intros Hnone. destruct (decide (key = "__proto__")) as [->|Hne].
  - unfold set_prop, hasOwnProperty. by rewrite Hnone.
  - by rewrite get_prop_set_prop_ne.
Qed.




Lemma get_prop_delete_prop key data :
  get_prop key (delete_prop key data) = None.
Proof.
  induction data as [|[k old] rest IH]; simpl; auto.
  destruct (String.eqb k key) eqn:E; simpl; auto. by rewrite E.
Qed.

Lemma get_prop_delete_prop_ne key key' data :
  key ≠ key' → get_prop key' (delete_prop key data) = get_prop key' data.
Proof.
  intros Hne. induction data as [|[k old] rest IH]; simpl; auto.
  destruct (String.eqb k key) eqn:E; simpl.
  - apply String.eqb_eq in E. subst k.
    destruct (String.eqb key key') eqn:E'; auto.
    apply String.eqb_eq in E'. contradiction.
  - destruct (String.eqb k key'); auto.
Qed.

Lemma get_prop_Some_elem key item data :
  get_prop key data = Some item → (key, item) ∈ data.
Proof.
  induction data as [|[k old] rest IH]; simpl; [done|].
  destruct (String.eqb k key) eqn:E.
  - apply String.eqb_eq in E. intros [= ->]. subst. apply list_elem_of_here.
  - intros H. apply list_elem_of_further; auto.
Qed.

Lemma get_prop_None_keys key data :
  get_prop key data = None ↔ key ∉ Object_keys data.
Proof.
  unfold Object_keys. induction data as [|[k old] rest IH]; simpl.
  - split; [intros _; apply not_elem_of_nil | done].
  - destruct (String.eqb k key) eqn:E.
    + apply String.eqb_eq in E. subst. split; [done|].
      intros H. exfalso. apply H. apply list_elem_of_here.
    + apply String.eqb_neq in E. rewrite IH, not_elem_of_cons.
      split; [by intros ?; split; [congruence|] | by intros [_ ?]].
Qed.

Lemma get_prop_elem_NoDup key item data :
  NoDup (Object_keys data) → (key, item) ∈ data → get_prop key data = Some item.
Proof.
  unfold Object_keys. induction data as [|[k old] rest IH]; simpl.
  - intros _ H. by apply elem_of_nil in H.
  - intros Hnd Hin. apply NoDup_cons in Hnd as [Hk Hnd].
    apply elem_of_cons in Hin as [[= -> ->]|Hin].
    + by rewrite String.eqb_refl.
    + destruct (String.eqb k key) eqn:E; auto.
      apply String.eqb_eq in E. subst. exfalso. apply Hk.
      apply (list_elem_of_fmap_2 fst) in Hin. exact Hin.
Qed.



Lemma has_prop_inherited key data : inherited key = true → has_prop key data = true.
Proof. unfold has_prop. intros ->. apply orb_true_r. Qed.

Lemma delete_prop_absent key data :
  get_prop key data = None → delete_prop key data = data.
Proof.
  induction data as [|[k old] rest IH]; simpl; [done|].
  destruct (String.eqb k key); [done|]. intros Hrest. by rewrite IH.
Qed.

Lemma Object_keys_delete_prop key data :
  Object_keys (delete_prop key data)
  = List.filter (λ k, negb (String.eqb k key)) (Object_keys data).
Proof.
  unfold Object_keys. induction data as [|[k old] rest IH]; simpl; auto.
  destruct (String.eqb k key); simpl; by rewrite IH.
Qed.
End PropertyFacts.

(** ** Running computations *)

Section MonadFacts.
Context {S : Type}.
Implicit Types (w : S) (P : S → Prop).

Lemma bind_ok {A B} {m : Eff S A} {k : A → Eff S B} {w a w'} :
  m w = (Ok a, w') → bind m k w = k a w'.
Proof. unfold bind. by intros ->. Qed.

Lemma bind_err {A B} {m : Eff S A} {k : A → Eff S B} {w e w'} :
  m w = (Err e, w') → bind m k w = (Err e, w').
Proof. unfold bind. by intros ->. Qed.

Lemma try_catch_ok {A} {body : Eff S A} {handler w a w'} :
  body w = (Ok a, w') → try_catch body handler w = (Ok a, w').
Proof. unfold try_catch. by intros ->. Qed.

Lemma try_catch_err {A} {body : Eff S A} {handler w e w'} :
  body w = (Err e, w') → try_catch body handler w = handler e w'.
Proof. unfold try_catch. by intros ->. Qed.

Lemma keeps_ret {A} P (a : A) : keeps P (ret a).
Proof. by intros w. Qed.

Lemma keeps_throw {A} P e : keeps P (@throw S A e).
Proof. by intros w. Qed.

Lemma keeps_lift {A} P (r : result A) : keeps P (lift r).
Proof. by intros w. Qed.

Lemma keeps_gets {A} P (f : S → A) : keeps P (gets f).
Proof. by intros w. Qed.

Lemma keeps_bind {A B} P (m : Eff S A) (k : A → Eff S B) :
  keeps P m → (∀ a, keeps P (k a)) → keeps P (bind m k).
Proof.
  intros Hm Hk w Hw. unfold bind. specialize (Hm w Hw).
  destruct (m w) as [[a|e] w']; simpl in *; auto. by apply Hk.
Qed.

Lemma keeps_try_catch {A} P (body : Eff S A) handler :
  keeps P body → (∀ e, keeps P (handler e)) → keeps P (try_catch body handler).
Proof.
  intros Hm Hk w Hw. unfold try_catch. specialize (Hm w Hw).
  destruct (body w) as [[a|e] w']; simpl in *; auto. by apply Hk.
Qed.

Lemma keeps_for_each {A} P (l : list A) (body : A → Eff S unit) :
  (∀ a, keeps P (body a)) → keeps P (for_each l body).
Proof.
  intros Hb. induction l as [|a l IH]; simpl.
  - apply keeps_ret.
  - apply keeps_bind; auto.
Qed.

Lemma keeps_fold_each {A B} P (l : list A) (acc : B) (body : A → B → Eff S B) :
  (∀ a b, keeps P (body a b)) → keeps P (fold_each l acc body).
Proof.
  intros Hb. revert acc. induction l as [|a l IH]; intros acc; simpl.
  - apply keeps_ret.
  - apply keeps_bind; auto.
Qed.

(** Two continuations that agree on the states [m] can end in. *)
Lemma bind_ext_keeps {A B} P (m : Eff S A) (k1 k2 : A → Eff S B) w :
  P w → keeps P m → (∀ a w', P w' → k1 a w' = k2 a w') →
  bind m k1 w = bind m k2 w.
Proof.
  intros Hw Hm Hk. unfold bind. specialize (Hm w Hw).
  destruct (m w) as [[a|e] w']; simpl in *; auto.
Qed.

Lemma try_catch_ext_keeps {A} P (body : Eff S A) (h1 h2 : js_error → Eff S A) w :
  P w → keeps P body → (∀ e w', P w' → h1 e w' = h2 e w') →
  try_catch body h1 w = try_catch body h2 w.
Proof.
  intros Hw Hm Hk. unfold try_catch. specialize (Hm w Hw).
  destruct (body w) as [[a|e] w']; simpl in *; auto.
Qed.

(** A loop whose body never throws. *)
Lemma for_each_never_throws {A} (l : list A) (body : A → Eff S unit) w :
  (∀ a w, (body a w).1 = Ok tt) → (for_each l body w).1 = Ok tt.
Proof.
  intros Hb. revert w. induction l as [|a l IH]; intros w; simpl; auto.
  unfold bind. specialize (Hb a w). destruct (body a w) as [[[]|e] w']; simpl in *.
  - apply IH.
  - discriminate.
Qed.
End MonadFacts.

(** ** The engine *)

Section VaultFacts.
Context {V : Type} `{!JSON V}.
Implicit Types (w : World V) (props : DataRecord V) (data : ref) (key : string).

Lemma deref_new_object w w0 props :
  deref (set_heap (heap w ++ [props]) w0) (length (heap w)) = props.
Proof.
  unfold deref; simpl. by rewrite list_lookup_middle.
Qed.


Lemma alter_new_object (h : list (DataRecord V)) f props :
  alter f (length h) (h ++ [props]) = h ++ [f props].
Proof.
  rewrite alter_app_r_alt by lia. by rewrite Nat.sub_diag.
Qed.

(** [getAllData] never throws: it allocates the record set the engine
    works on, after discarding a corrupted entry. *)
Lemma getAllData_spec w :
  getAllData w
  = (Ok (length (heap w)), set_heap (heap w ++ [current_data w]) (recovered w)).
Proof.
  unfold getAllData, current_data, recovered, is_corrupted, persisted_text.
  unfold bind at 1. unfold storage_getStorage, gets at 1.
  destruct (raw (storage w)) as [kind|] eqn:Hraw; [|by destruct w].
  unfold bind at 1. unfold gets at 1.
  destruct (dirtyData w) as [d|] eqn:Hd.
  { unfold bind, read_object, new_object. by destruct w. }
  unfold bind at 1, this_storageKey, gets at 1.
  unfold bind at 1, this_transformChain, gets at 1.
  unfold try_catch, bind at 1, storage_read, gets at 1.
  destruct (Storage_read (storageKey (config w)) (storage w)) as [text|] eqn:Hread;
    [|by destruct w].
  destruct (String.eqb text "") eqn:Hempty; simpl; [by destruct w|].
  unfold decode, bind, lift.
  destruct (chain_reverse (transformChain (config w)) text) as [s|e]; simpl.
  - destruct (JSON_parse s) as [parsed|e]; simpl.
    + destruct (isValidDataRecord parsed); simpl; by destruct w.
    + by destruct w.
  - by destruct w.
Qed.

Lemma this_validateKey_ok key w :
  validateKey key (raw (storage w)) = Ok tt → this_validateKey key w = (Ok tt, w).
Proof. unfold this_validateKey, bind, storage_getStorage, gets, lift. by intros ->. Qed.

Lemma this_validateKey_err key w e :
  validateKey key (raw (storage w)) = Err e → this_validateKey key w = (Err e, w).
Proof. unfold this_validateKey, bind, storage_getStorage, gets, lift. by intros ->. Qed.

Lemma validateKey_available key st :
  validateKey key st = Ok tt → ∃ kind, st = Some kind.
Proof. destruct st; [eauto | discriminate]. Qed.

Lemma validateKey_not_proto key st : validateKey key st = Ok tt → key ≠ "__proto__".
Proof. intros Hvalid ->. destruct st; vm_compute in Hvalid; discriminate. Qed.

Lemma saveAllData_debounced data w :
  0 < debounceMs (config w) → saveAllData data w = (Ok tt, debounced data w).
Proof.
  intros Hd. unfold saveAllData, bind at 1, gets at 1.
  rewrite (proj2 (Z.ltb_lt _ _) Hd).
  unfold debounced, bind, modify, gets, clearTimeout, modify, setTimeout, ret; simpl.
  by destruct (pendingSave w).
Qed.

Lemma saveAllData_immediate data w :
  debounceMs (config w) ≤ 0 → saveAllData data w = saveAllDataImmediate data w.
Proof.
  intros Hd. unfold saveAllData, bind at 1, gets at 1.
  by rewrite (proj2 (Z.ltb_ge _ _) Hd).
Qed.

Lemma Storage_write_accepted key text st :
  accepts_write st = true → Storage_write key text st = (Ok tt, stored key text st).
Proof.
  unfold accepts_write, stored, Storage_write.
  destruct (raw st) as [[]|]; try done.
  by destruct (setItem_outcomes st) as [|[e|] later].
Qed.

Lemma saveAllDataImmediate_body_through handler (data : ref) w text :
  within_item_limit w (deref w data) = true →
  encode (config w) (deref w data) = Ok text →
  accepts_write (storage w) = true →
  saveAllDataImmediate_body handler data w
  = (Ok tt,
     match raw (storage w) with
     | Some _ => set_storage (stored (storageKey (config w)) text (storage w)) w
     | None => w
     end).
Proof.
  unfold within_item_limit, encode. intros Hlimit Henc Hacc.
  unfold saveAllDataImmediate_body, bind at 1, storage_getStorage, gets at 1.
  destruct (raw (storage w)) as [kind|] eqn:Hraw; [|done].
  assert ((match kind with
           | MapStorage =>
               props <- read_object data ;;
               maxItems <- gets (λ w, maxItemsInMemory (config w)) ;;
               if (maxItems <? length (Object_keys props))%nat
               then enforceItemLimit data else ret tt
           | WebStorage => ret tt
           end) w = (Ok tt, w)) as Hstep.
  { destruct kind; [done|].
    unfold bind, read_object, gets.
    apply Nat.leb_le in Hlimit. by rewrite (proj2 (Nat.ltb_ge _ _) Hlimit). }
  rewrite (bind_ok Hstep).
  unfold bind at 1, this_storageKey, gets at 1.
  unfold bind at 1, this_transformChain, gets at 1.
  unfold try_catch, bind at 1, read_object.
  destruct (JSON_stringify (deref w data)) as [dataStr|]; [|done].
  unfold bind at 1, lift at 1. unfold bind at 1, lift at 1. rewrite Henc.
  unfold storage_write. by rewrite Storage_write_accepted.
Qed.

Lemma saveAllDataImmediate_through (data : ref) w text :
  within_item_limit w (deref w data) = true →
  encode (config w) (deref w data) = Ok text →
  accepts_write (storage w) = true →
  saveAllDataImmediate data w
  = (Ok tt,
     match raw (storage w) with
     | Some _ => set_storage (stored (storageKey (config w)) text (storage w)) w
     | None => w
     end).
Proof. apply saveAllDataImmediate_body_through. Qed.
End VaultFacts.

Section ReadFacts.
Context {V : Type} `{!JSON V}.
Implicit Types (w : World V) (props : DataRecord V) (data : ref) (key : string).

Lemma corrupted_is_empty w : is_corrupted w = true → current_data w = [].
Proof.
  unfold is_corrupted, current_data, persisted_text.
  destruct (raw (storage w)); [|done]. destruct (dirtyData w); [done|].
  destruct (Storage_read _ _) as [text|]; [|done].
  destruct (String.eqb text ""); [done|]. simpl.
  by destruct (decode (config w) text).
Qed.

Lemma recovered_when_present w key item :
  get_prop key (current_data w) = Some item → recovered w = w.
Proof.
  intros Hget. unfold recovered. destruct (is_corrupted w) eqn:Hc; [|done].
  rewrite (corrupted_is_empty w Hc) in Hget. done.
Qed.

Lemma getItem_expired w key item e :
  validateKey key (raw (storage w)) = Ok tt →
  get_prop key (current_data w) = Some item →
  expiry item = Some e → e < clock w →
  getItem key w = (saveAllData (length (heap w)) ;; ret None) (purged key w).
Proof.
  intros Hvalid Hget He Hpast. unfold getItem.
  rewrite (bind_ok (this_validateKey_ok key w Hvalid)).
  rewrite (bind_ok (getAllData_spec w)).
  rewrite (recovered_when_present w key item Hget).
  unfold bind at 1, read_object at 1. rewrite deref_new_object, Hget.
  unfold bind at 1, removeIfExpired, bind at 1, Date_now, gets at 1. simpl.
  unfold isExpired. rewrite He, (proj2 (Z.ltb_lt _ _) Hpast).
  unfold bind at 1, update_object, modify, ret. simpl.
  by rewrite alter_new_object.
Qed.

Lemma hasItem_expired w key item e :
  validateKey key (raw (storage w)) = Ok tt →
  get_prop key (current_data w) = Some item →
  expiry item = Some e → e < clock w →
  hasItem key w = (saveAllData (length (heap w)) ;; ret false) (purged key w).
Proof.
  intros Hvalid Hget He Hpast. unfold hasItem.
  rewrite (bind_ok (this_validateKey_ok key w Hvalid)).
  rewrite (bind_ok (getAllData_spec w)).
  rewrite (recovered_when_present w key item Hget).
  unfold bind at 1, read_object at 1. rewrite deref_new_object, Hget.
  unfold bind at 1, removeIfExpired, bind at 1, Date_now, gets at 1. simpl.
  unfold isExpired. rewrite He, (proj2 (Z.ltb_lt _ _) Hpast).
  unfold bind at 1, update_object, modify, ret. simpl.
  by rewrite alter_new_object.
Qed.

Lemma getRemainingTTL_expired w key item e :
  Storage_isAvailable (storage w) = true →
  get_prop key (current_data w) = Some item →
  expiry item = Some e → e ≤ clock w →
  getRemainingTTL key w = (saveAllData (length (heap w)) ;; ret None) (purged key w).
Proof.
  intros Havail Hget He Hpast. unfold getRemainingTTL.
  unfold bind at 1, storage_isAvailable, gets at 1. rewrite Havail. simpl.
  rewrite (bind_ok (getAllData_spec w)).
  rewrite (recovered_when_present w key item Hget).
  unfold bind at 1, read_object at 1. rewrite deref_new_object, Hget, He.
  unfold bind at 1, Date_now, gets at 1. simpl.
  assert ((e - clock w <=? 0) = true) as -> by (apply Z.leb_le; lia).
  unfold bind at 1, update_object, modify, ret. simpl.
  by rewrite alter_new_object.
Qed.

Lemma saveAllData_through data w :
  save_goes_through w (deref w data) = true →
  saveAllData data w = (Ok tt, after_save data w).
Proof.
  unfold save_goes_through, after_save, write_goes_through. intros Hsave.
  destruct (0 <? debounceMs (config w)) eqn:Hd.
  - apply saveAllData_debounced. by apply Z.ltb_lt.
  - rewrite saveAllData_immediate by (by apply Z.ltb_ge).
    simpl in Hsave. apply andb_prop in Hsave as [Hsave Hlimit].
    apply andb_prop in Hsave as [Henc Hacc].
    destruct (encode (config w) (deref w data)) as [text|] eqn:Etext; [|done].
    rewrite (saveAllDataImmediate_through data w text); auto.
Qed.

(** A loop that only computes. *)
Lemma fold_each_pure {A B} (l : list A) (acc : B) body (step : B → A → B) w :
  (∀ a acc w, body a acc w = (Ok (step acc a), w)) →
  fold_each l acc body w = (Ok (foldl step acc l), w).
Proof.
  intros Hbody. revert acc. induction l as [|a l IH]; intros acc; simpl; [done|].
  rewrite (bind_ok (Hbody a acc w)). apply IH.
Qed.

Lemma getAllKeys_spec w :
  Storage_isAvailable (storage w) = true →
  getAllKeys w
  = (Ok (live_keys (clock w) (current_data w)),
     set_heap (heap w ++ [current_data w]) (recovered w)).
Proof.
  intros Havail. unfold getAllKeys.
  unfold bind at 1, storage_isAvailable, gets at 1. rewrite Havail. simpl.
  rewrite (bind_ok (getAllData_spec w)).
  unfold bind at 1, Date_now, gets at 1.
  unfold bind at 1, read_object at 1. rewrite deref_new_object.
  assert (clock (set_heap (heap w ++ [current_data w]) (recovered w)) = clock w) as ->.
  { unfold recovered. by destruct (is_corrupted w). }
  apply fold_each_pure. intros key validKeys w'.
  destruct (get_prop key (current_data w)) as [item|]; [|done].
  by destruct (is_live (clock w) item).
Qed.

Lemma getAll_spec w :
  Storage_isAvailable (storage w) = true →
  getAll w
  = (Ok (live_entries (clock w) (current_data w)),
     set_heap (heap w ++ [current_data w]) (recovered w)).
Proof.
  intros Havail. unfold getAll.
  unfold bind at 1, storage_isAvailable, gets at 1. rewrite Havail. simpl.
  rewrite (bind_ok (getAllData_spec w)).
  unfold bind at 1, Date_now, gets at 1.
  unfold bind at 1, read_object at 1. rewrite deref_new_object.
  assert (clock (set_heap (heap w ++ [current_data w]) (recovered w)) = clock w) as ->.
  { unfold recovered. by destruct (is_corrupted w). }
  apply fold_each_pure. intros key validKeys w'.
  destruct (get_prop key (current_data w)) as [item|]; [|done].
  by destruct (is_live (clock w) item).
Qed.

Lemma save_then_ret {A} (a : A) data w :
  ((saveAllData data ;; ret a) w).1 = Ok a ∨
  ∃ e, ((saveAllData data ;; ret a) w).1 = Err e ∧ (saveAllData data w).1 = Err e.
Proof.
  unfold bind. destruct (saveAllData data w) as [[[]|e] w']; simpl; eauto.
Qed.

Lemma save_then_ret_through {A} (a : A) data w :
  save_goes_through w (deref w data) = true →
  ((saveAllData data ;; ret a) w).1 = Ok a.
Proof.
  intros Hsave. by rewrite (bind_ok (saveAllData_through data w Hsave)).
Qed.

Lemma deref_purged key w :
  deref (purged key w) (length (heap w)) = delete_prop key (current_data w).
Proof. apply deref_new_object. Qed.

Lemma live_keys_elem now props key :
  key ∈ live_keys now props →
  ∃ item, get_prop key props = Some item ∧ is_live now item = true.
Proof.
  unfold live_keys.
  assert (∀ keys acc,
    key ∈ foldl (λ validKeys key,
                   match get_prop key props with
                   | Some item => if is_live now item then validKeys ++ [key] else validKeys
                   | None => validKeys
                   end) acc keys →
    key ∈ acc ∨ ∃ item, get_prop key props = Some item ∧ is_live now item = true) as Hgen.
  { induction keys as [|k keys IH]; intros acc; simpl; [auto|].
    intros Hin. apply IH in Hin as [Hin|Hin]; [|auto].
    destruct (get_prop k props) as [item|] eqn:Hk; [|auto].
    destruct (is_live now item) eqn:Hlive; [|auto].
    apply elem_of_app in Hin as [Hin|Hin]; [auto|].
    apply list_elem_of_singleton in Hin. subst. eauto. }
  intros Hin. apply Hgen in Hin as [Hin|Hin]; [|done]. by apply elem_of_nil in Hin.
Qed.

End ReadFacts.

Section ExpiredReads.
Context {V : Type} `{!JSON V}.
Implicit Types (w : World V) (props : DataRecord V) (data : ref) (key : string).

End ExpiredReads.



Section WriteFacts.
Context {V : Type} `{!JSON V}.
Implicit Types (w : World V) (props : DataRecord V) (data : ref) (key : string).

Lemma Storage_read_stored key text st :
  Storage_isAvailable st = true → accepts_write st = true →
  Storage_read key (stored key text st) = Some text.
Proof.
  unfold Storage_isAvailable, accepts_write, stored, Storage_read, Storage_write.
  destruct (raw st) as [[]|] eqn:Hraw; [| |done]; intros _.
  - destruct (setItem_outcomes st) as [|[e|] later]; [|done|]; intros _; simpl;
      apply lookup_insert_eq.
  - intros _. simpl. apply lookup_insert_eq.
Qed.

Lemma raw_stored key text st : raw (stored key text st) = raw st.
Proof.
  unfold stored, Storage_write.
  destruct (raw st) as [[]|] eqn:Hraw; simpl; auto.
  by destruct (setItem_outcomes st) as [|[e|] later].
Qed.

Lemma current_data_after_save data w :
  Storage_isAvailable (storage w) = true →
  save_goes_through w (deref w data) = true →
  reads_back w (deref w data) →
  current_data (after_save data w) = deref w data ∨ current_data (after_save data w) = [].
Proof.
  unfold Storage_isAvailable, save_goes_through, after_save, reads_back.
  intros Havail Hsave Hback.
  destruct (raw (storage w)) as [kind|] eqn:Hraw; [|done].
  destruct (0 <? debounceMs (config w)) eqn:Hd.
  - left. unfold current_data, debounced; simpl. by rewrite Hraw.
  - destruct Hback as [Hpos|[Hdirty Hround]]; [apply Z.ltb_ge in Hd; lia|].
    simpl in Hsave. unfold write_goes_through in Hsave.
    apply andb_prop in Hsave as [Hsave _]. apply andb_prop in Hsave as [Henc Hacc].
    destruct (encode (config w) (deref w data)) as [text|] eqn:Etext; [|done].
    unfold current_data, persisted_text; simpl.
    rewrite raw_stored, Hraw, Hdirty.
    rewrite Storage_read_stored; [|by unfold Storage_isAvailable; rewrite Hraw|done].
    destruct (String.eqb text ""); [by right|].
    rewrite (Hround text eq_refl). by left.
Qed.

Lemma current_data_after_save_exact data w :
  Storage_isAvailable (storage w) = true →
  save_goes_through w (deref w data) = true →
  reads_back_as_written w (deref w data) →
  current_data (after_save data w) = deref w data.
Proof.
  unfold Storage_isAvailable, save_goes_through, after_save, reads_back_as_written.
  intros Havail Hsave Hback.
  destruct (raw (storage w)) as [kind|] eqn:Hraw; [|done].
  destruct (0 <? debounceMs (config w)) eqn:Hd.
  - unfold current_data, debounced; simpl. by rewrite Hraw.
  - destruct Hback as [Hpos|[Hdirty Hround]]; [apply Z.ltb_ge in Hd; lia|].
    simpl in Hsave. unfold write_goes_through in Hsave.
    apply andb_prop in Hsave as [Hsave _]. apply andb_prop in Hsave as [Henc Hacc].
    destruct (encode (config w) (deref w data)) as [text|] eqn:Etext; [|done].
    unfold current_data, persisted_text; simpl.
    rewrite raw_stored, Hraw, Hdirty.
    rewrite Storage_read_stored; [|by unfold Storage_isAvailable; rewrite Hraw|done].
    destruct (Hround text eq_refl) as [Hne Hdec].
    rewrite (proj2 (String.eqb_neq _ _) Hne). by rewrite Hdec.
Qed.




End WriteFacts.



Section SetItemFacts.
Context {V : Type} `{!JSON V}.
Implicit Types (w : World V) (props : DataRecord V) (data : ref) (key : string).

Lemma setItem_stores w key value ttl :
  validateKey key (raw (storage w)) = Ok tt →
  stores ttl →
  setItem key value ttl w
  = (saveAllData (length (heap w)) ;; ret true)
      (assigned key (mkStoredData value (expiry_for (clock w) ttl)) w).
Proof.
  intros Hvalid Httl. unfold setItem.
  rewrite (bind_ok (this_validateKey_ok key w Hvalid)).
  assert (clock (set_heap (heap w ++ [current_data w]) (recovered w)) = clock w) as Hclock.
  { unfold recovered. by destruct (is_corrupted w). }
  destruct Httl as [->|(z & -> & Hz)].
  - unfold bind at 1, ret at 1.
    rewrite (bind_ok (getAllData_spec w)).
    unfold bind at 1, Date_now, gets at 1.
    unfold bind at 1, update_object, modify. simpl.
    by rewrite alter_new_object.
  - simpl. rewrite (proj2 (Z.ltb_ge _ _)) by lia.
    unfold bind at 1, ret at 1. rewrite (proj2 (Z.eqb_neq _ _)) by lia.
    rewrite (bind_ok (getAllData_spec w)).
    unfold bind at 1, Date_now, gets at 1. rewrite Hclock.
    unfold bind at 1, update_object, modify. simpl.
    by rewrite alter_new_object.
Qed.



Lemma save_goes_through_recovered w props :
  save_goes_through (recovered w) props = save_goes_through w props.
Proof.
  unfold recovered. destruct (is_corrupted w); [|done].
  unfold save_goes_through, write_goes_through, accepts_write, within_item_limit,
    Storage_remove; simpl.
  destruct (raw (storage w)) as [kind|] eqn:Hraw; simpl; by rewrite ?Hraw.
Qed.

Lemma getItem_absent w key :
  validateKey key (raw (storage w)) = Ok tt →
  get_prop key (current_data w) = None →
  getItem key w = (Ok None, set_heap (heap w ++ [current_data w]) (recovered w)).
Proof.
  intros Hvalid Hget. unfold getItem.
  rewrite (bind_ok (this_validateKey_ok key w Hvalid)).
  rewrite (bind_ok (getAllData_spec w)).
  unfold bind at 1, read_object at 1. rewrite deref_new_object.
  by rewrite Hget.
Qed.

Lemma getItem_live w key item :
  validateKey key (raw (storage w)) = Ok tt →
  get_prop key (current_data w) = Some item →
  isExpired (clock w) (expiry item) = false →
  getItem key w
  = (Ok (Some (value item)), set_heap (heap w ++ [current_data w]) w).
Proof.
  intros Hvalid Hget Hlive. unfold getItem.
  rewrite (bind_ok (this_validateKey_ok key w Hvalid)).
  rewrite (bind_ok (getAllData_spec w)).
  rewrite (recovered_when_present w key item Hget).
  unfold bind at 1, read_object at 1. rewrite deref_new_object, Hget.
  unfold bind at 1, removeIfExpired, bind at 1, Date_now, gets at 1. simpl.
  by rewrite Hlive.
Qed.

Lemma current_data_recovered w : current_data (recovered w) = current_data w.
Proof.
  unfold recovered. destruct (is_corrupted w) eqn:Hc; [|done].
  rewrite (corrupted_is_empty w Hc).
  unfold is_corrupted, persisted_text in Hc. unfold current_data, persisted_text.
  simpl. destruct (raw (storage w)) as [kind|] eqn:Hraw; [|done].
  destruct (dirtyData w); [done|].
  unfold Storage_read, Storage_remove. rewrite Hraw. simpl.
  by rewrite lookup_delete_eq.
Qed.

(** Reading the record set leaves it as it was. *)
Lemma current_data_after_read w :
  current_data (set_heap (heap w ++ [current_data w]) (recovered w)) = current_data w.
Proof.
  assert (dirtyData (recovered w) = dirtyData w ∧ heap (recovered w) = heap w) as [Hd Hh].
  { unfold recovered. by destruct (is_corrupted w). }
  transitivity (current_data (recovered w)); [|apply current_data_recovered].
  unfold current_data at 1 3. simpl.
  destruct (raw (storage (recovered w))); [|done].
  rewrite Hd. destruct (dirtyData w) as [d|] eqn:Hdirty; [|done].
  unfold deref; simpl. rewrite Hh.
  destruct (decide (d < length (heap w))%nat) as [Hlt|Hge].
  - by rewrite lookup_app_l.
  - rewrite (lookup_ge_None_2 (heap w)) by lia.
    destruct (decide (d = length (heap w))) as [->|Hne].
    + rewrite list_lookup_middle by done. simpl.
      unfold current_data. rewrite Hdirty.
      destruct (raw (storage w)); [|done].
      unfold deref. by rewrite lookup_ge_None_2.
    + rewrite lookup_ge_None_2; [done|]. rewrite length_app; simpl; lia.
Qed.

Lemma raw_recovered w : raw (storage (recovered w)) = raw (storage w).
Proof.
  unfold recovered. destruct (is_corrupted w); [|done].
  simpl. unfold Storage_remove. by destruct (raw (storage w)) eqn:Hraw.
Qed.

Lemma raw_after_save data w : raw (storage (after_save data w)) = raw (storage w).
Proof.
  unfold after_save. destruct (0 <? debounceMs (config w)); [done|].
  destruct (raw (storage w)) eqn:Hraw; [|done].
  destruct (encode _ _); [|done]. simpl. by rewrite raw_stored.
Qed.
End SetItemFacts.

Section SetItemResult.
Context {V : Type} `{!JSON V}.
Implicit Types (w : World V) (props : DataRecord V) (data : ref) (key : string).



End SetItemResult.



Section Debounce.
Context {V : Type} `{!JSON V}.
Implicit Types (w : World V) (props : DataRecord V) (data : ref) (key : string).



Lemma written_recovered w : written (storage (recovered w)) = written (storage w).
Proof.
  unfold recovered. destruct (is_corrupted w); [|done].
  simpl. unfold Storage_remove. by destruct (raw (storage w)).
Qed.

Lemma write_goes_through_recovered w props :
  write_goes_through (recovered w) props = write_goes_through w props.
Proof.
  unfold recovered. destruct (is_corrupted w); [|done].
  unfold write_goes_through, accepts_write, within_item_limit, Storage_remove; simpl.
  destruct (raw (storage w)) as [kind|] eqn:Hraw; simpl; by rewrite ?Hraw.
Qed.

Lemma written_stored key text st :
  Storage_isAvailable st = true → accepts_write st = true →
  written (stored key text st) = (key, text) :: written st.
Proof.
  unfold Storage_isAvailable, accepts_write, stored, Storage_write.
  destruct (raw st) as [[]|]; [| |done]; intros _.
  - by destruct (setItem_outcomes st) as [|[e|] later].
  - done.
Qed.

Lemma recovered_when_dirty w d : dirtyData w = Some d → recovered w = w.
Proof.
  intros Hd. unfold recovered, is_corrupted. rewrite Hd.
  by destruct (raw (storage w)).
Qed.

Lemma filter_other_timer (t : timer) : List.filter (λ t', negb (Pos.eqb t' t)) [t] = [].
Proof. simpl. by rewrite Pos.eqb_refl. Qed.
End Debounce.

Section ReadYourWrite.
Context {V : Type} `{!JSON V}.
Implicit Types (w : World V) (props : DataRecord V) (data : ref) (key : string).

Lemma config_recovered w : config (recovered w) = config w.
Proof. unfold recovered. by destruct (is_corrupted w). Qed.

Lemma timers_recovered w :
  timers (recovered w) = timers w ∧ pendingSave (recovered w) = pendingSave w ∧
  next_timer (recovered w) = next_timer w.
Proof. unfold recovered. by destruct (is_corrupted w). Qed.


End ReadYourWrite.



Section Corruption.
Context {V : Type} `{!JSON V}.
Implicit Types (w : World V) (props : DataRecord V) (data : ref) (key : string).

Lemma garbage_does_not_decode cfg text :
  garbage cfg text → is_ok (decode cfg text) = false.
Proof.
  unfold decode. intros [(e & ->)|[(s & e & -> & ->)|(s & parsed & -> & -> & Hshape)]];
    [done|done|].
  repeat (apply elem_of_cons in Hshape as [->|Hshape]; [done|]).
  by apply elem_of_nil in Hshape.
Qed.

Lemma hasItem_absent w key :
  validateKey key (raw (storage w)) = Ok tt →
  get_prop key (current_data w) = None →
  hasItem key w = (Ok false, set_heap (heap w ++ [current_data w]) (recovered w)).
Proof.
  intros Hvalid Hget. unfold hasItem.
  rewrite (bind_ok (this_validateKey_ok key w Hvalid)).
  rewrite (bind_ok (getAllData_spec w)).
  unfold bind at 1, read_object at 1. rewrite deref_new_object.
  by rewrite Hget.
Qed.

Lemma getRemainingTTL_absent w key :
  get_prop key (current_data w) = None →
  (getRemainingTTL key w).1 = Ok None.
Proof.
  intros Hget. unfold getRemainingTTL, bind at 1, storage_isAvailable, gets at 1.
  destruct (Storage_isAvailable (storage w)); [|done]. simpl.
  rewrite (bind_ok (getAllData_spec w)).
  unfold bind at 1, read_object at 1. rewrite deref_new_object.
  by rewrite Hget.
Qed.

Lemma unusable_text_reads_empty w text :
  Storage_isAvailable (storage w) = true →
  dirtyData w = None →
  persisted_text w = Some text →
  text = "" ∨ garbage (config w) text →
  current_data w = [] ∧
  persisted_text (recovered w) = (if String.eqb text "" then Some "" else None).
Proof.
  unfold Storage_isAvailable. intros Havail Hdirty Htext Hbad.
  assert (text ≠ "" → is_ok (decode (config w) text) = false) as Hdec.
  { intros Hne. destruct Hbad as [->|Hbad]; [done|]. by apply garbage_does_not_decode. }
  unfold current_data, recovered, is_corrupted. rewrite Hdirty, Htext.
  destruct (raw (storage w)) as [kind|] eqn:Hraw; [|done].
  destruct (String.eqb text "") eqn:Hempty.
  - apply String.eqb_eq in Hempty. by subst.
  - apply String.eqb_neq in Hempty. specialize (Hdec Hempty). rewrite Hdec. simpl.
    split; [by destruct (decode (config w) text)|].
    unfold persisted_text, Storage_read, Storage_remove. simpl. rewrite Hraw. simpl.
    apply lookup_delete_eq.
Qed.

(** C3, as amended.  A text under the engine's key that fails the reversal
    of the transforms, the JSON decoding or the shape validation, read by an
    engine with no dirty buffer, is never surfaced: [getAllKeys] and
    [getAll] return the empty result and the keyed reads absent, none
    throws, and a [setItem] that follows returns [true] when its save goes
    through.  A text that is not empty is removed from the backend by the
    read; the empty string is read as an empty record set and stays where it
    is. *)
Theorem corruption_is_recovered w text :
  Storage_isAvailable (storage w) = true →
  dirtyData w = None →
  persisted_text w = Some text →
  text = "" ∨ garbage (config w) text →
  getAllKeys w = (Ok [], emptied w) ∧
  getAll w = (Ok [], emptied w) ∧
  persisted_text (emptied w) = (if String.eqb text "" then Some "" else None) ∧
  (∀ key, inherited key = false → (getRemainingTTL key w).1 = Ok None) ∧
  (∀ key,
     validateKey key (raw (storage w)) = Ok tt →
     (inherited key = false →
      getItem key w = (Ok None, emptied w) ∧
      hasItem key w = (Ok false, emptied w)) ∧
     ∀ value,
       save_goes_through w [(key, mkStoredData value None)] = true →
       ((getAllKeys ;; setItem key value None) w).1 = Ok true).
Proof.
  intros Havail Hdirty Htext Hbad.
  destruct (unusable_text_reads_empty w text Havail Hdirty Htext Hbad) as [Hcur Hleft].
  unfold emptied. rewrite <- Hcur.
  split; [|split; [|split; [|split]]].
  - rewrite getAllKeys_spec by done. by rewrite Hcur.
  - rewrite getAll_spec by done. by rewrite Hcur.
  - exact Hleft.
  - intros key _. apply getRemainingTTL_absent. by rewrite Hcur.
  - intros key Hvalid.
    assert (get_prop key (current_data w) = None) as Hget by (by rewrite Hcur).
    split; [intros _; split; [by apply getItem_absent|by apply hasItem_absent]|].
    intros value Hsave.
    rewrite (bind_ok (getAllKeys_spec w Havail)).
    set (w' := set_heap _ _).
    assert (current_data w' = []) as Hcur'.
    { unfold w'. by rewrite current_data_after_read. }
    assert (validateKey key (raw (storage w')) = Ok tt) as Hvalid'.
    { unfold w'. simpl. by rewrite raw_recovered. }
    rewrite (setItem_stores w' key value None Hvalid') by (by left).
    apply save_then_ret_through. unfold assigned.
    rewrite deref_new_object, Hcur'.
    rewrite set_prop_nil by (by apply (validateKey_not_proto _ _ Hvalid)). simpl.
    change (save_goes_through (recovered w') [(key, mkStoredData value None)] = true).
    rewrite (save_goes_through_recovered w').
    change (save_goes_through (recovered w) [(key, mkStoredData value None)] = true).
    rewrite Hcur in Hsave. by rewrite (save_goes_through_recovered w).
Qed.
End Corruption.

(** The empty string does not decode, and a read leaves it in the backend;
    and while a save is pending the reads see the dirty buffer, so a text
    that does not decode is neither noticed nor removed. *)
Lemma corrupted_text_is_not_always_removed :
  JSON_parse (V := Z) "" = Err IntJSON.syntax_error ∧
  (getAllKeys (vault_over "" 100)).1 = Ok [] ∧
  persisted_text (getAllKeys (vault_over "" 100)).2 = Some "" ∧
  JSON_parse (V := Z) "[]" = Ok JsArray ∧
  persisted_text shadowed_vault = Some "[]" ∧
  (getAllKeys shadowed_vault).1 = Ok ["k"] ∧
  persisted_text (getAllKeys shadowed_vault).2 = Some "[]".
Proof. repeat split; vm_compute; reflexivity. Qed.

Lemma corruption_is_recovered_witness :
  (Storage_isAvailable (storage (vault_over "[]" 0)) = true ∧
   dirtyData (vault_over "[]" 0) = None ∧
   persisted_text (vault_over "[]" 0) = Some "[]" ∧
   garbage (V := Z) (config (vault_over "[]" 0)) "[]") ∧
  (getAllKeys (vault_over "[]" 0)).1 = Ok [] ∧
  persisted_text (getAllKeys (vault_over "[]" 0)).2 = None ∧
  (getItem "k" (vault_over "[]" 0)).1 = Ok None ∧
  ((getAllKeys ;; setItem "k" 7 None) (vault_over "[]" 0)).1 = Ok true.
Proof.
  assert (garbage (V := Z) (config (vault_over "[]" 0)) "[]") as Hbad.
  { right. right. exists "[]", JsArray. repeat split.
    apply list_elem_of_here. }
  destruct (corruption_is_recovered (vault_over "[]" 0) "[]" eq_refl eq_refl eq_refl
              (or_intror Hbad)) as (Hkeys & _ & Hgone & _ & Hkeyed).
  destruct (Hkeyed "k" eq_refl) as (Hread & Hset).
  destruct (Hread eq_refl) as (Hget & _).
  split; [done|]. rewrite Hkeys, Hget.
  split; [done|]. split; [exact Hgone|]. split; [done|].
  apply Hset. vm_compute; reflexivity.
Defined.

(** ** Quota recovery *)

(** C2.  On an engine that writes at once, a [setItem] whose write meets a
    quota error returns [true] after the cleanup, and the expired item is
    gone, but the value it was given is not persisted: the retry writes the
    record set read back from the backend.  On a debounced engine the flush
    persists the value, and its retry writes the expired item back. *)
Theorem quota_recovery_loses_the_write :
  isExpired (clock (full_vault 0)) (Some 5) = true ∧
  get_prop "a" (current_data (full_vault 0)) = Some (mkStoredData 1 (Some 5)) ∧
  (setItem "k" 7 None (full_vault 0)).1 = Ok true ∧
  current_data (setItem "k" 7 None (full_vault 0)).2 = [("b", mkStoredData 2 None)] ∧
  ((setItem "k" 7 None ;; getItem "k") (full_vault 0)).1 = Ok None ∧
  ((setItem "k" 7 None ;; timer_fires 1%positive) (full_vault 100)).1 = Ok tt ∧
  current_data ((setItem "k" 7 None ;; timer_fires 1%positive) (full_vault 100)).2
  = [("a", mkStoredData 1 (Some 5)); ("b", mkStoredData 2 None); ("k", mkStoredData 7 None)].
Proof. repeat split; vm_compute; reflexivity. Qed.

(** ** Key validation *)

Section Validation.
Context {V : Type} `{!JSON V}.
Implicit Types (w : World V) (key : string).

(** The six operations that call [validateKey] fail with its error before
    they read or change anything. *)
Lemma keyed_operations_validate w key e :
  validateKey key (raw (storage w)) = Err e →
  (∀ value ttl, setItem key value ttl w = (Err e, w)) ∧
  getItem key w = (Err e, w) ∧
  (∀ value, updateItem key value w = (Err e, w)) ∧
  (∀ ttl, extendTTL key ttl w = (Err e, w)) ∧
  removeItem key w = (Err e, w) ∧
  hasItem key w = (Err e, w).
Proof.
  intros Hinvalid. pose proof (this_validateKey_err key w e Hinvalid) as Hthrow.
  unfold setItem, getItem, updateItem, extendTTL, removeItem, hasItem.
  repeat split; intros; by rewrite (bind_err Hthrow).
Qed.

Lemma validateKey_rejects key st :
  key = "" ∨ trim key = "" ∨ key ∈ DANGEROUS_KEYS ∨ st = None →
  ∃ e, validateKey key st = Err e.
Proof.
  unfold validateKey. destruct st as [kind|]; [|eauto].
  intros [->|[Htrim|[Hdanger|?]]]; [eauto| | |done].
  - rewrite Htrim. simpl. rewrite orb_true_r. eauto.
  - destruct (String.eqb key "" || String.eqb (trim key) ""); [eauto|].
    rewrite bool_decide_eq_true_2 by done. eauto.
Qed.
End Validation.


(** ** The dirty buffer and the record set handed out *)

Section DirtyBuffer.
Context {V : Type} `{!JSON V}.
Implicit Types (w : World V) (props : DataRecord V) (data : ref) (key : string).

(** The engine in use hands out a new object with the buffer's properties:
    whatever is done to it, the buffer stays as it was. *)
Lemma getAllData_copies_the_buffer w d :
  Storage_isAvailable (storage w) = true →
  dirtyData w = Some d →
  (d < length (heap w))%nat →
  ∃ copy w',
    getAllData w = (Ok copy, w') ∧
    copy ≠ d ∧
    deref w' copy = deref w d ∧
    dirtyData w' = Some d ∧
    ∀ f, deref ((update_object copy f w').2) d = deref w d.
Proof.
  unfold Storage_isAvailable. intros Havail Hdirty Hvalid.
  exists (length (heap w)), (set_heap (heap w ++ [current_data w]) (recovered w)).
  assert (current_data w = deref w d) as Hcur.
  { unfold current_data. rewrite Hdirty. by destruct (raw (storage w)). }
  rewrite (recovered_when_dirty w d Hdirty).
  split.
  { rewrite getAllData_spec. by rewrite (recovered_when_dirty w d Hdirty). }
  split; [lia|]. split; [by rewrite deref_new_object|]. split; [done|].
  intros f. unfold update_object, modify, deref. simpl.
  rewrite list_lookup_alter_ne by lia. by rewrite lookup_app_l.
Qed.

End DirtyBuffer.

Section LegacyFacts.
Context {V : Type} `{!JSON V}.

(** The earlier engine hands out the buffer itself, frozen. *)
Lemma legacy_getAllData_returns_the_buffer (w : Legacy.World V) d :
  raw (Legacy.backend w) ≠ None →
  Legacy.dirtyData w = Some d →
  Legacy.getAllData w
  = (Ok d,
     Legacy.set_heap
       (alter (λ o, Legacy.mkObj (Legacy.props o) true) d (Legacy.heap w)) w).
Proof.
  intros Hraw Hdirty. unfold Legacy.getAllData, bind at 1, gets at 1.
  destruct (raw (Legacy.backend w)); [|done].
  unfold bind at 1, gets at 1. by rewrite Hdirty.
Qed.
End LegacyFacts.


(** ** Sorting *)

Section SortFacts.
Context {A : Type} (compare : A → A → number).
Local Abbreviation before := (before compare).

Hypothesis before_total : ∀ x y, before x y ∨ before y x.
Hypothesis before_trans : ∀ x y z, before x y → before y z → before x z.

Lemma sort_insert_Permutation x l : Permutation (sort_insert compare x l) (x :: l).
Proof.
  induction l as [|y l IH]; simpl; [done|].
  destruct (comparator_keeps_order (compare x y)); [done|].
  rewrite IH. apply perm_swap.
Qed.

Lemma Array_sort_Permutation l : Permutation (Array_sort compare l) l.
Proof.
  unfold Array_sort. induction l as [|x l IH]; simpl; [done|].
  rewrite sort_insert_Permutation. by constructor.
Qed.

Lemma sort_insert_sorted x l :
  StronglySorted before l → StronglySorted before (sort_insert compare x l).
Proof.
  induction l as [|y l IH]; simpl; intros Hsorted.
  - repeat constructor.
  - apply StronglySorted_inv in Hsorted as [Hl Hy].
    destruct (comparator_keeps_order (compare x y)) eqn:Hxy.
    + constructor; [by constructor|].
      constructor; [done|].
      eapply Forall_impl; [exact Hy|]. intros z Hz. by apply (before_trans x y z).
    + constructor; [by apply IH|].
      assert (before y x) as Hyx.
      { destruct (before_total x y) as [H|H]; [|done]. unfold before in H. congruence. }
      rewrite (Forall_forall (before y)). intros z Hz.
      rewrite sort_insert_Permutation in Hz.
      apply elem_of_cons in Hz as [->|Hz]; [done|].
      by apply (proj1 (Forall_forall (before y) l) Hy).
Qed.

Lemma Array_sort_sorted l : StronglySorted before (Array_sort compare l).
Proof.
  unfold Array_sort. induction l as [|x l IH]; simpl; [constructor|].
  by apply sort_insert_sorted.
Qed.

Lemma sorted_prefix_before l n x y :
  StronglySorted before l → x ∈ take n l → y ∈ drop n l → before x y.
Proof.
  revert n. induction l as [|z l IH]; intros n Hsorted Hx Hy.
  - rewrite take_nil in Hx. by apply elem_of_nil in Hx.
  - apply StronglySorted_inv in Hsorted as [Hl Hz].
    destruct n as [|n]; simpl in *; [by apply elem_of_nil in Hx|].
    apply elem_of_cons in Hx as [->|Hx].
    + apply (proj1 (Forall_forall _ _) Hz). by apply (subseteq_drop n l).
    + by apply (IH n).
Qed.
End SortFacts.

(** ** The item limit *)

Section ItemLimit.
Context {V : Type} `{!JSON V}.
Implicit Types (w : World V) (props : DataRecord V) (data : ref) (key : string).

Lemma before_expiry_le props a b :
  before (compare_expiry props) a b
  ↔ expiry_le (stored_expiry props a) (stored_expiry props b).
Proof.
  unfold before, compare_expiry, expiry_or_Infinity, stored_expiry, expiry_le.
  destruct (get_prop a props) as [[va [ea|]]|], (get_prop b props) as [[vb [eb|]]|];
    simpl; try tauto; try (split; intros; done).
  rewrite Z.leb_le. lia.
Qed.

Lemma expiry_le_total e1 e2 : expiry_le e1 e2 ∨ expiry_le e2 e1.
Proof. destruct e1, e2; simpl; auto. lia. Qed.

Lemma expiry_le_trans e1 e2 e3 : expiry_le e1 e2 → expiry_le e2 e3 → expiry_le e1 e3.
Proof. destruct e1, e2, e3; simpl; auto; try tauto. lia. Qed.

Lemma get_prop_evict keys props key :
  get_prop key (evict keys props)
  = if bool_decide (key ∈ keys) then None else get_prop key props.
Proof.
  unfold evict. revert props. induction keys as [|k keys IH]; intros props; simpl.
  - done.
  - rewrite IH. destruct (decide (key ∈ keys)) as [Hin|Hout].
    + rewrite !bool_decide_eq_true_2; auto. by apply list_elem_of_further.
    + rewrite (bool_decide_eq_false_2 (key ∈ keys)) by done.
      destruct (decide (k = key)) as [->|Hne].
      * rewrite bool_decide_eq_true_2 by apply list_elem_of_here.
        apply get_prop_delete_prop.
      * rewrite bool_decide_eq_false_2.
        -- by apply get_prop_delete_prop_ne.
        -- rewrite elem_of_cons. intros [?|?]; [congruence|done].
Qed.

Lemma NoDup_delete_prop key props :
  NoDup (Object_keys props) → NoDup (Object_keys (delete_prop key props)).
Proof.
  unfold Object_keys. induction props as [|[k item] rest IH]; simpl; [done|].
  intros Hnd. apply NoDup_cons in Hnd as [Hk Hnd].
  destruct (String.eqb k key); [auto|]. simpl. apply NoDup_cons. split; [|auto].
  intros Hin. apply Hk.
  assert (∀ l : DataRecord V, k ∈ map fst (delete_prop key l) → k ∈ map fst l) as Hsub.
  { induction l as [|[k' item'] l IHl]; simpl; [done|].
    destruct (String.eqb k' key); simpl; rewrite !elem_of_cons; tauto. }
  by apply Hsub.
Qed.

Lemma NoDup_evict keys props :
  NoDup (Object_keys props) → NoDup (Object_keys (evict keys props)).
Proof.
  unfold evict. revert props. induction keys as [|k keys IH]; intros props; simpl; [done|].
  intros Hnd. apply IH. by apply NoDup_delete_prop.
Qed.

Lemma elem_of_Object_keys key props :
  key ∈ Object_keys props ↔ ∃ item, get_prop key props = Some item.
Proof.
  destruct (get_prop key props) as [item|] eqn:Hget.
  - split; [eauto|]. intros _.
    destruct (decide (key ∈ Object_keys props)) as [|Hout]; [done|].
    apply get_prop_None_keys in Hout. congruence.
  - split; [|by intros [? ?]]. intros Hin. by apply get_prop_None_keys in Hget.
Qed.

(** The loop of [enforceItemLimit]. *)
Lemma enforceItemLimit_loop (sortedKeys : list string) data n start w :
  for_each (seq start n)
    (λ i, match sortedKeys !! i with
          | Some keyToDelete => update_object data (delete_prop keyToDelete)
          | None => ret tt
          end) w
  = (Ok tt, set_heap (alter (evict (take n (drop start sortedKeys))) data (heap w)) w).
Proof.
  revert start w. induction n as [|n IH]; intros start w; simpl.
  - unfold ret. f_equal. rewrite list_alter_id by done. by destruct w.
  - destruct (sortedKeys !! start) as [k|] eqn:Hk.
    + unfold bind at 1, update_object, modify. rewrite IH.
      unfold set_heap; simpl. do 2 f_equal.
      rewrite list_alter_alter_eq. apply list_alter_ext; [|done]. intros props _.
      by rewrite (drop_S _ _ _ Hk).
    + unfold bind at 1, ret at 1. rewrite IH.
      unfold set_heap; simpl. do 2 f_equal.
      apply lookup_ge_None_1 in Hk.
      rewrite !drop_ge by lia. by rewrite !take_nil.
Qed.

Lemma enforceItemLimit_spec data w :
  (data < length (heap w))%nat →
  enforceItemLimit data w
  = (Ok tt,
     set_heap (<[data := kept_after_limit (maxItemsInMemory (config w)) (deref w data)]>
                 (heap w)) w).
Proof.
  intros Hvalid. unfold enforceItemLimit, kept_after_limit.
  unfold bind at 1, read_object at 1. unfold bind at 1, gets at 1.
  destruct (lookup_lt_is_Some_2 (heap w) data Hvalid) as [props Hprops].
  assert (deref w data = props) as Hderef.
  { exact (f_equal (default []) Hprops). }
  rewrite Hderef.
  destruct (length (Object_keys props) <=? maxItemsInMemory (config w))%nat.
  - unfold ret. rewrite list_insert_id by done. by destruct w.
  - rewrite enforceItemLimit_loop. unfold set_heap; simpl. do 2 f_equal.
    apply list_eq. intros i. destruct (decide (i = data)) as [->|Hne].
    + rewrite list_lookup_alter_eq, list_lookup_insert_eq, Hprops by done. done.
    + by rewrite list_lookup_alter_ne, list_lookup_insert_ne.
Qed.
End ItemLimit.

(** * Further properties of the engine *)

Section Sweeps.
Context {V : Type} `{!JSON V}.
Implicit Types (w : World V) (props : DataRecord V) (data : ref) (key : string).

Lemma live_keys_complete now props key item :
  get_prop key props = Some item → is_live now item = true → key ∈ live_keys now props.
Proof.
  intros Hget Hlive. unfold live_keys.
  assert (key ∈ Object_keys props) as Hin.
  { apply elem_of_Object_keys. eauto. }
  assert (∀ keys acc,
    key ∈ acc ∨ key ∈ keys →
    key ∈ foldl (λ validKeys key,
                   match get_prop key props with
                   | Some item => if is_live now item then validKeys ++ [key] else validKeys
                   | None => validKeys
                   end) acc keys) as Hgen.
  { induction keys as [|k keys IH]; intros acc [Hacc|Hkeys]; simpl.
    - done.
    - by apply elem_of_nil in Hkeys.
    - apply IH. left. destruct (get_prop k props) as [i|]; [|done].
      destruct (is_live now i); [|done]. apply elem_of_app. by left.
    - apply elem_of_cons in Hkeys as [<-|Hkeys]; [|apply IH; by right].
      apply IH. left. rewrite Hget, Hlive. apply elem_of_app. right.
      apply list_elem_of_here. }
  apply Hgen. by right.
Qed.

(** What [getAll] leaves under a name of its result. *)
Lemma live_entries_lookup now props key :
  get_prop key (live_entries now props)
  = if String.eqb key "__proto__" then None
    else match get_prop key props with
         | Some item => if is_live now item then Some (value item) else None
         | None => None
         end.
Proof.
  unfold live_entries.
  set (step := λ (result : list (string * V)) k,
         match get_prop k props with
         | Some item => if is_live now item then set_prop k (value item) result else result
         | None => result
         end).
  set (target := if String.eqb key "__proto__" then None
                 else match get_prop key props with
                      | Some item => if is_live now item then Some (value item) else None
                      | None => None
                      end).
  assert (∀ acc k, get_prop "__proto__" acc = None →
                   get_prop "__proto__" (step acc k) = None) as Hproto.
  { intros acc k Hnone. unfold step. destruct (get_prop k props) as [i|]; [|done].
    destruct (is_live now i); [|done]. by apply set_prop_no_proto. }
  assert (∀ acc k, k ≠ key → get_prop key (step acc k) = get_prop key acc) as Hother.
  { intros acc k Hne. unfold step. destruct (get_prop k props) as [i|]; [|done].
    destruct (is_live now i); [|done]. by apply get_prop_set_prop_ne. }
  assert (∀ acc, get_prop "__proto__" acc = None →
                 get_prop key (step acc key)
                 = match target with Some v => Some v | None => get_prop key acc end)
    as Hsame.
  { intros acc Hnone. unfold step, target.
    destruct (String.eqb key "__proto__") eqn:E.
    - apply String.eqb_eq in E. subst key.
      destruct (get_prop "__proto__" props) as [i|]; [|done].
      destruct (is_live now i); [|done]. rewrite Hnone. by apply set_prop_no_proto.
    - apply String.eqb_neq in E.
      destruct (get_prop key props) as [i|]; [|done].
      destruct (is_live now i); [|done]. by apply get_prop_set_prop. }
  assert (∀ keys acc,
    get_prop "__proto__" acc = None →
    get_prop key (foldl step acc keys)
    = if bool_decide (key ∈ keys)
      then match target with Some v => Some v | None => get_prop key acc end
      else get_prop key acc) as Hgen.
  { induction keys as [|k keys IH]; intros acc Hnone; cbn [foldl].
    - rewrite bool_decide_eq_false_2; [done|]. apply not_elem_of_nil.
    - rewrite (IH _ (Hproto acc k Hnone)).
      destruct (decide (k = key)) as [->|Hne].
      + rewrite (bool_decide_eq_true_2 (key ∈ key :: keys)) by apply list_elem_of_here.
        rewrite (Hsame acc Hnone).
        destruct target; by destruct (bool_decide (key ∈ keys)).
      + rewrite (Hother acc k Hne).
        assert (bool_decide (key ∈ k :: keys) = bool_decide (key ∈ keys)) as ->; [|done].
        apply bool_decide_ext. rewrite elem_of_cons. split; [|auto].
        intros [?|?]; [congruence|done]. }
  rewrite (Hgen _ [] eq_refl). simpl.
  destruct (decide (key ∈ Object_keys props)) as [Hin|Hout].
  - rewrite bool_decide_eq_true_2 by done. by destruct target.
  - rewrite bool_decide_eq_false_2 by done.
    apply get_prop_None_keys in Hout. unfold target. rewrite Hout.
    by destruct (String.eqb key "__proto__").
Qed.

Lemma current_data_unavailable w :
  Storage_isAvailable (storage w) = false → current_data w = [].
Proof.
  unfold Storage_isAvailable, current_data. by destruct (raw (storage w)).
Qed.

(** X1.  [getAllKeys] and [getAll] never throw, whatever the backend
    holds, and they are read-only sweeps: the record set, the dirty buffer,
    the pending timer and the trace of writes are as before, so an expired
    entry they leave out of the result stays where it is. *)
Theorem sweeps_are_read_only w :
  ∃ keys entries w1 w2,
    getAllKeys w = (Ok keys, w1) ∧
    getAll w = (Ok entries, w2) ∧
    (current_data w1 = current_data w ∧ dirtyData w1 = dirtyData w ∧
     pendingSave w1 = pendingSave w ∧ timers w1 = timers w ∧
     written (storage w1) = written (storage w)) ∧
    (current_data w2 = current_data w ∧ dirtyData w2 = dirtyData w ∧
     pendingSave w2 = pendingSave w ∧ timers w2 = timers w ∧
     written (storage w2) = written (storage w)).
Proof.
  destruct (Storage_isAvailable (storage w)) eqn:Havail.
  - exists (live_keys (clock w) (current_data w)),
           (live_entries (clock w) (current_data w)),
           (set_heap (heap w ++ [current_data w]) (recovered w)),
           (set_heap (heap w ++ [current_data w]) (recovered w)).
    split; [by apply getAllKeys_spec|]. split; [by apply getAll_spec|].
    assert (dirtyData (recovered w) = dirtyData w) as Hd.
    { unfold recovered. by destruct (is_corrupted w). }
    destruct (timers_recovered w) as (Ht & Hp & _).
    split; (split; [apply current_data_after_read|]); simpl;
      by rewrite Hd, Hp, Ht, written_recovered.
  - exists [], [], w, w.
    unfold getAllKeys, getAll, bind, storage_isAvailable, gets. rewrite Havail.
    done.
Qed.

(** X2.  [getAllKeys] returns the keys whose item has no expiry or an
    expiry not before the clock, and no other; the object [getAll] returns
    has each of them as a property holding the stored value, but for a key
    named [__proto__]: the assignment [result[key] = item.value] makes no
    property of that name. *)
Theorem sweeps_list_the_live_items w key :
  ∃ keys entries,
    (getAllKeys w).1 = Ok keys ∧
    (getAll w).1 = Ok entries ∧
    (key ∈ keys ↔
       ∃ item, get_prop key (current_data w) = Some item ∧
               is_live (clock w) item = true) ∧
    (∀ v, get_prop key entries = Some v ↔
       key ≠ "__proto__" ∧
       ∃ item, get_prop key (current_data w) = Some item ∧
               is_live (clock w) item = true ∧ v = value item).
Proof.
  destruct (Storage_isAvailable (storage w)) eqn:Havail.
  - exists (live_keys (clock w) (current_data w)),
           (live_entries (clock w) (current_data w)).
    rewrite getAllKeys_spec, getAll_spec by done.
    split; [done|]. split; [done|]. split.
    + split; [apply live_keys_elem|].
      intros (item & Hget & Hlive). by apply (live_keys_complete _ _ _ item).
    + intros v. cbn [fst]. rewrite live_entries_lookup.
      destruct (String.eqb key "__proto__") eqn:E.
      * apply String.eqb_eq in E. split; [done|]. by intros [? _].
      * apply String.eqb_neq in E.
        destruct (get_prop key (current_data w)) as [item|].
        -- destruct (is_live (clock w) item) eqn:Hlive.
           ++ split.
              ** intros [= <-]. split; [done|]. by exists item.
              ** intros (_ & item' & [= <-] & _ & ->). done.
           ++ split; [done|]. intros (_ & item' & [= <-] & Hlive' & _). congruence.
        -- split; [done|]. by intros (_ & item' & ? & _).
  - exists [], [].
    unfold getAllKeys, getAll, bind, storage_isAvailable, gets. rewrite Havail.
    rewrite (current_data_unavailable w Havail).
    split; [done|]. split; [done|]. split.
    + split; [intros Hin; by apply elem_of_nil in Hin | by intros (? & ? & _)].
    + intros v. split; [done | by intros (_ & ? & ? & _)].
Qed.
End Sweeps.

(** ** Updates, extensions and round trips *)

Section Updates.
Context {V : Type} `{!JSON V}.
Implicit Types (w : World V) (props : DataRecord V) (data : ref) (key : string).

Lemma deref_assigned key item w :
  deref (assigned key item w) (length (heap w)) = set_prop key item (current_data w).
Proof. unfold assigned. apply deref_new_object. Qed.

Lemma clock_recovered w : clock (recovered w) = clock w.
Proof. unfold recovered. by destruct (is_corrupted w). Qed.

Lemma clock_after_save data w : clock (after_save data w) = clock w.
Proof.
  unfold after_save. destruct (0 <? debounceMs (config w)); [done|].
  destruct (raw (storage w)); [|done].
  by destruct (encode (config w) (deref w data)).
Qed.

Lemma available_valid key w :
  validateKey key (raw (storage w)) = Ok tt → Storage_isAvailable (storage w) = true.
Proof.
  intros Hvalid. unfold Storage_isAvailable.
  by destruct (validateKey_available _ _ Hvalid) as [kind ->].
Qed.

(** A save of the record set made by assigning [item] to [key]. *)
Lemma assigned_saved w key item :
  validateKey key (raw (storage w)) = Ok tt →
  save_goes_through w (set_prop key item (current_data w)) = true →
  reads_back_as_written w (set_prop key item (current_data w)) →
  ∃ w', saveAllData (length (heap w)) (assigned key item w) = (Ok tt, w') ∧
        current_data w' = set_prop key item (current_data w) ∧
        raw (storage w') = raw (storage w) ∧
        clock w' = clock w.
Proof.
  intros Hvalid Hsave Hback.
  pose proof (available_valid key w Hvalid) as Havail.
  exists (after_save (length (heap w)) (assigned key item w)).
  assert (save_goes_through (assigned key item w)
            (deref (assigned key item w) (length (heap w))) = true) as Hsave'.
  { rewrite deref_assigned. unfold assigned.
    rewrite <- (save_goes_through_recovered w) in Hsave. exact Hsave. }
  split; [by apply saveAllData_through|].
  split; [|split].
  - rewrite current_data_after_save_exact; [apply deref_assigned| |done|].
    + unfold assigned, Storage_isAvailable. simpl. rewrite raw_recovered.
      exact Havail.
    + rewrite deref_assigned.
      destruct Hback as [Hpos|[Hdirty Hround]].
      * left. unfold assigned. simpl. by rewrite config_recovered.
      * right. unfold assigned. simpl. rewrite config_recovered.
        split; [|done]. unfold recovered. by destruct (is_corrupted w).
  - rewrite raw_after_save. unfold assigned. simpl. apply raw_recovered.
  - rewrite clock_after_save. unfold assigned. simpl. apply clock_recovered.
Qed.

Lemma hasItem_live w key item :
  validateKey key (raw (storage w)) = Ok tt →
  get_prop key (current_data w) = Some item →
  isExpired (clock w) (expiry item) = false →
  hasItem key w = (Ok true, set_heap (heap w ++ [current_data w]) w).
Proof.
  intros Hvalid Hget Hlive. unfold hasItem.
  rewrite (bind_ok (this_validateKey_ok key w Hvalid)).
  rewrite (bind_ok (getAllData_spec w)).
  rewrite (recovered_when_present w key item Hget).
  unfold bind at 1, read_object at 1. rewrite deref_new_object, Hget.
  unfold bind at 1, removeIfExpired, bind at 1, Date_now, gets at 1. simpl.
  by rewrite Hlive.
Qed.

Lemma updateItem_absent w key newValue :
  validateKey key (raw (storage w)) = Ok tt →
  get_prop key (current_data w) = None →
  updateItem key newValue w
  = (Ok false, set_heap (heap w ++ [current_data w]) (recovered w)).
Proof.
  intros Hvalid Hget. unfold updateItem.
  rewrite (bind_ok (this_validateKey_ok key w Hvalid)).
  rewrite (bind_ok (getAllData_spec w)).
  unfold bind at 1, read_object at 1. rewrite deref_new_object.
  by rewrite Hget.
Qed.

Lemma updateItem_expired w key newValue item :
  validateKey key (raw (storage w)) = Ok tt →
  get_prop key (current_data w) = Some item →
  isExpired (clock w) (expiry item) = true →
  updateItem key newValue w = (saveAllData (length (heap w)) ;; ret false) (purged key w).
Proof.
  intros Hvalid Hget Hpast. unfold updateItem.
  rewrite (bind_ok (this_validateKey_ok key w Hvalid)).
  rewrite (bind_ok (getAllData_spec w)).
  rewrite (recovered_when_present w key item Hget).
  unfold bind at 1, read_object at 1. rewrite deref_new_object, Hget.
  unfold bind at 1, removeIfExpired, bind at 1, Date_now, gets at 1. simpl.
  rewrite Hpast.
  unfold bind at 1, update_object, modify, ret. simpl.
  by rewrite alter_new_object.
Qed.

Lemma updateItem_live w key newValue item :
  validateKey key (raw (storage w)) = Ok tt →
  get_prop key (current_data w) = Some item →
  isExpired (clock w) (expiry item) = false →
  updateItem key newValue w
  = (saveAllData (length (heap w)) ;; ret true)
      (assigned key (mkStoredData newValue (expiry item)) w).
Proof.
  intros Hvalid Hget Hlive. unfold updateItem.
  rewrite (bind_ok (this_validateKey_ok key w Hvalid)).
  rewrite (bind_ok (getAllData_spec w)).
  unfold assigned.
  rewrite (recovered_when_present w key item Hget).
  unfold bind at 1, read_object at 1. rewrite deref_new_object, Hget.
  unfold bind at 1, removeIfExpired, bind at 1, Date_now, gets at 1. simpl.
  rewrite Hlive.
  unfold bind at 1, ret at 1.
  unfold bind at 1, update_object, modify. simpl.
  by rewrite alter_new_object.
Qed.

Lemma read_only_world w :
  let w' := set_heap (heap w ++ [current_data w]) (recovered w) in
  current_data w' = current_data w ∧ dirtyData w' = dirtyData w ∧
  pendingSave w' = pendingSave w ∧ timers w' = timers w ∧
  written (storage w') = written (storage w).
Proof.
  intros w'. subst w'.
  assert (dirtyData (recovered w) = dirtyData w) as Hd.
  { unfold recovered. by destruct (is_corrupted w). }
  destruct (timers_recovered w) as (Ht & Hp & _).
  split; [apply current_data_after_read|]. simpl.
  by rewrite Hd, Hp, Ht, written_recovered.
Qed.

(** X3.  [updateItem] replaces the value of a live item and keeps its
    expiry and its place, leaving every other entry as it was; on a key
    that is not stored, and is not a name every object inherits, it returns
    [false] and saves nothing; on an expired item it never returns
    [true]. *)
Theorem updateItem_keeps_the_expiry w key newValue :
  validateKey key (raw (storage w)) = Ok tt →
  (get_prop key (current_data w) = None →
   inherited key = false →
   ∃ w', updateItem key newValue w = (Ok false, w') ∧
         current_data w' = current_data w ∧ dirtyData w' = dirtyData w ∧
         pendingSave w' = pendingSave w ∧ timers w' = timers w ∧
         written (storage w') = written (storage w)) ∧
  (∀ item, get_prop key (current_data w) = Some item →
           isExpired (clock w) (expiry item) = true →
           (updateItem key newValue w).1 ≠ Ok true) ∧
  (∀ item, get_prop key (current_data w) = Some item →
           isExpired (clock w) (expiry item) = false →
           let updated :=
             set_prop key (mkStoredData newValue (expiry item)) (current_data w) in
           save_goes_through w updated = true →
           reads_back_as_written w updated →
           ∃ w', updateItem key newValue w = (Ok true, w') ∧
                 current_data w' = updated ∧
                 get_prop key updated = Some (mkStoredData newValue (expiry item)) ∧
                 Object_keys updated = Object_keys (current_data w) ∧
                 ∀ key', key' ≠ key →
                         get_prop key' updated = get_prop key' (current_data w)).
Proof.
  intros Hvalid. split; [|split].
  - intros Hget _. eexists. split; [by apply updateItem_absent|].
    apply read_only_world.
  - intros item Hget Hpast.
    rewrite (updateItem_expired w key newValue item Hvalid Hget Hpast).
    destruct (save_then_ret false (length (heap w)) (purged key w))
      as [->|(err & -> & _)]; done.
  - intros item Hget Hlive updated Hsave Hback.
    rewrite (updateItem_live w key newValue item Hvalid Hget Hlive).
    destruct (assigned_saved w key _ Hvalid Hsave Hback) as (w' & Hsaved & Hcur & _).
    exists w'. rewrite (bind_ok Hsaved).
    split; [done|]. split; [done|]. apply (set_prop_owned _ _ item); [|done].
    by apply (validateKey_not_proto _ _ Hvalid).
Qed.

Lemma extendTTL_absent w key delta :
  validateKey key (raw (storage w)) = Ok tt →
  0 < delta →
  get_prop key (current_data w) = None →
  extendTTL key (Finite delta) w
  = (Ok false, set_heap (heap w ++ [current_data w]) (recovered w)).
Proof.
  intros Hvalid Hpos Hget. unfold extendTTL.
  rewrite (bind_ok (this_validateKey_ok key w Hvalid)).
  simpl. rewrite (proj2 (Z.leb_gt _ _)) by lia.
  rewrite (bind_ok (getAllData_spec w)).
  unfold bind at 1, read_object at 1. rewrite deref_new_object.
  by rewrite Hget.
Qed.

Lemma extendTTL_expired w key delta item :
  validateKey key (raw (storage w)) = Ok tt →
  0 < delta →
  get_prop key (current_data w) = Some item →
  isExpired (clock w) (expiry item) = true →
  extendTTL key (Finite delta) w
  = (saveAllData (length (heap w)) ;; ret false) (purged key w).
Proof.
  intros Hvalid Hpos Hget Hpast. unfold extendTTL.
  rewrite (bind_ok (this_validateKey_ok key w Hvalid)).
  simpl. rewrite (proj2 (Z.leb_gt _ _)) by lia.
  rewrite (bind_ok (getAllData_spec w)).
  rewrite (recovered_when_present w key item Hget).
  unfold bind at 1, read_object at 1. rewrite deref_new_object, Hget.
  unfold bind at 1, removeIfExpired, bind at 1, Date_now, gets at 1. simpl.
  rewrite Hpast.
  unfold bind at 1, update_object, modify, ret. simpl.
  by rewrite alter_new_object.
Qed.

Lemma extendTTL_live w key delta item :
  validateKey key (raw (storage w)) = Ok tt →
  0 < delta →
  get_prop key (current_data w) = Some item →
  isExpired (clock w) (expiry item) = false →
  extendTTL key (Finite delta) w
  = (saveAllData (length (heap w)) ;; ret true)
      (assigned key (mkStoredData (value item)
                       (Some (extended_expiry (clock w) item delta))) w).
Proof.
  intros Hvalid Hpos Hget Hlive. unfold extendTTL.
  rewrite (bind_ok (this_validateKey_ok key w Hvalid)).
  simpl. rewrite (proj2 (Z.leb_gt _ _)) by lia.
  rewrite (bind_ok (getAllData_spec w)).
  unfold assigned.
  rewrite (recovered_when_present w key item Hget).
  unfold bind at 1, read_object at 1. rewrite deref_new_object, Hget.
  unfold bind at 1, removeIfExpired, bind at 1, Date_now, gets at 1. simpl.
  rewrite Hlive.
  unfold bind at 1, ret at 1.
  unfold bind at 1, Date_now, gets at 1.
  unfold bind at 1, update_object, modify. simpl.
  by rewrite alter_new_object.
Qed.

(** X4.  [extendTTL] refuses an amount that is not a positive finite
    number and changes nothing then.  Otherwise it moves the expiry of a
    live item by the amount (the sum being one of safe integers), counts
    from the clock for an item that had none, keeps the value, the place of
    the item and every other entry, and returns [false] without saving on a
    key that is not stored and is not a name every object inherits. *)
Theorem extendTTL_moves_the_expiry w key :
  validateKey key (raw (storage w)) = Ok tt →
  (∀ t, Number_isFinite t = false ∨ number_leb0 t = true →
        extendTTL key t w
        = (Err (Error "additionalTTL must be a positive finite number."), w)) ∧
  (∀ delta, 0 < delta →
     (get_prop key (current_data w) = None →
      inherited key = false →
      ∃ w', extendTTL key (Finite delta) w = (Ok false, w') ∧
            current_data w' = current_data w ∧ dirtyData w' = dirtyData w ∧
            pendingSave w' = pendingSave w ∧ timers w' = timers w ∧
            written (storage w') = written (storage w)) ∧
     (∀ item, get_prop key (current_data w) = Some item →
              isExpired (clock w) (expiry item) = true →
              (extendTTL key (Finite delta) w).1 ≠ Ok true) ∧
     (∀ item, get_prop key (current_data w) = Some item →
              isExpired (clock w) (expiry item) = false →
              extends_exactly (clock w) item delta →
              let extended :=
                set_prop key
                  (mkStoredData (value item)
                     (Some (extended_expiry (clock w) item delta)))
                  (current_data w) in
              save_goes_through w extended = true →
              reads_back_as_written w extended →
              ∃ w', extendTTL key (Finite delta) w = (Ok true, w') ∧
                    current_data w' = extended ∧
                    get_prop key extended
                    = Some (mkStoredData (value item)
                              (Some (extended_expiry (clock w) item delta))) ∧
                    Object_keys extended = Object_keys (current_data w) ∧
                    ∀ key', key' ≠ key →
                            get_prop key' extended = get_prop key' (current_data w))).
Proof.
  intros Hvalid. split.
  - intros t Ht. unfold extendTTL.
    rewrite (bind_ok (this_validateKey_ok key w Hvalid)).
    destruct t as [z| | |]; try done.
    destruct Ht as [Ht|Ht]; [done|]. by rewrite Ht.
  - intros delta Hpos. split; [|split].
    + intros Hget _. eexists. split; [by apply extendTTL_absent|].
      apply read_only_world.
    + intros item Hget Hpast.
      rewrite (extendTTL_expired w key delta item Hvalid Hpos Hget Hpast).
      destruct (save_then_ret false (length (heap w)) (purged key w))
        as [->|(err & -> & _)]; done.
    + intros item Hget Hlive _ extended Hsave Hback.
      rewrite (extendTTL_live w key delta item Hvalid Hpos Hget Hlive).
      destruct (assigned_saved w key _ Hvalid Hsave Hback) as (w' & Hsaved & Hcur & _).
      exists w'. rewrite (bind_ok Hsaved).
      split; [done|]. split; [done|]. apply (set_prop_owned _ _ item); [|done].
      by apply (validateKey_not_proto _ _ Hvalid).
Qed.

Lemma current_data_set_clock t w : current_data (set_clock t w) = current_data w.
Proof. done. Qed.

(** X5.  Round trip: after [setItem] with no TTL or a positive one,
    [getItem] returns the value, and every other key reads as before. *)
Theorem setItem_then_getItem w key v ttl :
  validateKey key (raw (storage w)) = Ok tt →
  stores ttl →
  save_goes_through w
    (set_prop key (mkStoredData v (expiry_for (clock w) ttl)) (current_data w)) = true →
  reads_back_as_written w
    (set_prop key (mkStoredData v (expiry_for (clock w) ttl)) (current_data w)) →
  ((setItem key v ttl ;; getItem key) w).1 = Ok (Some v) ∧
  ∀ key', key' ≠ key →
    get_prop key' (current_data (setItem key v ttl w).2) = get_prop key' (current_data w).
Proof.
  intros Hvalid Httl Hsave Hback.
  destruct (assigned_saved w key _ Hvalid Hsave Hback)
    as (w' & Hsaved & Hcur & Hraw & Hclock).
  assert (setItem key v ttl w = (Ok true, w')) as Hset.
  { rewrite (setItem_stores w key v ttl Hvalid Httl). by rewrite (bind_ok Hsaved). }
  split.
  - rewrite (bind_ok Hset).
    rewrite (getItem_live w' key (mkStoredData v (expiry_for (clock w) ttl))).
    + done.
    + by rewrite Hraw.
    + rewrite Hcur. apply get_prop_set_prop. by apply (validateKey_not_proto _ _ Hvalid).
    + rewrite Hclock. simpl.
      destruct Httl as [->|(z & -> & Hz)]; simpl; [done|].
      apply Z.ltb_ge. lia.
  - intros key' Hne. rewrite Hset. simpl. rewrite Hcur.
    by apply get_prop_set_prop_ne.
Qed.

(** X6.  An item stored with a TTL is never returned once more than
    that time has passed: [getItem] gives [null] or throws on the save of
    the purge, [hasItem] never gives [true], and [getAllKeys] leaves the
    key out. *)
Theorem item_expires_after_its_ttl w key v z ms :
  validateKey key (raw (storage w)) = Ok tt →
  0 < z → z < ms →
  save_goes_through w
    (set_prop key (mkStoredData v (Some (clock w + z))) (current_data w)) = true →
  reads_back_as_written w
    (set_prop key (mkStoredData v (Some (clock w + z))) (current_data w)) →
  (∀ v', ((setItem key v (Some (Finite z)) ;; clock_advances ms ;; getItem key) w).1
         ≠ Ok (Some v')) ∧
  ((setItem key v (Some (Finite z)) ;; clock_advances ms ;; hasItem key) w).1 ≠ Ok true ∧
  (∃ keys, ((setItem key v (Some (Finite z)) ;; clock_advances ms ;; getAllKeys) w).1
           = Ok keys ∧ key ∉ keys).
Proof.
  intros Hvalid Hz Hms Hsave Hback.
  assert (stores (Some (Finite z))) as Httl by (right; eauto).
  destruct (assigned_saved w key _ Hvalid Hsave Hback)
    as (w' & Hsaved & Hcur & Hraw & Hclock).
  assert (setItem key v (Some (Finite z)) w = (Ok true, w')) as Hset.
  { rewrite (setItem_stores w key v _ Hvalid Httl). by rewrite (bind_ok Hsaved). }
  set (w2 := set_clock (clock w' + ms) w').
  assert (validateKey key (raw (storage w2)) = Ok tt) as Hvalid2 by (by rewrite <- Hraw in Hvalid).
  assert (get_prop key (current_data w2) = Some (mkStoredData v (Some (clock w + z))))
    as Hget2.
  { unfold w2. rewrite current_data_set_clock, Hcur. apply get_prop_set_prop.
    by apply (validateKey_not_proto _ _ Hvalid). }
  assert (clock w + z < clock w2) as Hpast by (unfold w2; simpl; lia).
  rewrite !(bind_ok Hset).
  assert (∀ A (m : M V A), (clock_advances ms ;; m) w' = m w2) as Hclk by done.
  rewrite !Hclk.
  split; [|split].
  - intros v'.
    rewrite (getItem_expired w2 key _ _ Hvalid2 Hget2 eq_refl Hpast).
    destruct (save_then_ret (@None V) (length (heap w2)) (purged key w2))
      as [->|(err & -> & _)]; done.
  - rewrite (hasItem_expired w2 key _ _ Hvalid2 Hget2 eq_refl Hpast).
    destruct (save_then_ret false (length (heap w2)) (purged key w2))
      as [->|(err & -> & _)]; done.
  - rewrite getAllKeys_spec by (by apply (available_valid key)).
    eexists. split; [done|].
    intros Hin. apply live_keys_elem in Hin as (item & Hget & Hlive).
    rewrite Hget2 in Hget. injection Hget as <-.
    unfold is_live in Hlive. simpl in Hlive. apply Z.leb_le in Hlive. lia.
Qed.

(** X7.  At the instant [Date.now()] equals the expiry, the item is
    still live for [getItem], [hasItem] and [getAllKeys], while
    [getRemainingTTL] takes it for expired: it never reports a remaining
    time and deletes the item. *)
Theorem expiry_instant_is_read_two_ways w key item :
  validateKey key (raw (storage w)) = Ok tt →
  get_prop key (current_data w) = Some item →
  expiry item = Some (clock w) →
  (getItem key w).1 = Ok (Some (value item)) ∧
  (hasItem key w).1 = Ok true ∧
  (∃ keys, (getAllKeys w).1 = Ok keys ∧ key ∈ keys) ∧
  (∀ ttl, (getRemainingTTL key w).1 ≠ Ok (Some ttl)) ∧
  (save_goes_through w (delete_prop key (current_data w)) = true →
   (getRemainingTTL key w).1 = Ok None ∧
   (reads_back w (delete_prop key (current_data w)) →
    get_prop key (current_data (getRemainingTTL key w).2) = None)).
Proof.
  intros Hvalid Hget He.
  pose proof (available_valid key w Hvalid) as Havail.
  assert (isExpired (clock w) (expiry item) = false) as Hlive.
  { rewrite He. simpl. apply Z.ltb_ge. lia. }
  split; [by rewrite (getItem_live w key item)|].
  split; [by rewrite (hasItem_live w key item)|].
  split.
  { rewrite getAllKeys_spec by done. eexists. split; [done|].
    apply (live_keys_complete _ _ _ item); [done|].
    unfold is_live. rewrite He. apply Z.leb_le. lia. }
  rewrite (getRemainingTTL_expired w key item (clock w)) by (done || lia).
  split.
  - intros ttl.
    destruct (save_then_ret (@None Z) (length (heap w)) (purged key w))
      as [->|(err & -> & _)]; done.
  - intros Hsave.
    assert (save_goes_through (purged key w) (deref (purged key w) (length (heap w))) = true)
      as Hsave' by (by rewrite deref_purged).
    rewrite (bind_ok (saveAllData_through _ _ Hsave')). cbn [ret fst snd].
    split; [done|]. intros Hback.
    destruct (current_data_after_save (length (heap w)) (purged key w)) as [-> | ->];
      auto.
    + by rewrite deref_purged.
    + rewrite deref_purged. apply get_prop_delete_prop.
Qed.
End Updates.

Lemma updateItem_keeps_the_expiry_witness :
  validateKey "b" (raw (storage (stale_vault 0))) = Ok tt ∧
  (updateItem "b" 9 (stale_vault 0)).1 = Ok true ∧
  get_prop "b" (current_data (updateItem "b" 9 (stale_vault 0)).2)
  = Some (mkStoredData 9 None) ∧
  get_prop "a" (current_data (updateItem "b" 9 (stale_vault 0)).2)
  = Some (mkStoredData 1 (Some 5)).
Proof.
  assert (validateKey "b" (raw (storage (stale_vault 0))) = Ok tt) as Hvalid
    by (vm_compute; reflexivity).
  pose proof (updateItem_keeps_the_expiry (stale_vault 0) "b" 9 Hvalid) as (_ & _ & Hlive).
  destruct (Hlive (mkStoredData 2 None)) as (w' & Hrun & Hcur & _).
  - vm_compute; reflexivity.
  - vm_compute; reflexivity.
  - vm_compute; reflexivity.
  - right. split; [reflexivity|]. intros text Henc.
    vm_compute in Henc. injection Henc as <-. split; [discriminate|].
    vm_compute. reflexivity.
  - split; [exact Hvalid|]. rewrite Hrun. cbn [fst snd]. rewrite Hcur.
    split; [reflexivity|]. split; vm_compute; reflexivity.
Defined.

Lemma extendTTL_moves_the_expiry_witness :
  validateKey "b" (raw (storage (stale_vault 0))) = Ok tt ∧
  extendTTL "b" NaN (stale_vault 0)
  = (Err (Error "additionalTTL must be a positive finite number."), stale_vault 0) ∧
  (extendTTL "b" (Finite 5) (stale_vault 0)).1 = Ok true ∧
  get_prop "b" (current_data (extendTTL "b" (Finite 5) (stale_vault 0)).2)
  = Some (mkStoredData 2 (Some 15)).
Proof.
  assert (validateKey "b" (raw (storage (stale_vault 0))) = Ok tt) as Hvalid
    by (vm_compute; reflexivity).
  pose proof (extendTTL_moves_the_expiry (stale_vault 0) "b" Hvalid) as (Hbad & Hgood).
  destruct (Hgood 5 ltac:(lia)) as (_ & _ & Hlive).
  destruct (Hlive (mkStoredData 2 None)) as (w' & Hrun & Hcur & _).
  - vm_compute; reflexivity.
  - vm_compute; reflexivity.
  - repeat split; vm_compute; reflexivity.
  - vm_compute; reflexivity.
  - right. split; [reflexivity|]. intros text Henc.
    vm_compute in Henc. injection Henc as <-. split; [discriminate|].
    vm_compute. reflexivity.
  - split; [exact Hvalid|]. split; [apply Hbad; left; reflexivity|].
    rewrite Hrun. cbn [fst snd]. rewrite Hcur.
    split; [reflexivity|]. vm_compute; reflexivity.
Defined.

Lemma setItem_then_getItem_witness :
  validateKey "k" (raw (storage (empty_vault 0))) = Ok tt ∧
  ((setItem "k" 7 (Some (Finite 3)) ;; getItem "k") (empty_vault 0)).1 = Ok (Some 7).
Proof.
  assert (validateKey "k" (raw (storage (empty_vault 0))) = Ok tt) as Hvalid
    by (vm_compute; reflexivity).
  split; [exact Hvalid|].
  apply (setItem_then_getItem (empty_vault 0) "k" 7 (Some (Finite 3)) Hvalid).
  - right. exists 3. split; [reflexivity|lia].
  - vm_compute; reflexivity.
  - right. split; [reflexivity|]. intros text Henc.
    vm_compute in Henc. injection Henc as <-. split; [discriminate|].
    vm_compute. reflexivity.
Defined.

Lemma item_expires_after_its_ttl_witness :
  validateKey "k" (raw (storage (empty_vault 0))) = Ok tt ∧
  ∀ v', ((setItem "k" 7 (Some (Finite 3)) ;; clock_advances 4 ;; getItem "k")
           (empty_vault 0)).1 ≠ Ok (Some v').
Proof.
  assert (validateKey "k" (raw (storage (empty_vault 0))) = Ok tt) as Hvalid
    by (vm_compute; reflexivity).
  split; [exact Hvalid|].
  apply (item_expires_after_its_ttl (empty_vault 0) "k" 7 3 4 Hvalid).
  - lia.
  - lia.
  - vm_compute; reflexivity.
  - right. split; [reflexivity|]. intros text Henc.
    vm_compute in Henc. injection Henc as <-. split; [discriminate|].
    vm_compute. reflexivity.
Defined.

Lemma expiry_instant_is_read_two_ways_witness :
  validateKey "c" (raw (storage (due_vault 0))) = Ok tt ∧
  (getItem "c" (due_vault 0)).1 = Ok (Some 3) ∧
  (getRemainingTTL "c" (due_vault 0)).1 = Ok None.
Proof.
  assert (validateKey "c" (raw (storage (due_vault 0))) = Ok tt) as Hvalid
    by (vm_compute; reflexivity).
  assert (get_prop "c" (current_data (due_vault 0)) = Some (mkStoredData 3 (Some 10)))
    as Hget by (vm_compute; reflexivity).
  pose proof (expiry_instant_is_read_two_ways (due_vault 0) "c" _ Hvalid Hget eq_refl)
    as (Hitem & _ & _ & _ & Hsaved).
  split; [exact Hvalid|]. split; [exact Hitem|].
  apply Hsaved. vm_compute; reflexivity.
Defined.

(** ** What a save leaves alone *)

Section Frames.
Context {V : Type} `{!JSON V}.
Implicit Types (w : World V) (props : DataRecord V) (data : ref) (key : string).

Lemma keeps_modify {S} (P : S → Prop) (f : S → S) :
  (∀ s, P s → P (f s)) → keeps P (modify f).
Proof. intros Hf s Hs. by apply Hf. Qed.

Lemma keeps_try_finally {S A} (P : S → Prop) (body : Eff S A) final :
  keeps P body → keeps P final → keeps P (try_finally body final).
Proof.
  intros Hbody Hfinal s Hs. unfold try_finally.
  specialize (Hbody s Hs). destruct (body s) as [r s1]. simpl in Hbody.
  specialize (Hfinal s1 Hbody). by destruct (final s1) as [[?|?] s2].
Qed.

Lemma bind_gets {S A B} (f : S → A) (k : A → Eff S B) (s : S) :
  bind (gets f) k s = k (f s) s.
Proof. done. Qed.

Lemma bind_modify {S B} (f : S → S) (k : unit → Eff S B) (s : S) :
  bind (modify f) k s = k tt (f s).
Proof. done. Qed.

Lemma bind_unfold {S A B} (m : Eff S A) (k : A → Eff S B) (s : S) :
  bind m k s = match m s with
               | (Ok a, s') => k a s'
               | (Err e, s') => (Err e, s')
               end.
Proof. done. Qed.

Lemma keeps_and {S A} (P Q : S → Prop) (m : Eff S A) :
  keeps P m → keeps Q m → keeps (λ s, P s ∧ Q s) m.
Proof. intros HP HQ s [Hp Hq]. split; [by apply HP | by apply HQ]. Qed.

Lemma set_heap_only w h : set_heap h w = set_storage (storage w) (set_heap h w).
Proof. by destruct w. Qed.

Lemma set_storage_only w st : set_storage st w = set_storage st (set_heap (heap w) w).
Proof. by destruct w. Qed.

Section Insensitive.
Variable P : World V → Prop.
Hypothesis P_ignores : ignores_heap_storage P.

Lemma keeps_set_heap w h : P w → P (set_heap h w).
Proof. intros Hw. rewrite set_heap_only. by apply P_ignores. Qed.

Lemma keeps_set_storage w st : P w → P (set_storage st w).
Proof. intros Hw. rewrite set_storage_only. by apply P_ignores. Qed.

Lemma keeps_new_object props : keeps P (new_object props).
Proof. intros w Hw. by apply keeps_set_heap. Qed.

Lemma keeps_read_object data : keeps P (read_object data).
Proof. by intros w Hw. Qed.

Lemma keeps_update_object data f : keeps P (update_object data f).
Proof. intros w Hw. by apply keeps_set_heap. Qed.

Lemma keeps_storage_write key text : keeps P (storage_write key text).
Proof.
  intros w Hw. unfold storage_write.
  destruct (Storage_write key text (storage w)) as [r st]. by apply keeps_set_storage.
Qed.

Lemma keeps_storage_remove key : keeps P (storage_remove key).
Proof. intros w Hw. by apply keeps_set_storage. Qed.

Lemma keeps_this_validateKey key : keeps P (this_validateKey key).
Proof.
  intros w Hw. unfold this_validateKey, bind, storage_getStorage, gets, lift.
  done.
Qed.

Lemma keeps_getAllData : keeps P getAllData.
Proof. intros w Hw. rewrite getAllData_spec. simpl. apply keeps_set_heap.
  unfold recovered. destruct (is_corrupted w); [|done]. by apply keeps_set_storage.
Qed.

Lemma keeps_enforceItemLimit data : keeps P (enforceItemLimit data).
Proof.
  unfold enforceItemLimit.
  apply keeps_bind; [apply keeps_read_object|intros props].
  apply keeps_bind; [apply keeps_gets|intros maxItems]. cbv zeta.
  destruct (_ <=? _)%nat; [apply keeps_ret|].
  apply keeps_for_each. intros i.
  destruct (_ !! i); [apply keeps_update_object|apply keeps_ret].
Qed.

Lemma keeps_removeIfExpired key item data : keeps P (removeIfExpired key item data).
Proof.
  unfold removeIfExpired. destruct item as [item|]; [|apply keeps_ret].
  apply keeps_bind; [apply keeps_gets|intros now].
  destruct (isExpired now (expiry item)); [|apply keeps_ret].
  apply keeps_bind; [apply keeps_update_object|intros _]. apply keeps_ret.
Qed.

Lemma keeps_saveAllDataImmediate_body handler data :
  (∀ e, keeps P (handler e)) → keeps P (saveAllDataImmediate_body handler data).
Proof.
  intros Hhandler. unfold saveAllDataImmediate_body.
  apply keeps_bind; [apply keeps_gets|intros [kind|]]; [|apply keeps_ret].
  apply keeps_bind.
  { destruct kind; [apply keeps_ret|].
    apply keeps_bind; [apply keeps_read_object|intros props].
    apply keeps_bind; [apply keeps_gets|intros maxItems].
    destruct (_ <? _)%nat; [apply keeps_enforceItemLimit|apply keeps_ret]. }
  intros _.
  apply keeps_bind; [apply keeps_gets|intros skey].
  apply keeps_bind; [apply keeps_gets|intros chain].
  apply keeps_try_catch; [|done].
  apply keeps_bind; [apply keeps_read_object|intros props].
  apply keeps_bind; [apply keeps_lift|intros dataStr].
  apply keeps_bind; [apply keeps_lift|intros transformedStr].
  apply keeps_storage_write.
Qed.

Lemma keeps_cleanupExpiredItems_body save :
  (∀ data, keeps P (save data)) → keeps P (cleanupExpiredItems_body save).
Proof.
  intros Hsave. unfold cleanupExpiredItems_body.
  apply keeps_bind; [apply keeps_gets|intros available].
  destruct (negb available); [apply keeps_ret|].
  apply keeps_bind; [apply keeps_getAllData|intros data].
  apply keeps_bind; [apply keeps_gets|intros now].
  apply keeps_bind; [apply keeps_read_object|intros props].
  apply keeps_bind.
  { apply keeps_fold_each. intros k count.
    apply keeps_bind; [apply keeps_read_object|intros current].
    destruct (get_prop k current) as [item|]; [|apply keeps_ret].
    destruct (expiry item) as [e|]; [|apply keeps_ret].
    destruct (e <? now); [|apply keeps_ret].
    apply keeps_bind; [apply keeps_update_object|intros _]. apply keeps_ret. }
  intros count.
  apply keeps_bind; [|intros _; apply keeps_ret].
  destruct (0 <? count)%nat; [apply Hsave|apply keeps_ret].
Qed.

Lemma keeps_retry :
  keeps P (freshData <- getAllData ;;
           props <- read_object freshData ;;
           key <- this_storageKey ;;
           chain <- this_transformChain ;;
           dataStr <- lift (JSON_stringify props) ;;
           transformedStr <- lift (chain_apply chain dataStr) ;;
           storage_write key transformedStr).
Proof.
  apply keeps_bind; [apply keeps_getAllData|intros data].
  apply keeps_bind; [apply keeps_read_object|intros props].
  apply keeps_bind; [apply keeps_gets|intros skey].
  apply keeps_bind; [apply keeps_gets|intros chain].
  apply keeps_bind; [apply keeps_lift|intros dataStr].
  apply keeps_bind; [apply keeps_lift|intros transformedStr].
  apply keeps_storage_write.
Qed.

(** With a property that [isCleaningUp] has no part in either. *)
Hypothesis P_ignores_flag : ignores_flag P.

Lemma keeps_handleSaveError_body cleanup e :
  keeps P cleanup → keeps P (handleSaveError_body cleanup e).
Proof.
  intros Hcleanup. unfold handleSaveError_body.
  destruct (isQuotaExceededError e).
  - apply keeps_bind; [apply keeps_gets|intros cleaning].
    destruct (negb cleaning); [|apply keeps_throw].
    apply keeps_bind; [apply keeps_modify; intros w; apply P_ignores_flag|intros _].
    apply keeps_try_finally; [|apply keeps_modify; intros w; apply P_ignores_flag].
    apply keeps_try_catch; [|intros _; apply keeps_throw].
    apply keeps_bind; [done|intros _]. apply keeps_retry.
  - destruct (isCircularReferenceError e); apply keeps_throw.
Qed.

Lemma keeps_saveAllDataImmediate_at depth data :
  keeps P (saveAllDataImmediate_at depth data).
Proof.
  revert data. induction depth as [|depth IH]; intros data; [apply keeps_throw|].
  simpl. apply keeps_saveAllDataImmediate_body. intros e.
  apply keeps_handleSaveError_body. by apply keeps_cleanupExpiredItems_body.
Qed.
End Insensitive.

(** [isCleaningUp] is unset again when [handleSaveError] is left, whatever
    the cleanup did. *)
Lemma handleSaveError_body_resets_the_flag cleanup e :
  keeps (λ w, isCleaningUp w = false) (handleSaveError_body cleanup e).
Proof.
  intros w Hw. unfold handleSaveError_body.
  destruct (isQuotaExceededError e).
  - unfold bind at 1, gets at 1. rewrite Hw. simpl negb. cbv iota.
    unfold bind at 1, modify at 1, try_finally. cbn [negb].
    match goal with |- context [try_catch ?b ?h ?s] => destruct (try_catch b h s) as [r w1] end.
    by unfold modify.
  - by destruct (isCircularReferenceError e).
Qed.

Lemma flag_ignores_heap_storage b :
  ignores_heap_storage (λ w, isCleaningUp w = b).
Proof. by intros w h st Hw. Qed.

Lemma saveAllDataImmediate_at_resets_the_flag depth data :
  keeps (λ w, isCleaningUp w = false) (saveAllDataImmediate_at depth data).
Proof.
  destruct depth as [|depth]; [apply keeps_throw|]. simpl.
  apply keeps_saveAllDataImmediate_body; [apply flag_ignores_heap_storage|].
  intros e. apply handleSaveError_body_resets_the_flag.
Qed.

(** ** The nesting of the recovery *)

Lemma handleSaveError_body_cleaning cleanup1 cleanup2 e w :
  isCleaningUp w = true →
  handleSaveError_body cleanup1 e w = handleSaveError_body cleanup2 e w.
Proof.
  intros Hw. unfold handleSaveError_body.
  destruct (isQuotaExceededError e); [|done].
  rewrite !bind_gets. by rewrite Hw.
Qed.

Lemma saveAllDataImmediate_body_cleaning cleanup1 cleanup2 data w :
  isCleaningUp w = true →
  saveAllDataImmediate_body (handleSaveError_body cleanup1) data w
  = saveAllDataImmediate_body (handleSaveError_body cleanup2) data w.
Proof.
  intros Hw. unfold saveAllDataImmediate_body.
  pose proof (flag_ignores_heap_storage true) as Hflag.
  apply (bind_ext_keeps (λ w, isCleaningUp w = true)); [done|apply keeps_gets|].
  intros [kind|] w1 Hw1; [|done].
  apply (bind_ext_keeps (λ w, isCleaningUp w = true)); [done| |].
  { destruct kind; [apply keeps_ret|].
    apply keeps_bind; [by apply keeps_read_object|intros props].
    apply keeps_bind; [apply keeps_gets|intros maxItems].
    destruct (_ <? _)%nat; [by apply keeps_enforceItemLimit|apply keeps_ret]. }
  intros _ w2 Hw2.
  apply (bind_ext_keeps (λ w, isCleaningUp w = true)); [done|apply keeps_gets|].
  intros skey w3 Hw3.
  apply (bind_ext_keeps (λ w, isCleaningUp w = true)); [done|apply keeps_gets|].
  intros chain w4 Hw4.
  apply (try_catch_ext_keeps (λ w, isCleaningUp w = true)); [done| |].
  { apply keeps_bind; [by apply keeps_read_object|intros props].
    apply keeps_bind; [apply keeps_lift|intros dataStr].
    apply keeps_bind; [apply keeps_lift|intros transformedStr].
    by apply keeps_storage_write. }
  intros e w5 Hw5. by apply handleSaveError_body_cleaning.
Qed.

Lemma cleanupExpiredItems_body_cleaning save1 save2 w :
  isCleaningUp w = true →
  (∀ data w', isCleaningUp w' = true → save1 data w' = save2 data w') →
  cleanupExpiredItems_body save1 w = cleanupExpiredItems_body save2 w.
Proof.
  intros Hw Hsave. unfold cleanupExpiredItems_body.
  pose proof (flag_ignores_heap_storage true) as Hflag.
  apply (bind_ext_keeps (λ w, isCleaningUp w = true)); [done|apply keeps_gets|].
  intros available w1 Hw1. destruct (negb available); [done|].
  apply (bind_ext_keeps (λ w, isCleaningUp w = true)); [done|by apply keeps_getAllData|].
  intros data w2 Hw2.
  apply (bind_ext_keeps (λ w, isCleaningUp w = true)); [done|apply keeps_gets|].
  intros now w3 Hw3.
  apply (bind_ext_keeps (λ w, isCleaningUp w = true)); [done|by apply keeps_read_object|].
  intros props w4 Hw4.
  apply (bind_ext_keeps (λ w, isCleaningUp w = true)); [done| |].
  { apply keeps_fold_each. intros k count.
    apply keeps_bind; [by apply keeps_read_object|intros current].
    destruct (get_prop k current) as [item|]; [|apply keeps_ret].
    destruct (expiry item) as [e|]; [|apply keeps_ret].
    destruct (e <? now); [|apply keeps_ret].
    apply keeps_bind; [by apply keeps_update_object|intros _]. apply keeps_ret. }
  intros count w5 Hw5.
  destruct (0 <? count)%nat; [|done].
  unfold bind. by rewrite Hsave.
Qed.

Lemma saveAllDataImmediate_at_cleaning depth1 depth2 data w :
  isCleaningUp w = true →
  saveAllDataImmediate_at (S depth1) data w = saveAllDataImmediate_at (S depth2) data w.
Proof. intros Hw. simpl. by apply saveAllDataImmediate_body_cleaning. Qed.

Lemma handleSaveError_body_depth depth e w :
  handleSaveError_body (cleanupExpiredItems_body (saveAllDataImmediate_at (S depth))) e w
  = handleSaveError_body (cleanupExpiredItems_body (saveAllDataImmediate_at 1)) e w.
Proof.
  destruct (isCleaningUp w) eqn:Hw; [by apply handleSaveError_body_cleaning|].
  unfold handleSaveError_body.
  destruct (isQuotaExceededError e); [|done].
  rewrite !bind_gets, Hw. cbn [negb]. rewrite !bind_modify.
  unfold try_finally, try_catch.
  rewrite !(bind_unfold (cleanupExpiredItems_body _)).
  rewrite (cleanupExpiredItems_body_cleaning
             (saveAllDataImmediate_at (S depth)) (saveAllDataImmediate_at 1)); [done|done|].
  intros data w' Hw'. by apply saveAllDataImmediate_at_cleaning.
Qed.

(** The nesting the model allows is enough: a deeper call stack gives the
    same result. *)
Lemma saveAllDataImmediate_depth depth data w :
  saveAllDataImmediate_at (S (S depth)) data w = saveAllDataImmediate data w.
Proof.
  unfold saveAllDataImmediate.
  change (saveAllDataImmediate_at (S (S depth)) data w)
    with (saveAllDataImmediate_body
            (handleSaveError_body
               (cleanupExpiredItems_body (saveAllDataImmediate_at (S depth)))) data w).
  change (saveAllDataImmediate_at 2 data w)
    with (saveAllDataImmediate_body
            (handleSaveError_body
               (cleanupExpiredItems_body (saveAllDataImmediate_at 1))) data w).
  unfold saveAllDataImmediate_body.
  apply (bind_ext_keeps (λ _, True)); [done|done|].
  intros [kind|] w1 _; [|done].
  apply (bind_ext_keeps (λ _, True)); [done|done|]. intros _ w2 _.
  apply (bind_ext_keeps (λ _, True)); [done|done|]. intros skey w3 _.
  apply (bind_ext_keeps (λ _, True)); [done|done|]. intros chain w4 _.
  apply (try_catch_ext_keeps (λ _, True)); [done|done|].
  intros e w5 _. apply handleSaveError_body_depth.
Qed.
End Frames.

(** ** The state between two calls *)

Section Settled.
Context {V : Type} `{!JSON V}.
Implicit Types (w : World V) (props : DataRecord V) (data : ref) (key : string).
Local Abbreviation settled := (settled (V := V)).
Local Abbreviation scheduled_as_held := (scheduled_as_held (V := V)).

Lemma scheduled_as_held_ignores :
  ignores_heap_storage (V := V) scheduled_as_held ∧
  ignores_flag (V := V) scheduled_as_held.
Proof. split; by intros w ? ?. Qed.

Lemma settled_ignores : ignores_heap_storage (V := V) settled.
Proof. by intros w h st Hw. Qed.

Lemma settled_split w : settled w ↔ scheduled_as_held w ∧ isCleaningUp w = false.
Proof. unfold settled, scheduled_as_held. tauto. Qed.

Lemma keeps_settled_saveAllDataImmediate data :
  keeps settled (saveAllDataImmediate data).
Proof.
  intros w Hw. apply settled_split in Hw as [Hheld Hflag]. apply settled_split. split.
  - exact (keeps_saveAllDataImmediate_at scheduled_as_held
             (proj1 scheduled_as_held_ignores) (proj2 scheduled_as_held_ignores)
             2 data w Hheld).
  - exact (saveAllDataImmediate_at_resets_the_flag 2 data w Hflag).
Qed.

Lemma keeps_settled_saveAllData data : keeps settled (saveAllData data).
Proof.
  intros w Hw.
  destruct (decide (0 < debounceMs (config w))) as [Hpos|Hle].
  - rewrite saveAllData_debounced by done. destruct Hw as (Htimers & Hflag & _).
    unfold settled, debounced, timers_of_engine in *. simpl.
    split; [|split; [done|lia]].
    destruct (pendingSave w) as [t|]; rewrite Htimers; [|done].
    by rewrite filter_other_timer.
  - rewrite saveAllData_immediate by lia. by apply keeps_settled_saveAllDataImmediate.
Qed.

(** The cancelling of a pending save, in [flush], [clear] and [cleanup]. *)
Lemma keeps_settled_cancel {A} (rest : M V A) :
  keeps settled rest →
  keeps settled
    (pending <- gets pendingSave ;;
     (match pending with
      | Some t => clearTimeout t ;; modify (set_pendingSave None)
      | None => ret tt
      end) ;;
     rest).
Proof.
  intros Hrest w Hw. rewrite bind_gets.
  destruct (pendingSave w) as [t|] eqn:Hpending; [|by apply Hrest].
  apply Hrest. destruct Hw as (Htimers & Hflag & Hdirty).
  unfold settled, timers_of_engine in *. rewrite Hpending in Htimers. simpl.
  by rewrite Htimers, filter_other_timer.
Qed.

Lemma keeps_settled_flush_buffer :
  keeps settled
    (dirty <- gets dirtyData ;;
     match dirty with
     | Some data => saveAllDataImmediate data ;; modify (set_dirtyData None)
     | None => ret tt
     end).
Proof.
  apply keeps_bind; [apply keeps_gets|intros [data|]]; [|apply keeps_ret].
  apply keeps_bind; [apply keeps_settled_saveAllDataImmediate|intros _].
  apply keeps_modify. by intros w (? & ? & ?).
Qed.

Ltac keeps_settled :=
  repeat first
    [ apply keeps_ret | apply keeps_throw | apply keeps_lift | apply keeps_gets
    | apply keeps_settled_saveAllData
    | apply keeps_settled_saveAllDataImmediate
    | apply (keeps_getAllData _ settled_ignores)
    | apply (keeps_this_validateKey _ settled_ignores)
    | apply (keeps_read_object _)
    | apply (keeps_update_object _ settled_ignores)
    | apply (keeps_removeIfExpired _ settled_ignores)
    | apply (keeps_storage_remove _ settled_ignores)
    | apply keeps_bind; [|intros ?]
    | apply keeps_try_catch; [|intros ?]
    | apply keeps_fold_each; intros ? ?
    | match goal with
      | |- keeps _ (match ?x with _ => _ end) => destruct x
      end ].

Lemma keeps_settled_removeItem key : keeps settled (removeItem key).
Proof. unfold removeItem. keeps_settled. Qed.

Lemma keeps_settled_setItem key (v : V) ttl : keeps settled (setItem key v ttl).
Proof.
  unfold setItem.
  apply keeps_bind; [keeps_settled|intros _].
  apply keeps_bind; [keeps_settled|intros _].
  destruct (match ttl with Some t => number_eqb0 t | None => false end);
    [apply keeps_settled_removeItem|].
  cbv zeta. keeps_settled.
Qed.

Lemma keeps_settled_timer_fires t : keeps settled (timer_fires t).
Proof.
  intros w Hw. unfold timer_fires. rewrite bind_gets.
  destruct (bool_decide (t ∈ timers w)) eqn:Hin; [|done].
  apply bool_decide_eq_true_1 in Hin.
  destruct Hw as (Htimers & Hflag & Hdirty).
  unfold timers_of_engine in Htimers.
  destruct (pendingSave w) as [t'|] eqn:Hpending;
    rewrite Htimers in Hin; [|by apply elem_of_nil in Hin].
  apply list_elem_of_singleton in Hin as ->.
  unfold clearTimeout. rewrite bind_modify, Htimers, filter_other_timer.
  unfold pendingSave_callback. rewrite bind_gets. cbn [dirtyData set_timers].
  destruct (dirtyData w) as [data|] eqn:Hbuffer; [|by unfold settled].
  rewrite bind_unfold. unfold try_catch. rewrite bind_unfold.
  match goal with |- context [saveAllDataImmediate data ?s] => set (w0 := s) end.
  assert (timers (saveAllDataImmediate data w0).2 = []) as Ht1.
  { by apply (keeps_saveAllDataImmediate_at (λ w, timers w = [])
                ltac:(by intros ? ? ?) ltac:(by intros ? ?) 2 data w0). }
  assert (isCleaningUp (saveAllDataImmediate data w0).2 = false) as Hf1.
  { exact (saveAllDataImmediate_at_resets_the_flag 2 data w0 Hflag). }
  assert (debounceMs (config (saveAllDataImmediate data w0).2) ≤ 0 →
          dirtyData (saveAllDataImmediate data w0).2 = None) as Hd1.
  { apply (keeps_saveAllDataImmediate_at
             (λ w, debounceMs (config w) ≤ 0 → dirtyData w = None)
             ltac:(by intros ? ? ?) ltac:(by intros ? ?) 2 data w0).
    intros Hle. by specialize (Hdirty Hle). }
  destruct (saveAllDataImmediate data w0) as [[[]|e] w1];
    unfold settled, timers_of_engine; simpl in *; auto.
Qed.

(** X8.  Every operation of the engine, the firing of a timer and the
    page's unload handler take a settled engine to a settled engine, whether
    they return or throw; an engine just constructed is settled.  So the
    host never holds a flush timer the engine has lost track of,
    [isCleaningUp] is never left set, and an engine without debounce never
    has a dirty buffer. *)
Theorem operations_keep_the_engine_settled :
  (∀ cfg st now, settled (new_vault (V := V) cfg st now)) ∧
  (∀ key v ttl, keeps settled (setItem key v ttl)) ∧
  (∀ key, keeps settled (getItem key)) ∧
  (∀ key v, keeps settled (updateItem key v)) ∧
  (∀ key ttl, keeps settled (extendTTL key ttl)) ∧
  (∀ key, keeps settled (removeItem key)) ∧
  (∀ key, keeps settled (hasItem key)) ∧
  (∀ key, keeps settled (getRemainingTTL key)) ∧
  keeps settled clear ∧
  keeps settled flush ∧
  keeps settled cleanupExpiredItems ∧
  keeps settled getAllKeys ∧
  keeps settled getAll ∧
  keeps settled getCurrentSize ∧
  (∀ t, keeps settled (timer_fires t)) ∧
  keeps settled unloadHandler ∧
  (∀ ms, keeps settled (clock_advances ms)).
Proof.
  split; [done|].
  split; [intros; apply keeps_settled_setItem|].
  split; [intros; unfold getItem; keeps_settled|].
  split; [intros; unfold updateItem; keeps_settled|].
  split; [intros; unfold extendTTL; keeps_settled|].
  split; [intros; apply keeps_settled_removeItem|].
  split; [intros; unfold hasItem; keeps_settled|].
  split; [intros; unfold getRemainingTTL; keeps_settled|].
  split.
  { unfold clear. apply keeps_bind; [apply keeps_gets|intros available].
    destruct (negb available); [apply keeps_throw|].
    apply keeps_settled_cancel.
    apply keeps_bind; [apply keeps_modify; by intros w (? & ? & ?)|intros _].
    keeps_settled. }
  split; [unfold flush; apply keeps_settled_cancel, keeps_settled_flush_buffer|].
  split.
  { apply keeps_cleanupExpiredItems_body; [apply settled_ignores|].
    intros data. apply keeps_settled_saveAllDataImmediate. }
  split; [unfold getAllKeys; keeps_settled|].
  split; [unfold getAll; keeps_settled|].
  split; [unfold getCurrentSize; keeps_settled|].
  split; [apply keeps_settled_timer_fires|].
  split; [apply keeps_settled_flush_buffer|].
  intros ms. apply keeps_modify. by intros w (? & ? & ?).
Qed.

(** X9.  The recovery from a full backend does not nest: while
    [isCleaningUp] is set, a quota error is rethrown as
    ["Storage quota exceeded during cleanup"] and no second cleanup starts;
    hence [saveAllDataImmediate] gives the same result however deep the
    call stack may go. *)
Theorem quota_recovery_does_not_nest :
  (∀ e w, isQuotaExceededError e = true → isCleaningUp w = true →
          handleSaveError e w
          = (Err (Error "Storage quota exceeded during cleanup"), w)) ∧
  (∀ depth data w,
     saveAllDataImmediate_at (S (S depth)) data w = saveAllDataImmediate data w).
Proof.
  split.
  - intros e w He Hw. unfold handleSaveError, handleSaveError_body.
    rewrite He, bind_gets, Hw. done.
  - apply saveAllDataImmediate_depth.
Qed.
End Settled.

(** ** [clear], [flush], [cleanupExpiredItems] and [getCurrentSize] *)

Section Maintenance.
Context {V : Type} `{!JSON V}.
Implicit Types (w : World V) (props : DataRecord V) (data : ref) (key : string).

Lemma cancel_spec {A} (rest : M V A) w :
  (pending <- gets pendingSave ;;
   (match pending with
    | Some t => clearTimeout t ;; modify (set_pendingSave None)
    | None => ret tt
    end) ;;
   rest) w
  = rest (cancelled w).
Proof.
  rewrite bind_gets. unfold cancelled. by destruct (pendingSave w).
Qed.

Lemma cancelled_fields w :
  pendingSave (cancelled w) = None ∧
  dirtyData (cancelled w) = dirtyData w ∧
  storage (cancelled w) = storage w ∧
  config (cancelled w) = config w ∧
  heap (cancelled w) = heap w ∧
  isCleaningUp (cancelled w) = isCleaningUp w ∧
  (timers w = timers_of_engine w → timers (cancelled w) = []).
Proof.
  unfold cancelled, timers_of_engine.
  destruct (pendingSave w) as [t|] eqn:Hpending; simpl; repeat split; try done.
  intros ->. apply filter_other_timer.
Qed.

(** X10.  [clear] on an available backend cancels the pending save,
    drops the dirty buffer and removes the entry under the engine's key,
    and no other: the engine then reads as empty, and the timer that was
    pending writes nothing when its time comes.  On an unavailable backend
    [clear] throws and changes nothing. *)
Theorem clear_empties_the_vault w :
  (Storage_isAvailable (storage w) = false →
   clear w = (Err (Error "Storage is not available (unavailable environment)."), w)) ∧
  (Storage_isAvailable (storage w) = true →
   ∃ w', clear w = (Ok true, w') ∧
         dirtyData w' = None ∧ pendingSave w' = None ∧
         persisted_text w' = None ∧ current_data w' = [] ∧
         written (storage w') = written (storage w) ∧
         (∀ key, key ≠ storageKey (config w) →
                 Storage_read key (storage w') = Storage_read key (storage w)) ∧
         (timers w = timers_of_engine w →
          timers w' = [] ∧ ∀ t, timer_fires t w' = (Ok tt, w'))).
Proof.
  split; intros Havail; unfold clear, storage_isAvailable, this_storageKey;
    rewrite bind_gets, Havail; [done|].
  cbn [negb]. rewrite cancel_spec. rewrite bind_modify, bind_gets.
  destruct (cancelled_fields w) as (Hp & Hd & Hst & Hcfg & Hheap & Hflag & Htimers).
  eexists. split; [reflexivity|].
  match goal with |- dirtyData ?s = None ∧ _ => set (w' := s) end.
  assert (persisted_text w' = None) as Htext.
  { unfold w', persisted_text, Storage_read, Storage_remove. simpl.
    rewrite Hst, Hcfg. unfold Storage_isAvailable in Havail.
    destruct (raw (storage w)) eqn:Hraw; [|done]. simpl. apply lookup_delete_eq. }
  split; [done|]. split; [exact Hp|]. split; [exact Htext|].
  split.
  { unfold current_data. rewrite Htext. by destruct (raw (storage w')). }
  split.
  { unfold w', Storage_remove. simpl. rewrite Hst. by destruct (raw (storage w)). }
  split.
  - intros key Hne. unfold w', Storage_read, Storage_remove. simpl. rewrite Hst, Hcfg.
    destruct (raw (storage w)) eqn:Hraw; simpl; rewrite ?Hraw; [|done].
    by rewrite lookup_delete_ne by congruence.
  - intros Hsettled. specialize (Htimers Hsettled).
    split; [exact Htimers|].
    intros t. unfold timer_fires. rewrite bind_gets.
    change (timers w') with (timers (cancelled w)). rewrite Htimers.
    rewrite bool_decide_eq_false_2; [done|]. apply not_elem_of_nil.
Qed.

Lemma flush_unfold w :
  flush w
  = match dirtyData w with
    | Some data => (saveAllDataImmediate data ;; modify (set_dirtyData None)) (cancelled w)
    | None => (Ok tt, cancelled w)
    end.
Proof.
  unfold flush. rewrite cancel_spec, bind_gets.
  destruct (cancelled_fields w) as (_ & -> & _). by destruct (dirtyData w).
Qed.

(** X11.  [flush] cancels the pending save and, when there is a dirty
    buffer and the write goes through, writes the text of the buffer to the
    backend once and drops the buffer; a second [flush] then does nothing.
    Without a dirty buffer it writes nothing.  When the write throws, the
    buffer is kept while the timer is gone. *)
Theorem flush_writes_the_buffer w :
  (dirtyData w = None →
   ∃ w', flush w = (Ok tt, w') ∧ storage w' = storage w ∧ pendingSave w' = None ∧
         dirtyData w' = None) ∧
  (∀ d text,
     dirtyData w = Some d →
     Storage_isAvailable (storage w) = true →
     encode (config w) (deref w d) = Ok text →
     write_goes_through w (deref w d) = true →
     ∃ w', flush w = (Ok tt, w') ∧
           written (storage w') = (storageKey (config w), text) :: written (storage w) ∧
           persisted_text w' = Some text ∧
           dirtyData w' = None ∧ pendingSave w' = None ∧
           flush w' = (Ok tt, w')) ∧
  (∀ d e w',
     dirtyData w = Some d → flush w = (Err e, w') →
     dirtyData w' = Some d ∧ pendingSave w' = None).
Proof.
  destruct (cancelled_fields w) as (Hp & Hd & Hst & Hcfg & Hheap & Hflag & Htimers).
  split; [|split].
  - intros Hnone. rewrite flush_unfold, Hnone. eexists. split; [done|].
    by rewrite Hst, Hp, Hd.
  - intros d text Hdirty Havail Henc Hwrite.
    rewrite flush_unfold, Hdirty.
    unfold write_goes_through in Hwrite.
    apply andb_prop in Hwrite as [Hwrite Hlimit]. apply andb_prop in Hwrite as [_ Hacc].
    assert (deref (cancelled w) d = deref w d) as Hderef.
    { unfold deref. by rewrite Hheap. }
    rewrite (bind_ok (saveAllDataImmediate_through d (cancelled w) text
               ltac:(unfold within_item_limit in *; by rewrite Hderef, Hst, Hcfg)
               ltac:(by rewrite Hderef, Hcfg)
               ltac:(by rewrite Hst))).
    rewrite Hst, Hcfg. unfold Storage_isAvailable in Havail.
    destruct (raw (storage w)) as [kind|] eqn:Hraw; [|done].
    assert (Storage_isAvailable (storage w) = true) as Havail'
      by (unfold Storage_isAvailable; by rewrite Hraw).
    eexists. split; [reflexivity|]. simpl.
    split; [by apply written_stored|].
    split; [unfold persisted_text; simpl; rewrite Hcfg; by apply Storage_read_stored|].
    split; [done|]. split; [done|].
    rewrite flush_unfold. cbn [dirtyData set_dirtyData].
    unfold cancelled at 1. cbn [pendingSave set_dirtyData set_storage].
    by rewrite Hp.
  - intros d e w' Hdirty. rewrite flush_unfold, Hdirty, bind_unfold.
    pose proof (keeps_saveAllDataImmediate_at
                  (λ w0, dirtyData w0 = Some d ∧ pendingSave w0 = None)
                  ltac:(by intros ? ? ?) ltac:(by intros ? ?) 2 d (cancelled w)
                  (conj (eq_trans Hd Hdirty) Hp)) as Hkept.
    fold (@saveAllDataImmediate V _) in Hkept.
    destruct (saveAllDataImmediate d (cancelled w)) as [[[]|e1] w1]; [done|].
    intros [= <- <-]. exact Hkept.
Qed.

(** ** [cleanupExpiredItems] *)

Lemma filter_expired_ext now props props' keys :
  (∀ k, k ∈ keys → get_prop k props' = get_prop k props) →
  List.filter (is_expired_key now props') keys
  = List.filter (is_expired_key now props) keys.
Proof.
  induction keys as [|k keys IH]; intros Hsame; [done|]. cbn [List.filter].
  assert (is_expired_key now props' k = is_expired_key now props k) as ->.
  { unfold is_expired_key. by rewrite (Hsame k) by apply list_elem_of_here. }
  rewrite IH; [done|]. intros k' Hk'. apply Hsame. by apply list_elem_of_further.
Qed.

Lemma cleanup_step_spec now (data : nat) k count w props :
  heap w !! data = Some props →
  cleanup_step now data k count w
  = if is_expired_key now props k
    then (Ok (S count), set_heap (alter (delete_prop k) data (heap w)) w)
    else (Ok count, w).
Proof.
  intros Hprops. unfold cleanup_step, is_expired_key, isExpired.
  assert (deref w data = props) as Hderef by exact (f_equal (default []) Hprops).
  unfold bind at 1, read_object at 1. rewrite Hderef.
  destruct (get_prop k props) as [item|]; [|done].
  destruct (expiry item) as [e|]; [|done].
  by destruct (e <? now).
Qed.

Lemma cleanup_loop now (data : nat) keys : ∀ props count w,
  NoDup keys →
  heap w !! data = Some props →
  fold_each keys count (cleanup_step now data) w
  = (Ok (count + length (List.filter (is_expired_key now props) keys))%nat,
     set_heap (<[data := evict (List.filter (is_expired_key now props) keys) props]>
                 (heap w)) w).
Proof.
  induction keys as [|k keys IH]; intros props count w Hnodup Hprops.
  - cbn [fold_each List.filter evict foldl length]. unfold ret.
    rewrite Nat.add_0_r, (list_insert_id _ _ _ Hprops). by destruct w.
  - apply NoDup_cons in Hnodup as [Hk Hnodup].
    cbn [fold_each List.filter]. rewrite bind_unfold, (cleanup_step_spec _ _ _ _ _ _ Hprops).
    destruct (is_expired_key now props k); [|by apply IH].
    rewrite (IH (delete_prop k props) (S count)); [|done|].
    + cbn [set_heap heap config isCleaningUp pendingSave dirtyData storage timers
             next_timer clock].
      rewrite (filter_expired_ext now props (delete_prop k props)).
      * cbn [length evict foldl]. f_equal; [f_equal; lia|].
        unfold set_heap. f_equal.
        apply list_eq. intros i.
        destruct (decide (i = data)) as [->|Hne].
        -- rewrite !list_lookup_insert_eq; [done|by eapply lookup_lt_Some|].
           rewrite length_alter. by eapply lookup_lt_Some.
        -- by rewrite !list_lookup_insert_ne, list_lookup_alter_ne by done.
      * intros k' Hk'. apply get_prop_delete_prop_ne. by intros ->.
    + cbn [set_heap heap]. by rewrite list_lookup_alter_eq, Hprops.
Qed.

Lemma cleanupExpiredItems_unfold w :
  Storage_isAvailable (storage w) = true →
  NoDup (Object_keys (current_data w)) →
  cleanupExpiredItems w
  = ((if (0 <? length (expired_keys (clock w) (current_data w)))%nat
      then saveAllDataImmediate (length (heap w)) else ret tt) ;;
     ret (length (expired_keys (clock w) (current_data w)))) (swept w).
Proof.
  intros Havail Hnodup.
  unfold cleanupExpiredItems, cleanupExpiredItems_body, storage_isAvailable, Date_now.
  rewrite bind_gets, Havail. cbn [negb].
  rewrite (bind_ok (getAllData_spec w)), bind_gets.
  unfold bind at 1, read_object at 1. rewrite deref_new_object.
  cbn [clock set_heap]. rewrite clock_recovered.
  change (fold_each ?keys ?count _)
    with (fold_each keys count (cleanup_step (V := V) (clock w) (length (heap w)))).
  assert (heap (set_heap (heap w ++ [current_data w]) (recovered w)) !! length (heap w)
          = Some (current_data w)) as Hlookup.
  { cbn [heap set_heap]. by apply list_lookup_middle. }
  rewrite (bind_ok (cleanup_loop (clock w) (length (heap w)) (Object_keys (current_data w))
                      (current_data w) 0%nat _ Hnodup Hlookup)).
  cbn [heap set_heap]. rewrite insert_app_r_alt, Nat.sub_diag by done.
  done.
Qed.

Lemma get_prop_without_expired now props key :
  get_prop key (without_expired now props)
  = if is_expired_key now props key then None else get_prop key props.
Proof.
  unfold without_expired, expired_keys. rewrite get_prop_evict.
  destruct (is_expired_key now props key) eqn:Hexp.
  - rewrite bool_decide_eq_true_2; [done|].
    apply list_elem_of_In, filter_In. split; [|done].
    apply list_elem_of_In, elem_of_Object_keys. unfold is_expired_key in Hexp.
    destruct (get_prop key props); [eauto|done].
  - rewrite bool_decide_eq_false_2; [done|].
    intros Hin. apply list_elem_of_In, filter_In in Hin as [_ Hin]. congruence.
Qed.

(** X12.  [cleanupExpiredItems] returns the number of expired items.
    When there is none it writes nothing.  Otherwise it writes the record
    set without them to the backend at once, whatever the debounce; the
    dirty buffer of a pending save is not cleaned, so the engine goes on
    reading the buffer with the expired items in it. *)
Theorem cleanupExpiredItems_sweeps w :
  Storage_isAvailable (storage w) = true →
  NoDup (Object_keys (current_data w)) →
  let gone := expired_keys (clock w) (current_data w) in
  let kept := without_expired (clock w) (current_data w) in
  (∀ key, get_prop key kept
          = if is_expired_key (clock w) (current_data w) key then None
            else get_prop key (current_data w)) ∧
  (gone = [] →
   ∃ w', cleanupExpiredItems w = (Ok 0%nat, w') ∧
         written (storage w') = written (storage w) ∧
         current_data w' = current_data w ∧ dirtyData w' = dirtyData w) ∧
  (gone ≠ [] →
   ∀ text, encode (config w) kept = Ok text →
           write_goes_through w kept = true →
   ∃ w', cleanupExpiredItems w = (Ok (length gone), w') ∧
         written (storage w') = (storageKey (config w), text) :: written (storage w) ∧
         persisted_text w' = Some text ∧
         dirtyData w' = dirtyData w ∧
         (∀ d, dirtyData w = Some d → (d < length (heap w))%nat →
               current_data w' = current_data w)).
Proof.
  intros Havail Hnodup gone kept.
  split; [intros key; apply get_prop_without_expired|].
  rewrite (cleanupExpiredItems_unfold w Havail Hnodup). fold gone.
  assert (dirtyData (recovered w) = dirtyData w) as Hd.
  { unfold recovered. by destruct (is_corrupted w). }
  split.
  - intros Hgone. rewrite Hgone. cbn [length Nat.ltb Nat.leb].
    assert (swept w = set_heap (heap w ++ [current_data w]) (recovered w)) as ->.
    { unfold swept, without_expired. fold gone. by rewrite Hgone. }
    eexists. split; [reflexivity|].
    destruct (read_only_world w) as (Hcur & Hdirty & _ & _ & Hwritten). done.
  - intros Hgone text Henc Hwrite.
    assert ((0 <? length gone)%nat = true) as ->.
    { apply Nat.ltb_lt. destruct gone; [done|simpl; lia]. }
    assert (deref (swept w) (length (heap w)) = kept) as Hderef
      by apply deref_new_object.
    rewrite <- (write_goes_through_recovered w) in Hwrite.
    unfold write_goes_through in Hwrite.
    apply andb_prop in Hwrite as [Hwrite Hlimit]. apply andb_prop in Hwrite as [_ Hacc].
    rewrite (bind_ok (saveAllDataImmediate_through (length (heap w)) (swept w) text
               ltac:(by rewrite Hderef)
               ltac:(rewrite Hderef; cbn [swept config set_heap];
                     by rewrite config_recovered)
               Hacc)).
    cbn [swept storage config set_heap]. rewrite raw_recovered, config_recovered.
    unfold Storage_isAvailable in Havail.
    destruct (raw (storage w)) as [kind|] eqn:Hraw; [|done].
    assert (Storage_isAvailable (storage (recovered w)) = true) as Havail'.
    { unfold Storage_isAvailable. by rewrite raw_recovered, Hraw. }
    eexists. split; [reflexivity|]. cbn [snd storage set_storage].
    split; [rewrite written_stored, written_recovered; done|].
    split.
    { unfold persisted_text. cbn [storage config set_storage set_heap].
      change (config (swept w)) with (config (recovered w)).
      rewrite config_recovered. by apply Storage_read_stored. }
    split; [exact Hd|].
    intros d Hdirty Hvalid.
    unfold current_data at 1. cbn [storage dirtyData set_storage set_heap].
    change (dirtyData (swept w)) with (dirtyData (recovered w)).
    rewrite raw_stored, raw_recovered, Hraw, Hd, Hdirty.
    unfold current_data. rewrite Hraw, Hdirty.
    unfold deref, swept. cbn [heap set_storage set_heap].
    by rewrite lookup_app_l.
Qed.

(** X13.  [getCurrentSize] never throws.  It gives the UTF-8 size of
    the JSON text of the record set, before any transform, and 0 when that
    text cannot be produced or the backend is unavailable; the engine is
    left as it was. *)
Theorem getCurrentSize_measures_the_json w :
  ∃ w', getCurrentSize w
        = (Ok (if Storage_isAvailable (storage w)
               then match JSON_stringify (current_data w) with
                    | Ok dataStr => getByteSize dataStr
                    | Err _ => 0%nat
                    end
               else 0%nat), w') ∧
        current_data w' = current_data w ∧ dirtyData w' = dirtyData w ∧
        pendingSave w' = pendingSave w ∧ timers w' = timers w ∧
        written (storage w') = written (storage w).
Proof.
  unfold getCurrentSize, storage_isAvailable. rewrite bind_gets.
  destruct (Storage_isAvailable (storage w)); [|by eexists]. cbn [negb].
  unfold try_catch. rewrite (bind_ok (getAllData_spec w)).
  unfold bind at 1, read_object at 1. rewrite deref_new_object.
  unfold bind, lift, ret.
  destruct (JSON_stringify (current_data w)); eexists;
    (split; [reflexivity|apply read_only_world]).
Qed.
End Maintenance.

Lemma cleanupExpiredItems_sweeps_witness :
  (Storage_isAvailable (storage (stale_vault 0)) = true ∧
   NoDup (Object_keys (current_data (stale_vault 0)))) ∧
  (cleanupExpiredItems (stale_vault 0)).1 = Ok 1%nat ∧
  get_prop "a" (without_expired (clock (stale_vault 0)) (current_data (stale_vault 0)))
  = None.
Proof.
  assert (Storage_isAvailable (storage (stale_vault 0)) = true) as Havail
    by (vm_compute; reflexivity).
  assert (NoDup (Object_keys (current_data (stale_vault 0)))) as Hnodup.
  { apply (bool_decide_unpack _). vm_compute. exact I. }
  pose proof (cleanupExpiredItems_sweeps (stale_vault 0) Havail Hnodup)
    as (Hkept & _ & Hsome).
  split; [by split|]. split.
  - assert (∃ text, encode (config (stale_vault 0))
                      (without_expired (clock (stale_vault 0))
                         (current_data (stale_vault 0))) = Ok text) as [text Henc].
    { vm_compute. eexists. reflexivity. }
    destruct (Hsome ltac:(vm_compute; discriminate) text Henc ltac:(vm_compute; reflexivity))
      as (w' & -> & _).
    vm_compute. reflexivity.
  - rewrite Hkept. vm_compute. reflexivity.
Defined.

(** ** Saves that fail *)

Section SaveErrors.
Context {V : Type} `{!JSON V}.
Implicit Types (w : World V) (props : DataRecord V) (data : ref) (key : string).
Local Abbreviation throws_or_blocked := (throws_or_blocked (V := V)).

Lemma write_attempt_spec data w :
  write_attempt (storageKey (config w)) (transformChain (config w)) data w
  = match encode (config w) (deref w data) with
    | Ok text => storage_write (storageKey (config w)) text w
    | Err e => (Err e, w)
    end.
Proof.
  unfold write_attempt, encode, bind, read_object, lift.
  destruct (JSON_stringify (deref w data)) as [dataStr|]; [|done].
  by destruct (chain_apply (transformChain (config w)) dataStr).
Qed.

Lemma saveAllDataImmediate_at_unfold depth data w :
  within_item_limit w (deref w data) = true →
  Storage_isAvailable (storage w) = true →
  saveAllDataImmediate_at (S depth) data w
  = try_catch (write_attempt (storageKey (config w)) (transformChain (config w)) data)
      (handleSaveError_body (cleanupExpiredItems_body (saveAllDataImmediate_at depth))) w.
Proof.
  unfold within_item_limit, Storage_isAvailable. intros Hlimit Havail.
  cbn [saveAllDataImmediate_at].
  unfold saveAllDataImmediate_body, storage_getStorage. rewrite bind_gets.
  destruct (raw (storage w)) as [kind|] eqn:Hraw; [|done].
  assert ((match kind with
           | MapStorage =>
               props <- read_object data ;;
               maxItems <- gets (λ w, maxItemsInMemory (config w)) ;;
               if (maxItems <? length (Object_keys props))%nat
               then enforceItemLimit data else ret tt
           | WebStorage => ret tt
           end) w = (Ok tt, w)) as Hstep.
  { destruct kind; [done|].
    unfold bind, read_object, gets.
    apply Nat.leb_le in Hlimit. by rewrite (proj2 (Nat.ltb_ge _ _) Hlimit). }
  rewrite (bind_ok Hstep).
  unfold this_storageKey, this_transformChain. by rewrite !bind_gets.
Qed.

Lemma storage_write_refused e key text w :
  refuses e (storage w) →
  storage_write key text w = (Err e, set_storage (refused (storage w)) w).
Proof.
  intros [Hraw [later Hout]]. unfold storage_write, Storage_write, refused.
  by rewrite Hraw, Hout.
Qed.

Lemma handleSaveError_body_other cleanup e w :
  isQuotaExceededError e = false →
  handleSaveError_body cleanup e w = (Err (Error (save_error_message e)), w).
Proof.
  intros He. unfold handleSaveError_body, save_error_message. rewrite He.
  by destruct (isCircularReferenceError e).
Qed.

(** X14.  With no debounce, when the record set cannot be serialized or
    transformed, or the backend refuses the write with an error that is not a
    quota error, [setItem] throws
    ["Failed to save to storage: "] followed by the message of the error
    (for a circular structure, the message about circular references), and
    nothing reaches the backend. *)
Theorem setItem_reports_a_failed_save w key v ttl e :
  validateKey key (raw (storage w)) = Ok tt →
  stores ttl →
  debounceMs (config w) ≤ 0 →
  isQuotaExceededError e = false →
  within_item_limit w
    (set_prop key (mkStoredData v (expiry_for (clock w) ttl)) (current_data w)) = true →
  encode (config w)
    (set_prop key (mkStoredData v (expiry_for (clock w) ttl)) (current_data w)) = Err e ∨
  (is_ok (encode (config w)
            (set_prop key (mkStoredData v (expiry_for (clock w) ttl)) (current_data w)))
   = true ∧ refuses e (storage w)) →
  ∃ w', setItem key v ttl w = (Err (Error (save_error_message e)), w') ∧
        written (storage w') = written (storage w) ∧
        persisted_text w' = persisted_text (recovered w) ∧
        dirtyData w' = dirtyData w.
Proof.
  intros Hvalid Httl Hnow He Hlimit Hfail.
  pose proof (available_valid key w Hvalid) as Havail.
  rewrite (setItem_stores w key v ttl Hvalid Httl).
  set (item := mkStoredData v (expiry_for (clock w) ttl)) in *.
  set (w0 := assigned key item w).
  assert (dirtyData (recovered w) = dirtyData w) as Hd.
  { unfold recovered. by destruct (is_corrupted w). }
  assert (saveAllData (length (heap w)) w0
          = try_catch
              (write_attempt (storageKey (config w0)) (transformChain (config w0))
                 (length (heap w)))
              (handleSaveError_body
                 (cleanupExpiredItems_body (saveAllDataImmediate_at 1))) w0) as Hsave.
  { rewrite saveAllData_immediate
      by (unfold w0, assigned; cbn [config set_heap]; by rewrite config_recovered).
    apply saveAllDataImmediate_at_unfold.
    - unfold w0. rewrite deref_assigned. unfold within_item_limit, assigned in *.
      cbn [storage config set_heap]. by rewrite raw_recovered, config_recovered.
    - unfold w0, assigned, Storage_isAvailable in *. cbn [storage set_heap].
      by rewrite raw_recovered. }
  rewrite bind_unfold, Hsave. unfold try_catch.
  rewrite write_attempt_spec. unfold w0 at 2. rewrite deref_assigned.
  change (config w0) with (config (recovered w)). rewrite config_recovered.
  destruct Hfail as [Henc|[Henc Hrefuses]].
  - rewrite Henc, handleSaveError_body_other by done.
    eexists. split; [reflexivity|]. cbn [snd]. unfold w0, assigned, persisted_text.
    cbn [storage config dirtyData set_heap].
    by rewrite written_recovered, Hd.
  - destruct (encode (config w) (set_prop key item (current_data w))) as [text|]; [|done].
    assert (refuses e (storage w0)) as Hrefuses0.
    { destruct Hrefuses as [Hraw [later Hout]]. unfold w0, assigned. cbn [storage set_heap].
      split; [by rewrite raw_recovered|]. exists later.
      unfold recovered. destruct (is_corrupted w); [|done].
      unfold Storage_remove. cbn [storage set_storage]. by rewrite Hraw. }
    rewrite (storage_write_refused e _ _ _ Hrefuses0).
    rewrite handleSaveError_body_other by done.
    eexists. split; [reflexivity|]. cbn [snd]. unfold w0, assigned, persisted_text, refused.
    cbn [storage config dirtyData set_heap set_storage written].
    rewrite written_recovered, Hd. split; [done|]. split; [|done].
    unfold Storage_read. by cbn [raw entries].
Qed.

(** ** A backend that stays full *)

Lemma blocked_spent trace w : blocked trace w → spent trace w.
Proof. by intros (? & _ & ?). Qed.

Lemma tob_bind {A B} trace (m : M V A) (k : A → M V B) :
  throws_or_blocked trace m → (∀ a, throws_or_blocked trace (k a)) →
  throws_or_blocked trace (bind m k).
Proof.
  intros Hm Hk w Hw. rewrite bind_unfold. specialize (Hm w Hw).
  destruct (m w) as [[a|e] w1]; [by apply Hk|done].
Qed.

Lemma tob_ret {A} trace (a : A) : throws_or_blocked trace (ret a).
Proof. by intros w Hw. Qed.

Lemma tob_gets {A} trace (f : World V → A) : throws_or_blocked trace (gets f).
Proof. by intros w Hw. Qed.

Lemma tob_read_object trace data : throws_or_blocked trace (read_object data).
Proof. by intros w Hw. Qed.

Lemma tob_update_object trace data f : throws_or_blocked trace (update_object data f).
Proof. by intros w Hw. Qed.

Lemma tob_getAllData trace : throws_or_blocked trace getAllData.
Proof.
  intros w (Hflag & [e [Hraw [later Hout]]] & Htrace). rewrite getAllData_spec.
  unfold blocked, refuses. cbn [isCleaningUp storage set_heap].
  unfold recovered. destruct (is_corrupted w); [|by eauto 10].
  unfold Storage_remove. cbn [isCleaningUp storage set_storage]. rewrite Hraw.
  cbn [raw setItem_outcomes written]. eauto 10.
Qed.

Lemma tob_fold_each {A B} trace (l : list A) (acc : B) (body : A → B → M V B) :
  (∀ a b, throws_or_blocked trace (body a b)) →
  throws_or_blocked trace (fold_each l acc body).
Proof.
  intros Hbody. revert acc. induction l as [|a l IH]; intros acc; [apply tob_ret|].
  cbn [fold_each]. by apply tob_bind.
Qed.

Lemma handleSaveError_body_throws cleanup e w :
  isCleaningUp w = true →
  ∃ e', handleSaveError_body cleanup e w = (Err e', w).
Proof.
  intros Hflag. unfold handleSaveError_body.
  destruct (isQuotaExceededError e).
  - rewrite bind_gets, Hflag. by eexists.
  - destruct (isCircularReferenceError e); by eexists.
Qed.

(** While a cleanup runs over a backend that refuses, a save throws. *)
Lemma saveAllDataImmediate_at_blocked trace depth data w :
  blocked trace w →
  ∃ e w', saveAllDataImmediate_at (S depth) data w = (Err e, w') ∧ spent trace w'.
Proof.
  intros (Hflag & [e0 Hrefuses] & Htrace).
  rewrite saveAllDataImmediate_at_unfold.
  - unfold try_catch. rewrite write_attempt_spec.
    destruct (encode (config w) (deref w data)) as [text|e1].
    + rewrite (storage_write_refused e0 _ _ _ Hrefuses).
      destruct (handleSaveError_body_throws
                  (cleanupExpiredItems_body (saveAllDataImmediate_at depth)) e0
                  (set_storage (refused (storage w)) w) Hflag) as [e' ->].
      by eexists _, _.
    + destruct (handleSaveError_body_throws
                  (cleanupExpiredItems_body (saveAllDataImmediate_at depth)) e1 w Hflag)
        as [e' ->].
      by eexists _, _.
  - unfold within_item_limit. by rewrite (proj1 Hrefuses).
  - unfold Storage_isAvailable. by rewrite (proj1 Hrefuses).
Qed.

Lemma tob_cleanupExpiredItems_body trace depth :
  throws_or_blocked trace (cleanupExpiredItems_body (saveAllDataImmediate_at (S depth))).
Proof.
  unfold cleanupExpiredItems_body.
  apply tob_bind; [apply tob_gets|intros available].
  destruct (negb available); [apply tob_ret|].
  apply tob_bind; [apply tob_getAllData|intros data].
  apply tob_bind; [apply tob_gets|intros now].
  apply tob_bind; [apply tob_read_object|intros props].
  apply tob_bind.
  { apply tob_fold_each. intros k count.
    apply tob_bind; [apply tob_read_object|intros current].
    destruct (get_prop k current) as [item|]; [|apply tob_ret].
    destruct (expiry item) as [e|]; [|apply tob_ret].
    destruct (e <? now); [|apply tob_ret].
    apply tob_bind; [apply tob_update_object|intros _]. apply tob_ret. }
  intros count.
  apply tob_bind; [|intros _; apply tob_ret].
  destruct (0 <? count)%nat; [|apply tob_ret].
  intros w Hw.
  by destruct (saveAllDataImmediate_at_blocked trace depth data w Hw) as (e & w' & -> & ?).
Qed.

(** The retry of [handleSaveError] throws too. *)
Lemma retry_blocked trace w :
  blocked trace w →
  ∃ e w',
    (freshData <- getAllData ;;
     props <- read_object freshData ;;
     key <- this_storageKey ;;
     chain <- this_transformChain ;;
     dataStr <- lift (JSON_stringify props) ;;
     transformedStr <- lift (chain_apply chain dataStr) ;;
     storage_write key transformedStr) w = (Err e, w') ∧ spent trace w'.
Proof.
  intros Hw. pose proof (tob_getAllData trace w Hw) as Hw1.
  rewrite bind_unfold. destruct (getAllData w) as [[data|e] w1]; [|by eexists _, _].
  unfold bind at 1, read_object at 1.
  unfold this_storageKey, this_transformChain. rewrite !bind_gets.
  unfold bind, lift.
  destruct (JSON_stringify (deref w1 data)) as [dataStr|];
    [|eexists _, _; split; [done|by apply blocked_spent]].
  destruct (chain_apply (transformChain (config w1)) dataStr) as [text|];
    [|eexists _, _; split; [done|by apply blocked_spent]].
  destruct Hw1 as (Hflag & [e0 Hrefuses] & Htrace).
  rewrite (storage_write_refused e0 _ _ _ Hrefuses). by eexists _, _.
Qed.

(** X15.  With no debounce, when the backend refuses the write of
    [setItem] with a quota error and refuses the next write too, [setItem]
    throws ["Storage quota exceeded. Clear some data or use storage slices
    to reduce size."]: nothing has been written, and [isCleaningUp] is unset
    again. *)
Theorem setItem_gives_up_on_a_full_backend w key v ttl e1 e2 later :
  validateKey key (raw (storage w)) = Ok tt →
  stores ttl →
  debounceMs (config w) ≤ 0 →
  isCleaningUp w = false →
  raw (storage w) = Some WebStorage →
  setItem_outcomes (storage w) = Some e1 :: Some e2 :: later →
  isQuotaExceededError e1 = true →
  is_ok (encode (config w)
           (set_prop key (mkStoredData v (expiry_for (clock w) ttl)) (current_data w)))
  = true →
  ∃ w', setItem key v ttl w
        = (Err (Error
             "Storage quota exceeded. Clear some data or use storage slices to reduce size."),
           w') ∧
        written (storage w') = written (storage w) ∧
        isCleaningUp w' = false.
Proof.
  intros Hvalid Httl Hnow Hflag Hraw Hout He1 Henc.
  rewrite (setItem_stores w key v ttl Hvalid Httl).
  set (item := mkStoredData v (expiry_for (clock w) ttl)) in *.
  set (w0 := assigned key item w).
  assert (raw (storage w0) = Some WebStorage ∧
          setItem_outcomes (storage w0) = Some e1 :: Some e2 :: later ∧
          written (storage w0) = written (storage w) ∧
          isCleaningUp w0 = false ∧ config w0 = config w) as (Hraw0 & Hout0 & Htr0 & Hflag0 & Hcfg0).
  { unfold w0, assigned. cbn [storage isCleaningUp config set_heap].
    rewrite raw_recovered, written_recovered, config_recovered.
    unfold recovered. destruct (is_corrupted w); [|done].
    unfold Storage_remove. cbn [storage isCleaningUp set_storage]. by rewrite Hraw. }
  rewrite bind_unfold, saveAllData_immediate by (by rewrite Hcfg0).
  unfold saveAllDataImmediate.
  rewrite saveAllDataImmediate_at_unfold;
    [|unfold within_item_limit; by rewrite Hraw0
     |unfold Storage_isAvailable; by rewrite Hraw0].
  unfold try_catch. rewrite write_attempt_spec, Hcfg0.
  unfold w0 at 1. rewrite deref_assigned. fold w0.
  destruct (encode (config w) (set_prop key item (current_data w))) as [text|]; [|done].
  rewrite (storage_write_refused e1 _ _ _ (conj Hraw0 (ex_intro _ _ Hout0))).
  set (w1 := set_storage (refused (storage w0)) w0).
  unfold handleSaveError_body. rewrite He1, bind_gets.
  change (isCleaningUp w1) with (isCleaningUp w0). rewrite Hflag0. cbn [negb].
  rewrite bind_modify. unfold try_finally, try_catch. rewrite bind_unfold.
  assert (blocked (written (storage w)) (set_isCleaningUp true w1)) as Hblocked.
  { split; [done|]. split; [|exact Htr0].
    exists e2. split; [exact Hraw0|]. exists later.
    unfold w1, refused. cbn [storage set_isCleaningUp set_storage setItem_outcomes].
    by rewrite Hout0. }
  pose proof (tob_cleanupExpiredItems_body (written (storage w)) 0 _ Hblocked) as Hcleanup.
  destruct (cleanupExpiredItems_body (saveAllDataImmediate_at 1) (set_isCleaningUp true w1))
    as [[count|e] w2].
  - destruct (retry_blocked _ w2 Hcleanup) as (e & w3 & -> & Hspent).
    eexists. split; [reflexivity|]. by destruct Hspent.
  - eexists. split; [reflexivity|]. by destruct Hcleanup.
Qed.
End SaveErrors.

Lemma setItem_reports_a_failed_save_witness :
  (validateKey "k" (raw (storage
      (new_vault (V := Z) (demo_config 0 1000)
         (backend_holding WebStorage None
            [Some (mkError (DOMException "SecurityError") "The operation is insecure.")])
         10))) = Ok tt) ∧
  (setItem "k" 7 None
     (new_vault (demo_config 0 1000)
        (backend_holding WebStorage None
           [Some (mkError (DOMException "SecurityError") "The operation is insecure.")])
        10)).1
  = Err (Error "Failed to save to storage: The operation is insecure.").
Proof.
  set (e := mkError (DOMException "SecurityError") "The operation is insecure.").
  set (w := new_vault (V := Z) (demo_config 0 1000) (backend_holding WebStorage None [Some e]) 10).
  assert (validateKey "k" (raw (storage w)) = Ok tt) as Hvalid by (vm_compute; reflexivity).
  split; [exact Hvalid|].
  destruct (setItem_reports_a_failed_save w "k" 7 None e Hvalid) as (w' & -> & _).
  - by left.
  - vm_compute. discriminate.
  - reflexivity.
  - vm_compute; reflexivity.
  - right. split; [vm_compute; reflexivity|]. split; [reflexivity|]. by eexists.
  - reflexivity.
Defined.

Lemma setItem_gives_up_on_a_full_backend_witness :
  (validateKey "k" (raw (storage
      (new_vault (V := Z) (demo_config 0 1000)
         (backend_holding WebStorage (Some stale_text)
            [Some QuotaExceededError; Some QuotaExceededError]) 10))) = Ok tt) ∧
  ∃ w', setItem "k" 7 None
          (new_vault (demo_config 0 1000)
             (backend_holding WebStorage (Some stale_text)
                [Some QuotaExceededError; Some QuotaExceededError]) 10)
        = (Err (Error
             "Storage quota exceeded. Clear some data or use storage slices to reduce size."),
           w') ∧
        written (storage w') = [] ∧ isCleaningUp w' = false.
Proof.
  set (w := new_vault (V := Z) (demo_config 0 1000)
              (backend_holding WebStorage (Some stale_text)
                 [Some QuotaExceededError; Some QuotaExceededError]) 10).
  assert (validateKey "k" (raw (storage w)) = Ok tt) as Hvalid by (vm_compute; reflexivity).
  split; [exact Hvalid|].
  apply (setItem_gives_up_on_a_full_backend w "k" 7 None
           QuotaExceededError QuotaExceededError [] Hvalid).
  - by left.
  - vm_compute. discriminate.
  - reflexivity.
  - reflexivity.
  - reflexivity.
  - reflexivity.
  - vm_compute; reflexivity.
Defined.

(** ** The item limit *)

Section Eviction.
Context {V : Type} `{!JSON V}.
Implicit Types (w : World V) (props : DataRecord V) (data : ref) (key : string).

Lemma length_delete_prop key props :
  NoDup (Object_keys props) → key ∈ Object_keys props →
  S (length (Object_keys (delete_prop key props))) = length (Object_keys props).
Proof.
  induction props as [|[k item] props IH]; intros Hnodup Hin.
  - by apply elem_of_nil in Hin.
  - cbn [Object_keys map fst] in *. apply NoDup_cons in Hnodup as [Hk Hnodup].
    cbn [delete_prop]. destruct (String.eqb k key) eqn:Heq.
    + apply String.eqb_eq in Heq as ->.
      assert (delete_prop key props = props) as ->; [|done].
      clear IH Hin Hnodup. induction props as [|[k' item'] props IH]; [done|].
      cbn [Object_keys map fst] in Hk. apply not_elem_of_cons in Hk as [Hne Hk].
      cbn [delete_prop]. rewrite (proj2 (String.eqb_neq _ _)) by done.
      by rewrite IH.
    + apply String.eqb_neq in Heq.
      apply elem_of_cons in Hin as [->|Hin]; [done|].
      cbn [Object_keys map fst length]. f_equal. by apply IH.
Qed.

Lemma length_evict keys props :
  NoDup (Object_keys props) → NoDup keys → keys ⊆ Object_keys props →
  (length (Object_keys (evict keys props)) + length keys)%nat
  = length (Object_keys props).
Proof.
  revert props. induction keys as [|k keys IH]; intros props Hprops Hkeys Hsub.
  - cbn [evict foldl length]. lia.
  - apply NoDup_cons in Hkeys as [Hk Hkeys].
    change (evict (k :: keys) props) with (evict keys (delete_prop k props)).
    assert (k ∈ Object_keys props) as Hin by (apply Hsub, list_elem_of_here).
    pose proof (length_delete_prop k props Hprops Hin) as Hlen.
    rewrite <- Hlen. cbn [length]. rewrite <- (IH (delete_prop k props)); [lia| |done|].
    + by apply NoDup_delete_prop.
    + intros k' Hk'. apply elem_of_Object_keys.
      rewrite get_prop_delete_prop_ne by (by intros ->).
      apply elem_of_Object_keys, Hsub. by apply list_elem_of_further.
Qed.

Lemma compare_expiry_total props a b :
  before (compare_expiry props) a b ∨ before (compare_expiry props) b a.
Proof. rewrite !before_expiry_le. apply expiry_le_total. Qed.

Lemma compare_expiry_trans props a b c :
  before (compare_expiry props) a b → before (compare_expiry props) b c →
  before (compare_expiry props) a c.
Proof. rewrite !before_expiry_le. apply expiry_le_trans. Qed.

(** What the sort and the deletions of [enforceItemLimit] keep. *)
Lemma kept_after_limit_spec props maxItems :
  NoDup (Object_keys props) →
  length (Object_keys (kept_after_limit maxItems props))
  = (length (Object_keys props) `min` maxItems)%nat ∧
  (∀ key item, get_prop key (kept_after_limit maxItems props) = Some item →
               get_prop key props = Some item) ∧
  (∀ gone stay,
     gone ∈ Object_keys props →
     gone ∉ Object_keys (kept_after_limit maxItems props) →
     stay ∈ Object_keys (kept_after_limit maxItems props) →
     expiry_le (stored_expiry props gone) (stored_expiry props stay)).
Proof.
  intros Hnodup. unfold kept_after_limit.
  destruct (length (Object_keys props) <=? maxItems)%nat eqn:Hle.
  { apply Nat.leb_le in Hle. split; [lia|]. split; [done|]. by intros gone stay ? ?. }
  apply Nat.leb_gt in Hle.
  set (sorted := Array_sort (compare_expiry props) (Object_keys props)).
  set (n := (length (Object_keys props) - maxItems)%nat).
  pose proof (Array_sort_Permutation (compare_expiry props) (Object_keys props)) as Hperm.
  fold sorted in Hperm.
  assert (NoDup sorted) as Hsorted_nodup by (by rewrite Hperm).
  assert (length sorted = length (Object_keys props)) as Hlen by (by rewrite Hperm).
  assert (NoDup (take n sorted)) as Htake_nodup.
  { apply (sublist_NoDup _ sorted); [done|apply sublist_take]. }
  assert (take n sorted ⊆ Object_keys props) as Htake_sub.
  { intros k Hk. rewrite <- Hperm. by apply (subseteq_take n sorted). }
  split; [|split].
  - pose proof (length_evict (take n sorted) props Hnodup Htake_nodup Htake_sub) as Hcount.
    rewrite length_take in Hcount. unfold n in *. lia.
  - intros key item. rewrite get_prop_evict. by destruct (bool_decide _).
  - intros gone stay Hgone Hout Hstay.
    apply before_expiry_le.
    apply (sorted_prefix_before (compare_expiry props) sorted n).
    + apply Array_sort_sorted; [apply compare_expiry_total|apply compare_expiry_trans].
    + apply elem_of_Object_keys in Hgone as [item Hitem].
      destruct (decide (gone ∈ take n sorted)) as [|Hnot]; [done|].
      exfalso. apply Hout, elem_of_Object_keys. exists item.
      by rewrite get_prop_evict, bool_decide_eq_false_2.
    + apply elem_of_Object_keys in Hstay as [item Hitem].
      rewrite get_prop_evict in Hitem.
      destruct (bool_decide (stay ∈ take n sorted)) eqn:Hin; [done|].
      apply bool_decide_eq_false_1 in Hin.
      assert (stay ∈ sorted) as Hsorted.
      { rewrite Hperm. apply elem_of_Object_keys. eauto. }
      rewrite <- (take_drop n sorted) in Hsorted.
      apply elem_of_app in Hsorted as [|]; done.
Qed.

(** An immediate save, on a [Map] and on a Web Storage. *)
Lemma saveAllDataImmediate_limit w (data : nat) text :
  (data < length (heap w))%nat →
  accepts_write (storage w) = true →
  (raw (storage w) = Some MapStorage →
   encode (config w) (kept_after_limit (maxItemsInMemory (config w)) (deref w data))
   = Ok text →
   ∃ w', saveAllDataImmediate data w = (Ok tt, w') ∧
         deref w' data = kept_after_limit (maxItemsInMemory (config w)) (deref w data) ∧
         persisted_text w' = Some text) ∧
  (raw (storage w) = Some WebStorage →
   encode (config w) (deref w data) = Ok text →
   ∃ w', saveAllDataImmediate data w = (Ok tt, w') ∧
         deref w' data = deref w data ∧
         persisted_text w' = Some text).
Proof.
  intros Hvalid Hacc. split; intros Hraw Henc.
  - unfold saveAllDataImmediate. cbn [saveAllDataImmediate_at].
    unfold saveAllDataImmediate_body at 1, storage_getStorage. rewrite bind_gets, Hraw.
    set (kept := kept_after_limit (maxItemsInMemory (config w)) (deref w data)) in *.
    set (w1 := set_heap (<[data := kept]> (heap w)) w).
    assert (deref w1 data = kept) as Hderef1.
    { unfold deref, w1. cbn [heap set_heap]. by rewrite list_lookup_insert_eq. }
    assert ((props <- read_object data ;;
             maxItems <- gets (λ w, maxItemsInMemory (config w)) ;;
             if (maxItems <? length (Object_keys props))%nat
             then enforceItemLimit data else ret tt) w = (Ok tt, w1)) as Hstep.
    { unfold bind at 1, read_object at 1. rewrite bind_gets.
      destruct (maxItemsInMemory (config w) <? length (Object_keys (deref w data)))%nat
        eqn:Hover.
      - by rewrite enforceItemLimit_spec.
      - unfold ret, w1, kept, kept_after_limit.
        apply Nat.ltb_ge in Hover. rewrite (proj2 (Nat.leb_le _ _) Hover).
        rewrite list_insert_id; [by destruct w|].
        unfold deref. destruct (lookup_lt_is_Some_2 (heap w) data Hvalid) as [p Hp].
        transitivity (Some p); [exact Hp|]. f_equal. symmetry.
        exact (f_equal (default []) Hp). }
    rewrite (bind_ok Hstep).
    unfold this_storageKey, this_transformChain. rewrite !bind_gets.
    change (try_catch ?body ?handler w1)
      with (try_catch (write_attempt (storageKey (config w1)) (transformChain (config w1))
                         data) handler w1).
    unfold try_catch. rewrite write_attempt_spec, Hderef1.
    change (config w1) with (config w). rewrite Henc.
    unfold storage_write. change (storage w1) with (storage w).
    rewrite Storage_write_accepted by done.
    eexists. split; [reflexivity|]. cbn [snd]. split; [exact Hderef1|].
    unfold persisted_text. cbn [storage config set_storage].
    apply Storage_read_stored; [|done]. unfold Storage_isAvailable. by rewrite Hraw.
  - rewrite (saveAllDataImmediate_through data w text);
      [|unfold within_item_limit; by rewrite Hraw|done|done].
    rewrite Hraw. eexists. split; [reflexivity|]. cbn [snd]. split; [done|].
    unfold persisted_text. cbn [storage config set_storage].
    apply Storage_read_stored; [|done]. unfold Storage_isAvailable. by rewrite Hraw.
Qed.


(** X17.  A save to a [Map] backend first applies the item limit to
    the object it was handed, then writes what is left; a save to a Web
    Storage applies no limit. *)
Theorem only_a_map_backend_limits_the_items w (data : nat) text :
  (data < length (heap w))%nat →
  accepts_write (storage w) = true →
  (raw (storage w) = Some MapStorage →
   encode (config w) (kept_after_limit (maxItemsInMemory (config w)) (deref w data))
   = Ok text →
   ∃ w', saveAllDataImmediate data w = (Ok tt, w') ∧
         deref w' data = kept_after_limit (maxItemsInMemory (config w)) (deref w data) ∧
         persisted_text w' = Some text) ∧
  (raw (storage w) = Some WebStorage →
   encode (config w) (deref w data) = Ok text →
   ∃ w', saveAllDataImmediate data w = (Ok tt, w') ∧
         deref w' data = deref w data ∧
         persisted_text w' = Some text).
Proof. apply saveAllDataImmediate_limit. Qed.

(** C9.  On the in-memory map backend, an immediate write of a record set
    with more items than [maxItemsInMemory] evicts before it writes: what
    is left in the object and written has exactly [maxItemsInMemory] items,
    each an item of the record set, unchanged, and every item evicted
    expires no later than every item kept, an item without expiry counting
    as the last to go.  A record set within the limit is written as it is,
    and so is any record set on a Web Storage. *)
Theorem item_limit_on_the_map_backend w (data : nat) :
  (data < length (heap w))%nat →
  NoDup (Object_keys (deref w data)) →
  (raw (storage w) = Some MapStorage →
   ∀ text,
     encode (config w) (kept_after_limit (maxItemsInMemory (config w)) (deref w data))
     = Ok text →
     ∃ w', saveAllDataImmediate data w = (Ok tt, w') ∧
           persisted_text w' = Some text ∧
           encode (config w) (deref w' data) = Ok text ∧
           ((maxItemsInMemory (config w) < length (Object_keys (deref w data)))%nat →
            length (Object_keys (deref w' data)) = maxItemsInMemory (config w)) ∧
           ((length (Object_keys (deref w data)) ≤ maxItemsInMemory (config w))%nat →
            deref w' data = deref w data) ∧
           (∀ key item, get_prop key (deref w' data) = Some item →
                        get_prop key (deref w data) = Some item) ∧
           (∀ gone stay,
              gone ∈ Object_keys (deref w data) →
              gone ∉ Object_keys (deref w' data) →
              stay ∈ Object_keys (deref w' data) →
              expiry_le (stored_expiry (deref w data) gone)
                        (stored_expiry (deref w data) stay))) ∧
  (raw (storage w) = Some WebStorage →
   accepts_write (storage w) = true →
   ∀ text,
     encode (config w) (deref w data) = Ok text →
     ∃ w', saveAllDataImmediate data w = (Ok tt, w') ∧
           persisted_text w' = Some text ∧
           deref w' data = deref w data).
Proof.
  intros Hvalid Hnodup. split.
  - intros Hraw text Henc.
    assert (accepts_write (storage w) = true) as Hacc
      by (unfold accepts_write; by rewrite Hraw).
    destruct (saveAllDataImmediate_limit w data text Hvalid Hacc) as [Hmap _].
    destruct (Hmap Hraw Henc) as (w' & Hrun & Hderef & Htext).
    destruct (kept_after_limit_spec (deref w data) (maxItemsInMemory (config w)) Hnodup)
      as (Hlen & Hsub & Horder).
    exists w'. rewrite Hderef.
    split; [exact Hrun|]. split; [exact Htext|]. split; [exact Henc|].
    split; [intros Hover; lia|].
    split; [|split; [exact Hsub|exact Horder]].
    intros Hunder. unfold kept_after_limit.
    by rewrite (proj2 (Nat.leb_le _ _) Hunder).
  - intros Hraw Hacc text Henc.
    destruct (saveAllDataImmediate_limit w data text Hvalid Hacc) as [_ Hweb].
    destruct (Hweb Hraw Henc) as (w' & Hrun & Hderef & Htext).
    exists w'. by rewrite Hderef.
Qed.
End Eviction.

(** ** The transform pipeline and the transform chain *)

Section Pipelines.
Implicit Types (transforms : list StorageTransform) (text : string).

Lemma reduce_app {A} (l1 l2 : list A) callback text :
  TransformPipeline.reduce (l1 ++ l2) callback text
  = match TransformPipeline.reduce l1 callback text with
    | Ok middle => TransformPipeline.reduce l2 callback middle
    | Err e => Err e
    end.
Proof.
  revert text. induction l1 as [|a l1 IH]; intros text; [done|].
  cbn [app TransformPipeline.reduce]. by destruct (callback text a).
Qed.

Lemma serialize_all_round_trip transforms text :
  Forall (λ t, inverts (serialize t) (deserialize t)) transforms →
  ∃ stored, serialize_all transforms text = Ok stored ∧
            deserialize_all transforms stored = Ok text.
Proof.
  intros Hall. revert text. induction Hall as [|t transforms Ht Hall IH]; intros text.
  - by exists text.
  - destruct (Ht text) as (middle & Hforward & Hbackward).
    destruct (IH middle) as (stored & Hrest & Hback).
    exists stored. unfold serialize_all, deserialize_all, TransformPipeline.reduceRight in *.
    cbn [TransformPipeline.reduce rev]. rewrite Hforward. split; [done|].
    rewrite reduce_app, Hback. cbn [TransformPipeline.reduce]. by rewrite Hbackward.
Qed.

Lemma pipeline_apply_ok transforms text stored :
  serialize_all transforms text = Ok stored →
  TransformPipeline.apply transforms text = Ok stored.
Proof.
  unfold serialize_all, TransformPipeline.apply. revert text.
  induction transforms as [|t transforms IH]; intros text; [done|].
  cbn [TransformPipeline.reduce]. destruct (serialize t text); [apply IH|done].
Qed.

Lemma pipeline_reduce_ok {A} (l : list A) (f g : string → A → result string) text stored :
  (∀ current a s, f current a = Ok s → g current a = Ok s) →
  TransformPipeline.reduce l f text = Ok stored →
  TransformPipeline.reduce l g text = Ok stored.
Proof.
  intros Hfg. revert text. induction l as [|a l IH]; intros text; [done|].
  cbn [TransformPipeline.reduce]. destruct (f text a) eqn:Hf; [|done].
  rewrite (Hfg _ _ _ Hf). apply IH.
Qed.

(** X18.  A pipeline whose transforms each undo their own
    [serialize] is symmetric: [reverse] gives back what [apply] was given.
    When a transform throws, [apply] stops there and throws
    ["Transform pipeline failed: "] followed by the message. *)
Theorem pipeline_reverse_undoes_apply transforms text :
  (Forall (λ t, inverts (serialize t) (deserialize t)) transforms →
   ∃ stored, TransformPipeline.apply transforms text = Ok stored ∧
             TransformPipeline.reverse transforms stored = Ok text) ∧
  (∀ before t after middle e,
     transforms = before ++ t :: after →
     TransformPipeline.apply before text = Ok middle →
     serialize t middle = Err e →
     TransformPipeline.apply transforms text
     = Err (Error ("Transform pipeline failed: " +:+ err_message e))).
Proof.
  split.
  - intros Hall. destruct (serialize_all_round_trip transforms text Hall)
      as (stored & Hforward & Hbackward).
    exists stored. split; [by apply pipeline_apply_ok|].
    unfold TransformPipeline.reverse, deserialize_all, TransformPipeline.reduceRight in *.
    refine (pipeline_reduce_ok _ _ _ _ _ _ Hbackward).
    by intros ? ? ? ->.
  - intros before t after middle e -> Hbefore Ht.
    unfold TransformPipeline.apply in *. rewrite reduce_app, Hbefore.
    cbn [TransformPipeline.reduce]. by rewrite Ht.
Qed.
End Pipelines.

Section Chains.
Import TransformChain.
Implicit Types (h : Handlers) (transforms : list StorageTransform) (text : string).

Lemma normalize_transforms transforms h :
  normalize (map Transform transforms) h
  = (seq (length h) (length transforms), h ++ map InlineTransformHandler transforms).
Proof.
  revert h. induction transforms as [|t transforms IH]; intros h.
  - cbn. by rewrite app_nil_r.
  - cbn [map normalize]. rewrite IH, length_app. cbn [length seq map].
    rewrite Nat.add_1_r. by rewrite <- app_assoc.
Qed.

Lemma length_setNext (this handler : nat) h :
  length (setNext this handler h) = length h.
Proof. unfold setNext. etrans; apply length_alter. Qed.

Lemma lookup_setNext (this handler : nat) h (j : nat) :
  this ≠ handler →
  setNext this handler h !! j
  = if decide (j = handler) then with_prev (Some this) <$> h !! j
    else if decide (j = this) then with_next (Some handler) <$> h !! j
    else h !! j.
Proof.
  intros Hne. unfold setNext.
  destruct (decide (j = handler)) as [->|Hj].
  - etrans; [apply list_lookup_alter_eq|]. f_equal. by apply list_lookup_alter_ne.
  - etrans; [by apply list_lookup_alter_ne|].
    destruct (decide (j = this)) as [->|Hj'].
    + apply list_lookup_alter_eq.
    + by apply list_lookup_alter_ne.
Qed.

Lemma link_seq n : ∀ (first : nat) h,
  (first + n ≤ length h)%nat →
  ∀ j : nat, link (seq first n) h !! j
       = if bool_decide (first ≤ j < first + n)%nat
         then linked_node first n (j - first) <$> h !! j
         else h !! j.
Proof.
  induction n as [|n IH]; intros first h Hlen j.
  - cbn. rewrite bool_decide_eq_false_2; [done|lia].
  - destruct n as [|n].
    + cbn [seq link]. case_bool_decide as Hj; [|done].
      assert (j = first) as -> by lia. rewrite Nat.sub_diag.
      destruct (h !! first) as [node|]; [|done]. cbn. by destruct node.
    + change (link (seq first (S (S n))) h)
        with (link (seq (S first) (S n)) (setNext first (S first) h)).
      rewrite IH by (rewrite length_setNext; lia).
      rewrite lookup_setNext by lia.
      destruct (decide (j = S first)) as [->|Hne'].
      * rewrite !bool_decide_eq_true_2 by lia.
        replace (S first - S first)%nat with 0%nat by lia.
        replace (S first - first)%nat with 1%nat by lia.
        destruct (h !! S first) as [node|]; [|done].
        cbn. unfold linked_node, with_prev. cbn.
        f_equal. f_equal; [|f_equal; lia].
        destruct n; [done|]. cbn. do 2 f_equal. lia.
      * destruct (decide (j = first)) as [->|Hne].
        -- rewrite bool_decide_eq_false_2 by lia.
           rewrite bool_decide_eq_true_2 by lia.
           rewrite Nat.sub_diag. destruct (h !! first) as [node|]; [|done].
           cbn. unfold linked_node, with_next. cbn. do 2 f_equal. f_equal. lia.
        -- case_bool_decide as Hj.
           ++ rewrite bool_decide_eq_true_2 by lia.
              destruct (h !! j) as [node|]; [|done]. cbn.
              unfold linked_node. f_equal. f_equal.
              ** replace (S (j - S first) <? S n)%nat with (S (j - first) <? S (S n))%nat.
                 { destruct (S (j - first) <? S (S n))%nat; [f_equal; lia|done]. }
                 destruct (Nat.ltb_spec (S (j - first)) (S (S n)));
                   destruct (Nat.ltb_spec (S (j - S first)) (S n)); done || lia.
              ** replace (0 <? j - S first)%nat with true
                   by (symmetry; apply Nat.ltb_lt; lia).
                 replace (0 <? j - first)%nat with true
                   by (symmetry; apply Nat.ltb_lt; lia).
                 f_equal. lia.
           ++ rewrite bool_decide_eq_false_2 by lia. done.
Qed.
Lemma serialize_all_cons t transforms text :
  serialize_all (t :: transforms) text
  = match serialize t text with
    | Ok next => serialize_all transforms next
    | Err e => Err e
    end.
Proof. done. Qed.

Lemma deserialize_all_snoc t transforms text :
  deserialize_all (transforms ++ [t]) text
  = match deserialize t text with
    | Ok next => deserialize_all transforms next
    | Err e => Err e
    end.
Proof.
  unfold deserialize_all, TransformPipeline.reduceRight. by rewrite rev_unit.
Qed.

Lemma chained_lookup transforms h (i : nat) t :
  transforms !! i = Some t →
  chained transforms h !! (length h + i)%nat
  = Some (mkHandler (serialize t) (deserialize t)
            (if (S i <? length transforms)%nat then Some (length h + S i)%nat else None)
            (if (0 <? i)%nat then Some (length h + i - 1)%nat else None)).
Proof.
  intros Ht. pose proof (lookup_lt_Some _ _ _ Ht) as Hi. unfold chained.
  rewrite link_seq by (rewrite length_app, length_map; lia).
  rewrite bool_decide_eq_true_2 by lia. unfold Handlers in *.
  rewrite lookup_app_r by lia.
  replace (length h + i - length h)%nat with i by lia.
  rewrite list_lookup_fmap, Ht. done.
Qed.

Lemma chained_older transforms h (j : nat) :
  (j < length h)%nat → chained transforms h !! j = h !! j.
Proof.
  intros Hj. unfold chained.
  rewrite link_seq by (rewrite length_app, length_map; lia).
  rewrite bool_decide_eq_false_2 by lia. unfold Handlers in *. by rewrite lookup_app_l.
Qed.

Lemma chained_serialize transforms h stack : ∀ (i : nat) text,
  (i < length transforms)%nat →
  (length transforms - i ≤ stack)%nat →
  handler_serialize stack (chained transforms h) (length h + i)%nat text
  = Some (serialize_all (drop i transforms) text).
Proof.
  induction stack as [|stack IH]; intros i text Hi Hstack; [lia|].
  destruct (lookup_lt_is_Some_2 transforms i Hi) as [t Ht].
  cbn [handler_serialize]. rewrite (chained_lookup _ _ _ _ Ht).
  rewrite (drop_S _ _ _ Ht), serialize_all_cons. cbn [process nextHandler].
  destruct (serialize t text) as [next|]; [|done].
  destruct (Nat.ltb_spec (S i) (length transforms)).
  - apply IH; lia.
  - rewrite drop_ge by lia. done.
Qed.

Lemma chained_deserialize transforms h stack : ∀ (i : nat) text,
  (i < length transforms)%nat →
  (S i ≤ stack)%nat →
  handler_deserialize stack (chained transforms h) (length h + i)%nat text
  = Some (deserialize_all (take (S i) transforms) text).
Proof.
  induction stack as [|stack IH]; intros i text Hi Hstack; [lia|].
  destruct (lookup_lt_is_Some_2 transforms i Hi) as [t Ht].
  cbn [handler_deserialize]. rewrite (chained_lookup _ _ _ _ Ht).
  rewrite (take_S_r _ _ _ Ht), deserialize_all_snoc. cbn [reverseProcess prevHandler].
  destruct (deserialize t text) as [next|]; [|done].
  destruct i as [|i]; [done|].
  cbn [Nat.ltb Nat.leb].
  replace (length h + S i - 1)%nat with (length h + i)%nat by lia.
  apply IH; lia.
Qed.

Lemma from_transforms transforms h :
  from (map Transform transforms) h
  = match transforms with
    | [] => (mkTransformChain None None, h)
    | _ => (mkTransformChain (Some (length h))
              (Some (length h + (length transforms - 1))%nat),
            chained transforms h)
    end.
Proof.
  destruct transforms as [|t transforms]; [done|].
  unfold from. cbn [map]. change (Transform t :: map Transform transforms)
    with (map Transform (t :: transforms)).
  rewrite normalize_transforms. unfold chained. f_equal. f_equal.
  rewrite last_lookup, length_seq. cbn [length Nat.pred].
  rewrite lookup_seq_lt by (cbn; lia). f_equal. cbn. lia.
Qed.



(** X19.  A chain built by [TransformChain.from] out of plain
    transforms does what the pipeline of those transforms does: [apply] runs
    the [serialize] functions first to last and [reverse] the [deserialize]
    functions last to first, as deep a call stack as there are transforms
    being enough; the handlers that existed before are not touched.  So
    [reverse] undoes [apply] when each transform undoes its own
    [serialize], and the chain of no transform is the identity. *)
Theorem chain_of_transforms_is_the_pipeline transforms h text stack :
  (length transforms ≤ stack)%nat →
  apply stack (from (map Transform transforms) h).2
        (from (map Transform transforms) h).1 text
  = Some (serialize_all transforms text) ∧
  reverse stack (from (map Transform transforms) h).2
          (from (map Transform transforms) h).1 text
  = Some (deserialize_all transforms text) ∧
  hasTransforms (from (map Transform transforms) h).1
  = TransformPipeline.hasTransforms transforms ∧
  (∀ j : nat, (j < length h)%nat →
              (from (map Transform transforms) h).2 !! j = h !! j) ∧
  (Forall (λ t, inverts (serialize t) (deserialize t)) transforms →
   ∃ stored,
     apply stack (from (map Transform transforms) h).2
           (from (map Transform transforms) h).1 text = Some (Ok stored) ∧
     ∀ stack', (length transforms ≤ stack')%nat →
       reverse stack' (from (map Transform transforms) h).2
               (from (map Transform transforms) h).1 stored = Some (Ok text)).
Proof.
  intros Hstack. rewrite from_transforms.
  assert (∀ stack' text',
            (length transforms ≤ stack')%nat →
            apply stack'
              (match transforms with
               | [] => (mkTransformChain None None, h)
               | _ => (mkTransformChain (Some (length h))
                         (Some (length h + (length transforms - 1))%nat),
                       chained transforms h)
               end).2
              (match transforms with
               | [] => (mkTransformChain None None, h)
               | _ => (mkTransformChain (Some (length h))
                         (Some (length h + (length transforms - 1))%nat),
                       chained transforms h)
               end).1 text'
            = Some (serialize_all transforms text') ∧
            reverse stack'
              (match transforms with
               | [] => (mkTransformChain None None, h)
               | _ => (mkTransformChain (Some (length h))
                         (Some (length h + (length transforms - 1))%nat),
                       chained transforms h)
               end).2
              (match transforms with
               | [] => (mkTransformChain None None, h)
               | _ => (mkTransformChain (Some (length h))
                         (Some (length h + (length transforms - 1))%nat),
                       chained transforms h)
               end).1 text'
            = Some (deserialize_all transforms text')) as Hboth.
  { intros stack' text' Hstack'.
    destruct transforms as [|t transforms]; [done|].
    cbn [fst snd]. unfold apply, reverse. cbn [head tail]. split.
    - pose proof (chained_serialize (t :: transforms) h stack' 0 text') as Hrun.
      rewrite Nat.add_0_r in Hrun. apply Hrun; cbn [length] in *; lia.
    - pose proof (chained_deserialize (t :: transforms) h stack'
                    (length (t :: transforms) - 1) text') as Hrun.
      rewrite Hrun by (cbn [length] in *; lia).
      replace (S (length (t :: transforms) - 1)) with (length (t :: transforms))
        by (cbn [length]; lia).
      by rewrite firstn_all. }
  destruct (Hboth stack text Hstack) as [Happly Hreverse].
  split; [exact Happly|]. split; [exact Hreverse|].
  split; [by destruct transforms|].
  split.
  { intros j Hj. destruct transforms; [done|]. by apply chained_older. }
  intros Hall.
  destruct (serialize_all_round_trip transforms text Hall) as (stored & Hforward & Hbackward).
  exists stored. rewrite Happly, Hforward. split; [done|].
  intros stack' Hstack'. destruct (Hboth stack' stored Hstack') as [_ ->].
  by rewrite Hbackward.
Qed.

(** X20.  Giving [TransformChain.from] the same handler object twice
    in a row links the handler to itself: when its [process] never throws,
    [apply] does not return, however deep the call stack. *)
Theorem repeated_handler_makes_a_cycle h (node : nat) handler text stack :
  h !! node = Some handler →
  (∀ s, ∃ s', process handler s = Ok s') →
  apply stack (from [Handler node; Handler node] h).2
        (from [Handler node; Handler node] h).1 text = None.
Proof.
  intros Hnode Htotal. unfold from, apply. cbn [normalize link List.head head fst snd].
  assert (setNext node node h !! node
          = Some (mkHandler (process handler) (reverseProcess handler)
                    (Some node) (Some node))) as Hlinked.
  { unfold setNext. etrans; [apply list_lookup_alter_eq|].
    etrans; [apply (f_equal (fmap _)), list_lookup_alter_eq|].
    etrans; [apply (f_equal (fmap _)), (f_equal (fmap _)), Hnode|]. done. }
  revert text. induction stack as [|stack IH]; intros text; [done|].
  cbn [handler_serialize].
  match goal with
  | |- context [match ?found with Some _ => _ | None => _ end] =>
      replace found
        with (Some (mkHandler (process handler) (reverseProcess handler)
                      (Some node) (Some node)))
        by (symmetry; exact Hlinked)
  end.
  cbn [process nextHandler].
  destruct (Htotal text) as [s' ->]. apply IH.
Qed.
End Chains.

(** ** Keys *)

Section Keys.
Implicit Types (key : string) (st : option RawStorage).

Lemma trimStart_blank s : blank s = true → trimStart s = "".
Proof.
  induction s as [|c s IH]; [done|]. cbn [blank trimStart].
  intros [Hc Hs]%andb_prop. rewrite Hc. by apply IH.
Qed.

Lemma trimStart_not_blank s :
  blank s = false → ∃ c rest, trimStart s = String c rest ∧ is_whitespace c = false.
Proof.
  induction s as [|c s IH]; [done|]. cbn [blank trimStart].
  destruct (is_whitespace c) eqn:Hc; [|by eauto]. apply IH.
Qed.

Lemma trim_blank s : trim s = "" ↔ blank s = true.
Proof.
  unfold trim. split.
  - intros Htrim. destruct (blank s) eqn:Hblank; [done|].
    destruct (trimStart_not_blank s Hblank) as (c & rest & Hstart & Hc).
    rewrite Hstart in Htrim. cbn [trimEnd] in Htrim. by rewrite Hc in Htrim.
  - intros Hblank. by rewrite trimStart_blank.
Qed.

(** X21.  [validateKey] accepts a key exactly when the storage is
    there, the key has a character that is not white space, and the key is
    none of ["__proto__"], ["constructor"], ["prototype"].  A missing
    storage is reported before anything about the key, and a blank key
    before a dangerous one. *)
Theorem validateKey_accepts key st :
  (validateKey key st = Ok tt
   ↔ is_Some st ∧ blank key = false ∧ key ∉ DANGEROUS_KEYS) ∧
  (st = None →
   validateKey key st = Err (Error "Storage is not available (unavailable environment).")) ∧
  (is_Some st → blank key = true →
   validateKey key st = Err (Error "Storage key cannot be empty or whitespace.")) ∧
  (is_Some st → blank key = false → key ∈ DANGEROUS_KEYS →
   validateKey key st
   = Err (Error ("Storage key " +:+ dquote +:+ key +:+ dquote +:+
                 " is not allowed as it may cause prototype pollution."))).
Proof.
  assert (String.eqb key "" || String.eqb (trim key) "" = blank key) as Hblank.
  { destruct (blank key) eqn:Hb.
    - apply trim_blank in Hb. rewrite Hb. apply orb_true_r.
    - apply orb_false_intro.
      + apply String.eqb_neq. by intros ->.
      + apply String.eqb_neq. intros Htrim. apply trim_blank in Htrim. congruence. }
  unfold validateKey. rewrite Hblank. split; [|split; [|split]].
  - destruct st as [kind|]; [|split; [done|by intros [[? [=]] _]]].
    destruct (blank key); [split; [done|by intros (_ & ? & _)]|].
    case_bool_decide as Hdanger; [split; [done|by intros (_ & _ & ?)]|].
    split; [|done]. intros _. split; [by eexists|done].
  - by intros ->.
  - intros [kind ->] ->. done.
  - intros [kind ->] -> Hdanger. by rewrite bool_decide_eq_true_2.
Qed.
End Keys.

Section ValidationFirst.
Context {V : Type} `{!JSON V}.
Implicit Types (w : World V) (key : string).



End ValidationFirst.

Section RefusedKeys.
Context {V : Type} `{!JSON V}.
Implicit Types (w : World V) (key : string).

(** X22.  With a key that [validateKey] refuses, [setItem], [getItem],
    [updateItem], [extendTTL], [removeItem] and [hasItem] throw its error
    and leave the engine, the objects and the backend exactly as they were:
    nothing is read, purged or scheduled. *)
Theorem a_refused_key_changes_nothing w key :
  is_ok (validateKey key (raw (storage w))) = false →
  ∃ e, validateKey key (raw (storage w)) = Err e ∧
       (∀ value ttl, setItem key value ttl w = (Err e, w)) ∧
       getItem key w = (Err e, w) ∧
       (∀ value, updateItem key value w = (Err e, w)) ∧
       (∀ ttl, extendTTL key ttl w = (Err e, w)) ∧
       removeItem key w = (Err e, w) ∧
       hasItem key w = (Err e, w).
Proof.
  intros Hrefused.
  destruct (validateKey key (raw (storage w))) as [[]|e] eqn:Hvalid; [done|].
  exists e. split; [done|]. by apply keyed_operations_validate.
Qed.

(** X23.  Whatever the backend holds, [getAllData] returns: a new
    object with the record set the engine works on, every older object left
    as it was.  A text that does not decode is removed from the backend by
    that read, and the read gives the empty record set; any other entry,
    the empty text among them, stays. *)
Theorem getAllData_always_returns w :
  ∃ data w',
    getAllData w = (Ok data, w') ∧
    data = length (heap w) ∧
    deref w' data = current_data w ∧
    (∀ older, (older < length (heap w))%nat → deref w' older = deref w older) ∧
    persisted_text w' = (if is_corrupted w then None else persisted_text w) ∧
    (is_corrupted w = true → current_data w = []) ∧
    dirtyData w' = dirtyData w ∧ written (storage w') = written (storage w).
Proof.
  exists (length (heap w)), (set_heap (heap w ++ [current_data w]) (recovered w)).
  split; [apply getAllData_spec|]. split; [done|].
  split; [apply deref_new_object|].
  split.
  { intros older Holder. unfold deref. cbn [heap set_heap].
    assert (heap (recovered w) = heap w) as Hheap
      by (unfold recovered; by destruct (is_corrupted w)).
    by rewrite lookup_app_l. }
  split.
  { unfold persisted_text, recovered. cbn [storage config set_heap].
    destruct (is_corrupted w) eqn:Hcorrupted; [|done].
    unfold is_corrupted in Hcorrupted. cbn [storage config set_storage].
    unfold Storage_read, Storage_remove.
    destruct (raw (storage w)) as [kind|] eqn:Hraw; [|done].
    cbn [raw entries]. apply lookup_delete_eq. }
  split; [apply corrupted_is_empty|].
  cbn [dirtyData storage set_heap]. rewrite written_recovered.
  split; [|done]. unfold recovered. by destruct (is_corrupted w).
Qed.

(** X24.  While a save is pending, the object [getAllData] returns is
    a copy of the dirty buffer: it has the buffer's properties, and whatever
    is done to it, the buffer, and so what the engine reads and what the
    pending save will write, stays as it was. *)
Theorem reads_hand_out_a_copy_of_the_buffer w d :
  Storage_isAvailable (storage w) = true →
  dirtyData w = Some d →
  (d < length (heap w))%nat →
  ∃ copy w',
    getAllData w = (Ok copy, w') ∧
    copy ≠ d ∧
    deref w' copy = deref w d ∧
    ∀ f, dirtyData (update_object copy f w').2 = Some d ∧
         deref (update_object copy f w').2 d = deref w d ∧
         current_data (update_object copy f w').2 = current_data w.
Proof.
  intros Havail Hdirty Hvalid.
  destruct (getAllData_copies_the_buffer w d Havail Hdirty Hvalid)
    as (copy & w' & Hget & Hne & Hcopy & Hdirty' & Hkept).
  exists copy, w'. split; [exact Hget|]. split; [exact Hne|]. split; [exact Hcopy|].
  intros f.
  assert (dirtyData (update_object copy f w').2 = Some d) as Hd by exact Hdirty'.
  split; [exact Hd|]. split; [apply Hkept|].
  assert (raw (storage (update_object copy f w').2) = raw (storage w)) as Hraw.
  { rewrite getAllData_spec in Hget. injection Hget as _ <-.
    cbn [update_object modify snd storage set_heap]. apply raw_recovered. }
  unfold current_data. rewrite Hraw, Hd, Hdirty.
  destruct (raw (storage w)); [apply Hkept|done].
Qed.

(** X25.  The earlier engine hands out the dirty buffer itself, frozen:
    with a save pending, the assignment [data[key] = ...] that its
    [setItem] makes next throws a [TypeError], and the buffer stays frozen. *)
Theorem earlier_engine_freezes_its_buffer (w : Legacy.World V) d o key value expiry :
  raw (Legacy.backend w) ≠ None →
  Legacy.dirtyData w = Some d →
  Legacy.heap w !! d = Some o →
  ∃ w' : Legacy.World V,
    Legacy.getAllData w = (Ok d, w') ∧
    Legacy.heap w' !! d = Some (Legacy.mkObj (Legacy.props o) true) ∧
    ∃ e, Legacy.setItem_stores key value expiry w = (Err e, w') ∧
         err_class e = TypeError.
Proof.
  intros Hraw Hdirty Hobj.
  pose proof (legacy_getAllData_returns_the_buffer w d Hraw Hdirty) as Hget.
  eexists. split; [exact Hget|].
  assert (Legacy.heap
            (Legacy.set_heap
               (alter (λ o, Legacy.mkObj (Legacy.props o) true) d (Legacy.heap w)) w) !! d
          = Some (Legacy.mkObj (Legacy.props o) true)) as Hfrozen.
  { cbn [Legacy.heap Legacy.set_heap].
    etrans; [apply list_lookup_alter_eq|].
    etrans; [apply (f_equal (fmap _)), Hobj|]. done. }
  split; [exact Hfrozen|].
  unfold Legacy.setItem_stores. rewrite (bind_ok Hget).
  unfold bind at 1, Legacy.assign.
  match goal with
  | |- context [match ?found with Some _ => _ | None => _ end] =>
      replace found with (Some (Legacy.mkObj (Legacy.props o) true))
        by (symmetry; exact Hfrozen)
  end.
  by eexists.
Qed.
End RefusedKeys.

(** X26.  The adapters: a write the backend accepts is read back and
    leaves the other keys alone; a write it refuses changes no entry; a
    [Map] refuses none; a removed key reads as [null]; and an adapter
    without storage ignores writes and removals and reads [null]. *)
Theorem adapter_reads_what_was_written st key value :
  (∀ st', Storage_write key value st = (Ok tt, st') →
          Storage_isAvailable st = true →
          Storage_read key st' = Some value ∧
          ∀ key', key' ≠ key → Storage_read key' st' = Storage_read key' st) ∧
  (∀ e st', Storage_write key value st = (Err e, st') →
            ∀ key', Storage_read key' st' = Storage_read key' st) ∧
  (raw st = Some MapStorage → (Storage_write key value st).1 = Ok tt) ∧
  (Storage_read key (Storage_remove key st) = None ∧
   ∀ key', key' ≠ key →
           Storage_read key' (Storage_remove key st) = Storage_read key' st) ∧
  (Storage_isAvailable st = false →
   Storage_write key value st = (Ok tt, st) ∧ Storage_remove key st = st ∧
   Storage_read key st = None).
Proof.
  unfold Storage_write, Storage_read, Storage_remove, Storage_isAvailable.
  destruct (raw st) as [[|]|] eqn:Hraw.
  - split; [|split; [|split; [done|split; [|done]]]].
    + intros st' Hwrite _.
      destruct (setItem_outcomes st) as [|[e|] later]; simplify_eq; cbn; rewrite ?Hraw;
        (split; [apply lookup_insert_eq|intros; by apply lookup_insert_ne]).
    + intros e st' Hwrite key'.
      destruct (setItem_outcomes st) as [|[e'|] later]; simplify_eq. cbn. by rewrite ?Hraw.
    + cbn. rewrite ?Hraw. split; [apply lookup_delete_eq|intros; by apply lookup_delete_ne].
  - split; [|split; [|split; [done|split; [|done]]]].
    + intros st' [= <-] _. cbn. rewrite ?Hraw.
      split; [apply lookup_insert_eq|intros; by apply lookup_insert_ne].
    + by intros e st' [=].
    + cbn. rewrite ?Hraw. split; [apply lookup_delete_eq|intros; by apply lookup_delete_ne].
  - split; [|split; [|split; [done|split; [|done]]]].
    + by intros st' _ [=].
    + by intros e st' [=].
    + by rewrite ?Hraw.
Qed.

(** ** The registry *)

Section RegistryFacts.
Import Registry.
Context {Options Instance : Type}.
Variable construct : StorageTypeValue → string → Options → Instance.
Variable release : Instance → result unit * Instance.
Implicit Types (m : Instances (Instance := Instance)) (key : string)
  (options : StorageVaultOptions (Options := Options)).

Lemma Map_get_set key instance m : Map_get key (Map_set key instance m) = Some instance.
Proof.
  induction m as [|[k old] m IH]; cbn; [by rewrite String.eqb_refl|].
  destruct (String.eqb k key) eqn:Hk; cbn; by rewrite Hk.
Qed.

Lemma Map_get_set_ne key key' instance m :
  key ≠ key' → Map_get key' (Map_set key instance m) = Map_get key' m.
Proof.
  intros Hne. induction m as [|[k old] m IH]; cbn.
  - by rewrite (proj2 (String.eqb_neq _ _)).
  - destruct (String.eqb k key) eqn:Hk; cbn; [|by rewrite IH].
    apply String.eqb_eq in Hk as ->. by rewrite (proj2 (String.eqb_neq _ _)).
Qed.

Lemma Map_get_delete key m : Map_get key (Map_delete key m) = None.
Proof.
  induction m as [|[k old] m IH]; cbn; [done|].
  destruct (String.eqb k key) eqn:Hk; cbn; [done|]. by rewrite Hk.
Qed.

Lemma Map_get_delete_ne key key' m :
  key ≠ key' → Map_get key' (Map_delete key m) = Map_get key' m.
Proof.
  intros Hne. induction m as [|[k old] m IH]; cbn; [done|].
  destruct (String.eqb k key) eqn:Hk; cbn; [|by rewrite IH].
  apply String.eqb_eq in Hk as ->. by rewrite (proj2 (String.eqb_neq _ _)).
Qed.

Lemma Map_set_same key instance m :
  Map_get key m = Some instance → Map_set key instance m = m.
Proof.
  induction m as [|[k old] m IH]; cbn; [done|].
  destruct (String.eqb k key) eqn:Hk; [by intros [= ->]|]. intros Hget. by rewrite IH.
Qed.

Lemma instance_key_inj t1 k1 t2 k2 :
  instance_key t1 k1 = instance_key t2 k2 → t1 = t2 ∧ k1 = k2.
Proof.
  unfold instance_key. destruct t1, t2; cbn; intros Heq; by simplify_eq.
Qed.

Lemma getInstance_spec options m :
  getInstance construct options m
  = match Map_get (key_of options) m with
    | Some instance => (Ok instance, m)
    | None =>
        (Ok (construct (default DEFAULT_STORAGE_TYPE (storageType options))
                       (default DEFAULT_STORAGE_KEY (storageKey options))
                       (others options)),
         Map_set (key_of options)
           (construct (default DEFAULT_STORAGE_TYPE (storageType options))
                      (default DEFAULT_STORAGE_KEY (storageKey options))
                      (others options)) m)
    end.
Proof.
  unfold getInstance, key_of. cbv zeta. rewrite bind_gets. unfold Map_has.
  destruct (Map_get _ m) as [instance|] eqn:Hget; cbn [negb].
  - unfold bind at 1, ret at 1. by rewrite bind_gets, Hget.
  - rewrite bind_modify, bind_gets. by rewrite Map_get_set.
Qed.

(** X27.  [getInstance] never throws and keeps one engine for each
    pair of storage type and storage key: a first call constructs the
    engine from its options and registers it, and every later call for the
    same pair returns that engine and leaves the registry alone, whatever
    other options it is given.  Different pairs never share an entry. *)
Theorem getInstance_keeps_one_engine_per_key :
  (∀ t1 k1 t2 k2, instance_key t1 k1 = instance_key t2 k2 → t1 = t2 ∧ k1 = k2) ∧
  (∀ options m,
     ∃ instance m',
       getInstance construct options m = (Ok instance, m') ∧
       Map_get (key_of options) m' = Some instance ∧
       (∀ key, key ≠ key_of options → Map_get key m' = Map_get key m) ∧
       (∀ first, Map_get (key_of options) m = Some first → instance = first ∧ m' = m) ∧
       (Map_get (key_of options) m = None →
        instance = construct (default DEFAULT_STORAGE_TYPE (storageType options))
                             (default DEFAULT_STORAGE_KEY (storageKey options))
                             (others options)) ∧
       ∀ options', key_of options' = key_of options →
                   getInstance construct options' m' = (Ok instance, m')).
Proof.
  split; [apply instance_key_inj|].
  intros options m. rewrite getInstance_spec.
  destruct (Map_get (key_of options) m) as [first|] eqn:Hget.
  - exists first, m. split; [done|]. split; [done|]. split; [done|].
    split; [by intros ? [= ->]|]. split; [done|].
    intros options' Hsame. by rewrite getInstance_spec, Hsame, Hget.
  - eexists _, _. split; [done|]. split; [apply Map_get_set|].
    split; [intros key Hne; apply Map_get_set_ne; congruence|].
    split; [done|]. split; [done|].
    intros options' Hsame. by rewrite getInstance_spec, Hsame, Map_get_set.
Qed.

(** X28.  [disposeInstance] returns [false] and changes nothing when
    no engine is registered for the pair.  Otherwise it flushes and cleans
    up the engine, removes its entry and no other, and returns [true]; a
    second call then returns [false].  When the flush throws, the error goes
    to the caller and the engine stays registered. *)
Theorem disposeInstance_removes_the_engine options m :
  (Map_get (key_of options) m = None →
   disposeInstance release options m = (Ok false, m)) ∧
  (∀ instance instance',
     Map_get (key_of options) m = Some instance →
     release instance = (Ok tt, instance') →
     ∃ m', disposeInstance release options m = (Ok true, m') ∧
           Map_get (key_of options) m' = None ∧
           (∀ key, key ≠ key_of options → Map_get key m' = Map_get key m) ∧
           disposeInstance release options m' = (Ok false, m')) ∧
  (∀ instance instance' e,
     Map_get (key_of options) m = Some instance →
     release instance = (Err e, instance') →
     ∃ m', disposeInstance release options m = (Err e, m') ∧
           Map_get (key_of options) m' = Some instance' ∧
           (∀ key, key ≠ key_of options → Map_get key m' = Map_get key m)).
Proof.
  assert (∀ m0, Map_get (key_of options) m0 = None →
                disposeInstance release options m0 = (Ok false, m0)) as Habsent.
  { intros m0 Hget. unfold disposeInstance. cbv zeta. rewrite bind_gets, Hget.
    unfold bind at 1, ret at 1. rewrite bind_gets, bind_modify. unfold Map_has.
    rewrite Hget. unfold ret. f_equal.
    clear Habsent || idtac. induction m0 as [|[k old] m0 IH]; [done|].
    cbn in *. destruct (String.eqb k (key_of options)); [done|]. by rewrite IH. }
  split; [apply Habsent|]. split.
  - intros instance instance' Hget Hrelease.
    unfold disposeInstance. cbv zeta. rewrite bind_gets, Hget.
    unfold bind at 1, released at 1. rewrite Hrelease.
    rewrite bind_gets, bind_modify. unfold Map_has. rewrite Map_get_set.
    eexists. split; [reflexivity|].
    split; [apply Map_get_delete|].
    split.
    + intros key Hne. rewrite Map_get_delete_ne by congruence.
      apply Map_get_set_ne. congruence.
    + apply Habsent, Map_get_delete.
  - intros instance instance' e Hget Hrelease.
    unfold disposeInstance. cbv zeta. rewrite bind_gets, Hget.
    unfold bind at 1, released at 1. rewrite Hrelease.
    eexists. split; [reflexivity|].
    split; [apply Map_get_set|].
    intros key Hne. apply Map_get_set_ne. congruence.
Qed.
Lemma Map_set_middle key (instance instance' : Instance) (earlier rest : Instances) :
  key ∉ map fst earlier →
  Map_set key instance' (earlier ++ (key, instance) :: rest)
  = earlier ++ (key, instance') :: rest.
Proof.
  induction earlier as [|[k old] earlier IH]; intros Hfresh; cbn.
  - by rewrite String.eqb_refl.
  - cbn in Hfresh. apply not_elem_of_cons in Hfresh as [Hne Hfresh].
    rewrite (proj2 (String.eqb_neq _ _)) by done. by rewrite IH.
Qed.

Lemma clearAllInstances_loop (rest : Instances) : ∀ (earlier : Instances),
  NoDup (map fst (earlier ++ rest)) →
  (∀ entry, entry ∈ rest → (release entry.2).1 = Ok tt) →
  for_each rest (λ entry, released release entry.1 entry.2) (earlier ++ rest)
  = (Ok tt, earlier ++ all_released release rest).
Proof.
  induction rest as [|[key instance] rest IH]; intros earlier Hnodup Hok; [done|].
  cbn [for_each]. rewrite bind_unfold. unfold released at 1. cbn [fst snd].
  pose proof (Hok (key, instance) ltac:(apply list_elem_of_here)) as Hrelease.
  cbn [snd] in Hrelease.
  destruct (release instance) as [r instance'] eqn:Hrun. cbn [fst] in Hrelease.
  subst r.
  assert (key ∉ map fst earlier) as Hfresh.
  { rewrite map_app in Hnodup. apply NoDup_app in Hnodup as (_ & Hdisjoint & _).
    intros Hin. apply (Hdisjoint key Hin). cbn. apply list_elem_of_here. }
  rewrite Map_set_middle by done.
  replace (earlier ++ (key, instance') :: rest)
    with ((earlier ++ [(key, instance')]) ++ rest) by (by rewrite <- app_assoc).
  rewrite IH.
  - rewrite <- app_assoc. cbn [app all_released map fst snd]. by rewrite Hrun.
  - rewrite <- app_assoc. cbn [app]. rewrite !map_app in *. exact Hnodup.
  - intros entry Hentry. apply Hok. by apply list_elem_of_further.
Qed.

(** X29.  [clearAllInstances] flushes and cleans up every engine in
    the order of registration and then empties the registry.  When the
    flush of one throws, the error goes to the caller, the engines after it
    are not flushed, and no engine is removed from the registry. *)
Theorem clearAllInstances_empties_the_registry m :
  NoDup (map fst m) →
  ((∀ entry, entry ∈ m → (release entry.2).1 = Ok tt) →
   clearAllInstances release m = (Ok tt, [])) ∧
  (∀ before key instance after e instance',
     m = before ++ (key, instance) :: after →
     (∀ entry, entry ∈ before → (release entry.2).1 = Ok tt) →
     release instance = (Err e, instance') →
     clearAllInstances release m
     = (Err e, all_released release before ++ (key, instance') :: after)).
Proof.
  intros Hnodup. split.
  - intros Hok. unfold clearAllInstances. rewrite bind_gets.
    by rewrite (bind_ok (clearAllInstances_loop m [] Hnodup Hok)).
  - intros before key instance after e instance' -> Hok Hthrow.
    unfold clearAllInstances. rewrite bind_gets.
    assert (∀ (todo earlier : Instances),
              NoDup (map fst (earlier ++ todo ++ (key, instance) :: after)) →
              (∀ entry, entry ∈ todo → (release entry.2).1 = Ok tt) →
              for_each (todo ++ (key, instance) :: after)
                (λ entry, released release entry.1 entry.2)
                (earlier ++ todo ++ (key, instance) :: after)
              = (Err e, earlier ++ all_released release todo ++ (key, instance') :: after)) as Hloop.
    { induction todo as [|[k i] todo IH]; intros earlier Hnd Hall.
      - cbn [app for_each all_released map]. rewrite bind_unfold.
        unfold released. cbn [fst snd]. rewrite Hthrow.
        rewrite Map_set_middle; [done|].
        cbn [app] in Hnd. rewrite map_app in Hnd.
        apply NoDup_app in Hnd as (_ & Hdisjoint & _).
        intros Hin. apply (Hdisjoint key Hin). cbn. apply list_elem_of_here.
      - cbn [app for_each]. rewrite bind_unfold. unfold released at 1. cbn [fst snd].
        pose proof (Hall (k, i) ltac:(apply list_elem_of_here)) as Hrelease.
        cbn [snd] in Hrelease.
        destruct (release i) as [r i'] eqn:Hrun. cbn [fst] in Hrelease. subst r.
        assert (k ∉ map fst earlier) as Hfresh.
        { cbn [app] in Hnd. rewrite map_app in Hnd.
          apply NoDup_app in Hnd as (_ & Hdisjoint & _).
          intros Hin. apply (Hdisjoint k Hin). cbn. apply list_elem_of_here. }
        rewrite Map_set_middle by done.
        replace (earlier ++ (k, i') :: todo ++ (key, instance) :: after)
          with ((earlier ++ [(k, i')]) ++ todo ++ (key, instance) :: after)
          by (by rewrite <- app_assoc).
        rewrite IH.
        + rewrite <- app_assoc. cbn [app all_released map fst snd]. by rewrite Hrun.
        + rewrite <- app_assoc. cbn [app] in *. rewrite !map_app in *. exact Hnd.
        + intros entry Hentry. apply Hall. by apply list_elem_of_further. }
    by rewrite (bind_err (Hloop before [] Hnodup Hok)).
Qed.
End RegistryFacts.

(** ** Examples *)


Lemma only_a_map_backend_limits_the_items_witness :
  ((0 < length (heap map_vault))%nat ∧ accepts_write (storage map_vault) = true ∧
   raw (storage map_vault) = Some MapStorage) ∧
  ∃ w', saveAllDataImmediate 0%nat map_vault = (Ok tt, w') ∧
        deref w' 0%nat = [("b", mkStoredData 2 None)].
Proof.
  assert ((0 < length (heap map_vault))%nat) as Hvalid by (vm_compute; lia).
  assert (accepts_write (storage map_vault) = true) as Hacc by reflexivity.
  assert (raw (storage map_vault) = Some MapStorage) as Hraw by reflexivity.
  assert (∃ text, encode (config map_vault)
                    (kept_after_limit (maxItemsInMemory (config map_vault))
                       (deref map_vault 0%nat)) = Ok text) as [text Henc].
  { vm_compute. eexists. reflexivity. }
  destruct (only_a_map_backend_limits_the_items map_vault 0%nat text Hvalid Hacc)
    as [Hmap _].
  destruct (Hmap Hraw Henc) as (w' & Hrun & Hderef & _).
  split; [done|]. exists w'. split; [exact Hrun|]. rewrite Hderef.
  vm_compute. reflexivity.
Defined.


Lemma item_limit_on_the_map_backend_witness :
  ((0 < length (heap map_vault))%nat ∧
   NoDup (Object_keys (deref map_vault 0%nat)) ∧
   raw (storage map_vault) = Some MapStorage) ∧
  ∃ w', saveAllDataImmediate 0%nat map_vault = (Ok tt, w') ∧
        persisted_text w' = Some (text_of [("b", mkStoredData 2 None)]) ∧
        length (Object_keys (deref w' 0%nat)) = 1%nat ∧
        get_prop "b" (deref w' 0%nat) = Some (mkStoredData 2 None).
Proof.
  assert ((0 < length (heap map_vault))%nat) as Hvalid by (vm_compute; lia).
  assert (NoDup (Object_keys (deref map_vault 0%nat))) as Hnodup.
  { apply (bool_decide_unpack _). vm_compute. exact I. }
  assert (raw (storage map_vault) = Some MapStorage) as Hraw by reflexivity.
  destruct (item_limit_on_the_map_backend map_vault 0%nat Hvalid Hnodup) as [Hmap _].
  destruct (Hmap Hraw (text_of [("b", mkStoredData 2 None)]))
    as (w' & Hrun & Htext & Henc & Hlen & _).
  { vm_compute. reflexivity. }
  split; [exact (conj Hvalid (conj Hnodup Hraw))|].
  exists w'. split; [exact Hrun|]. split; [exact Htext|].
  split; [apply Hlen; vm_compute; lia|].
  assert (w' = (saveAllDataImmediate 0%nat map_vault).2) as -> by (by rewrite Hrun).
  vm_compute. reflexivity.
Defined.




Lemma chain_of_transforms_is_the_pipeline_witness :
  (length [tagged "a"; tagged "b"] ≤ 2)%nat ∧
  TransformChain.apply 2
    (TransformChain.from (map TransformChain.Transform [tagged "a"; tagged "b"]) []).2
    (TransformChain.from (map TransformChain.Transform [tagged "a"; tagged "b"]) []).1
    "x" = Some (Ok "bax") ∧
  TransformChain.reverse 2
    (TransformChain.from (map TransformChain.Transform [tagged "a"; tagged "b"]) []).2
    (TransformChain.from (map TransformChain.Transform [tagged "a"; tagged "b"]) []).1
    "bax" = Some (Ok "x").
Proof.
  assert (length [tagged "a"; tagged "b"] ≤ 2)%nat as Hstack by (cbn; lia).
  split; [exact Hstack|].
  destruct (chain_of_transforms_is_the_pipeline [tagged "a"; tagged "b"] [] "x" 2 Hstack)
    as (Happly & _).
  destruct (chain_of_transforms_is_the_pipeline [tagged "a"; tagged "b"] [] "bax" 2 Hstack)
    as (_ & Hreverse & _).
  split; [rewrite Happly|rewrite Hreverse]; vm_compute; reflexivity.
Defined.

Lemma repeated_handler_makes_a_cycle_witness :
  [TransformChain.InlineTransformHandler (tagged "a")] !! 0%nat
  = Some (TransformChain.InlineTransformHandler (tagged "a")) ∧
  TransformChain.apply 1000
    (TransformChain.from [TransformChain.Handler 0%nat; TransformChain.Handler 0%nat]
       [TransformChain.InlineTransformHandler (tagged "a")]).2
    (TransformChain.from [TransformChain.Handler 0%nat; TransformChain.Handler 0%nat]
       [TransformChain.InlineTransformHandler (tagged "a")]).1
    "x" = None.
Proof.
  split; [reflexivity|].
  apply (repeated_handler_makes_a_cycle
           [TransformChain.InlineTransformHandler (tagged "a")] 0%nat
           (TransformChain.InlineTransformHandler (tagged "a")) "x" 1000).
  - reflexivity.
  - intros s. by eexists.
Defined.

Lemma a_refused_key_changes_nothing_witness :
  is_ok (validateKey "  " (raw (storage (stale_vault 0)))) = false ∧
  getItem "  " (stale_vault 0)
  = (Err (Error "Storage key cannot be empty or whitespace."), stale_vault 0).
Proof.
  assert (is_ok (validateKey "  " (raw (storage (stale_vault 0)))) = false) as Hrefused
    by (vm_compute; reflexivity).
  split; [exact Hrefused|].
  destruct (a_refused_key_changes_nothing (stale_vault 0) "  " Hrefused)
    as (e & Hvalid & _ & Hget & _).
  rewrite Hget. f_equal. f_equal.
  vm_compute in Hvalid. by injection Hvalid as <-.
Defined.

Lemma reads_hand_out_a_copy_of_the_buffer_witness :
  (Storage_isAvailable (storage pending_vault) = true ∧
   dirtyData pending_vault = Some 0%nat ∧
   (0 < length (heap pending_vault))%nat) ∧
  ∃ copy w',
    getAllData pending_vault = (Ok copy, w') ∧
    copy ≠ 0%nat ∧
    deref w' copy = [("k", mkStoredData 7 None)] ∧
    ∀ f, current_data (update_object copy f w').2 = [("k", mkStoredData 7 None)].
Proof.
  assert (Storage_isAvailable (storage pending_vault) = true) as Havail
    by (vm_compute; reflexivity).
  assert (dirtyData pending_vault = Some 0%nat) as Hdirty by (vm_compute; reflexivity).
  assert ((0 < length (heap pending_vault))%nat) as Hvalid by (vm_compute; lia).
  split; [done|].
  destruct (reads_hand_out_a_copy_of_the_buffer pending_vault 0%nat Havail Hdirty Hvalid)
    as (copy & w' & Hget & Hne & Hcopy & Hkept).
  exists copy, w'. split; [exact Hget|]. split; [exact Hne|].
  assert (deref pending_vault 0%nat = [("k", mkStoredData 7 None)]) as Hbuffer
    by (vm_compute; reflexivity).
  assert (current_data pending_vault = [("k", mkStoredData 7 None)]) as Hcurrent
    by (vm_compute; reflexivity).
  split; [by rewrite Hcopy|]. intros f. destruct (Hkept f) as (_ & _ & ->).
  exact Hcurrent.
Defined.

Lemma earlier_engine_freezes_its_buffer_witness :
  (raw (Legacy.backend legacy_vault) ≠ None ∧
   Legacy.dirtyData legacy_vault = Some 0%nat ∧
   Legacy.heap legacy_vault !! 0%nat
   = Some (Legacy.mkObj [("k", mkStoredData 7 None)] false)) ∧
  ∃ e, (Legacy.setItem_stores "k" 8 None legacy_vault).1 = Err e ∧
       err_class e = TypeError.
Proof.
  assert (raw (Legacy.backend legacy_vault) ≠ None) as Hraw by done.
  split; [done|].
  destruct (earlier_engine_freezes_its_buffer legacy_vault 0%nat
              (Legacy.mkObj [("k", mkStoredData 7 None)] false) "k" 8 None
              Hraw eq_refl eq_refl) as (w' & _ & _ & e & -> & Hclass).
  by exists e.
Defined.

Lemma clearAllInstances_empties_the_registry_witness :
  NoDup (map fst [("local-APP_DATA", 0%nat); ("session-APP_DATA", 1%nat)]) ∧
  Registry.clearAllInstances (λ instance : nat, (Ok tt, instance))
    [("local-APP_DATA", 0%nat); ("session-APP_DATA", 1%nat)]
  = (Ok tt, []).
Proof.
  assert (NoDup (map fst [("local-APP_DATA", 0%nat); ("session-APP_DATA", 1%nat)]))
    as Hnodup.
  { apply (bool_decide_unpack _). vm_compute. exact I. }
  split; [exact Hnodup|].
  by apply (clearAllInstances_empties_the_registry
              (λ instance : nat, (Ok tt, instance)) _ Hnodup).
Defined.
